(** * Todo application core: state store, derived view, facade, persistence

    A shallow embedding of the state-management layer of the todo
    application (TypeScript/React) and the properties its specification
    states about it.

    Conventions.
    - JavaScript strings are [string]s (sequences of code units); [===] on
      strings is [String.eqb].
    - An optional property [p?: T] is an [option T]; [None] is [undefined].
    - A [Partial<T>] object has one [option] per property: [None] when the
      key is absent, [Some v] when it is present with value [v].
    - [new Date().toISOString()] reads the ambient wall clock.  The clock is
      an oracle [Clock = nat -> string]: the [n]-th read of a run returns
      [clock n].  Code that reads it lives in the monad [Eff], which threads
      the number of reads made so far.
    - A JavaScript number returned by a sort comparator is a [num]:
      [Some z] for the integer [z], [None] for [NaN].
    - [Array.prototype.sort] is the sort of V8, the engine of Node and
      Chrome.  For a comparator that is consistent on the elements the
      language fixes the result, and the sort is proved to return it; for
      any other comparator (a date that does not parse makes the
      comparator of the view answer [NaN]) the result is the engine's. *)

From Stdlib Require Import List String Ascii ZArith Bool Arith Lia.
From Stdlib Require Import Permutation Sorted.
Import ListNotations.
Local Open Scope string_scope.
Local Open Scope list_scope.

(* ================================================================== *)
(** * Part I. Definitions                                              *)
(* ================================================================== *)

(** ** Data model (types/todo.ts) *)

Inductive Priority : Type := low | medium | high.

Module SortBy.
Inductive t : Type := dueDate | priority | createdAt.
End SortBy.

Module Todo.
Record t : Type := mk {
  id : string;
  title : string;
  description : option string;
  completed : bool;
  priority : Priority;
  dueDate : option string;
  category : option string;
  tags : list string;
  createdAt : string;
  updatedAt : string
}.
End Todo.

Module Category.
Record t : Type := mk {
  id : string;
  name : string;
  color : string
}.
End Category.

Module TodoFilter.
Record t : Type := mk {
  searchText : string;
  category : option string;
  priority : option Priority;
  showCompleted : bool;
  sortBy : SortBy.t
}.
End TodoFilter.

Module TodoState.
Record t : Type := mk {
  todos : list Todo.t;
  categories : list Category.t;
  filter : TodoFilter.t
}.
End TodoState.

(** [Partial<Todo>]: the payload of UPDATE_TODO.  The optional properties
    of [Todo] may be present with the value [undefined]
    ([Some None]), which is what the edit form sends for an emptied
    description, due date or category. *)
Module PartialTodo.
Record t : Type := mk {
  id : option string;
  title : option string;
  description : option (option string);
  completed : option bool;
  priority : option Priority;
  dueDate : option (option string);
  category : option (option string);
  tags : option (list string);
  createdAt : option string;
  updatedAt : option string
}.
Definition empty : t :=
  mk None None None None None None None None None None.
End PartialTodo.

(** [Partial<TodoFilter>]: the payload of SET_FILTER. *)
Module PartialFilter.
Record t : Type := mk {
  searchText : option string;
  category : option (option string);
  priority : option (option Priority);
  showCompleted : option bool;
  sortBy : option SortBy.t
}.
Definition empty : t := mk None None None None None.
End PartialFilter.

Definition Priority_eqb (p q : Priority) : bool :=
  match p, q with
  | low, low | medium, medium | high, high => true
  | _, _ => false
  end.

(** ** Object spread *)

(** One property of [{ ...base, ...over }]: the value of [over] when it
    has the key, the value of [base] otherwise. *)
Definition spread {A : Type} (base : A) (over : option A) : A :=
  match over with
  | Some v => v
  | None => base
  end.

(** [{ ...todo, ...updates }] *)
Definition spread_todo (todo : Todo.t) (updates : PartialTodo.t) : Todo.t :=
  {| Todo.id := spread (Todo.id todo) (PartialTodo.id updates);
     Todo.title := spread (Todo.title todo) (PartialTodo.title updates);
     Todo.description :=
       spread (Todo.description todo) (PartialTodo.description updates);
     Todo.completed :=
       spread (Todo.completed todo) (PartialTodo.completed updates);
     Todo.priority := spread (Todo.priority todo) (PartialTodo.priority updates);
     Todo.dueDate := spread (Todo.dueDate todo) (PartialTodo.dueDate updates);
     Todo.category := spread (Todo.category todo) (PartialTodo.category updates);
     Todo.tags := spread (Todo.tags todo) (PartialTodo.tags updates);
     Todo.createdAt :=
       spread (Todo.createdAt todo) (PartialTodo.createdAt updates);
     Todo.updatedAt :=
       spread (Todo.updatedAt todo) (PartialTodo.updatedAt updates) |}.

(** [{ ...todo, updatedAt: now }] *)
Definition with_updatedAt (todo : Todo.t) (now : string) : Todo.t :=
  {| Todo.id := Todo.id todo;
     Todo.title := Todo.title todo;
     Todo.description := Todo.description todo;
     Todo.completed := Todo.completed todo;
     Todo.priority := Todo.priority todo;
     Todo.dueDate := Todo.dueDate todo;
     Todo.category := Todo.category todo;
     Todo.tags := Todo.tags todo;
     Todo.createdAt := Todo.createdAt todo;
     Todo.updatedAt := now |}.

(** [{ ...todo, completed: !todo.completed }] *)
Definition with_completed (todo : Todo.t) (c : bool) : Todo.t :=
  {| Todo.id := Todo.id todo;
     Todo.title := Todo.title todo;
     Todo.description := Todo.description todo;
     Todo.completed := c;
     Todo.priority := Todo.priority todo;
     Todo.dueDate := Todo.dueDate todo;
     Todo.category := Todo.category todo;
     Todo.tags := Todo.tags todo;
     Todo.createdAt := Todo.createdAt todo;
     Todo.updatedAt := Todo.updatedAt todo |}.

(** [{ ...state.filter, ...payload }] *)
Definition spread_filter (f : TodoFilter.t) (p : PartialFilter.t)
  : TodoFilter.t :=
  {| TodoFilter.searchText :=
       spread (TodoFilter.searchText f) (PartialFilter.searchText p);
     TodoFilter.category :=
       spread (TodoFilter.category f) (PartialFilter.category p);
     TodoFilter.priority :=
       spread (TodoFilter.priority f) (PartialFilter.priority p);
     TodoFilter.showCompleted :=
       spread (TodoFilter.showCompleted f) (PartialFilter.showCompleted p);
     TodoFilter.sortBy := spread (TodoFilter.sortBy f) (PartialFilter.sortBy p) |}.

(** ** The wall clock *)

Definition Clock : Type := nat -> string.

(** A computation that may read the clock: from the number of reads made
    so far to a result and the number of reads made afterwards. *)
Definition Eff (A : Type) : Type := nat -> A * nat.

Definition ret {A : Type} (a : A) : Eff A := fun k => (a, k).

Definition bind {A B : Type} (m : Eff A) (f : A -> Eff B) : Eff B :=
  fun k => let (a, k') := m k in f a k'.

Notation "x <- m ;; f" := (bind m (fun x => f))
  (at level 61, m at next level, right associativity).

(** [new Date().toISOString()] *)
Definition Date_now_toISOString (clock : Clock) : Eff string :=
  fun k => (clock k, S k).

(** [Array.prototype.map] with a callback that may read the clock; the
    callback runs on the elements from left to right. *)
Fixpoint Array_map {A B : Type} (f : A -> Eff B) (l : list A)
  : Eff (list B) :=
  match l with
  | [] => ret []
  | x :: l' =>
      y <- f x ;;
      ys <- Array_map f l' ;;
      ret (y :: ys)
  end.

(** ** State store (context/TodoReducer.ts) *)

(** The actions.  The payloads that are objects of the state tree (a
    todo, a category, a whole state) are parameters of the type: the
    reducer on values takes them as values ([TodoAction]), the reducer on
    the object heap takes them as references. *)
Inductive Action (T C S : Type) : Type :=
| ADD_TODO (payload : T)
| UPDATE_TODO (id : string) (updates : PartialTodo.t)
| DELETE_TODO (payload : string)
| TOGGLE_TODO (payload : string)
| ADD_CATEGORY (payload : C)
| DELETE_CATEGORY (payload : string)
| SET_FILTER (payload : PartialFilter.t)
| LOAD_STATE (payload : S)
| UNKNOWN_ACTION (type : string).
Arguments ADD_TODO {T C S} payload.
Arguments UPDATE_TODO {T C S} id updates.
Arguments DELETE_TODO {T C S} payload.
Arguments TOGGLE_TODO {T C S} payload.
Arguments ADD_CATEGORY {T C S} payload.
Arguments DELETE_CATEGORY {T C S} payload.
Arguments SET_FILTER {T C S} payload.
Arguments LOAD_STATE {T C S} payload.
Arguments UNKNOWN_ACTION {T C S} type.

Definition TodoAction : Type := Action Todo.t Category.t TodoState.t.

(** The callback of UPDATE_TODO's [map]. *)
Definition update_callback (clock : Clock) (id : string)
    (updates : PartialTodo.t) (todo : Todo.t) : Eff Todo.t :=
  if (Todo.id todo =? id)%string then
    now <- Date_now_toISOString clock ;;
    ret (with_updatedAt (spread_todo todo updates) now)
  else ret todo.

(** The callback of TOGGLE_TODO's [map]. *)
Definition toggle_callback (clock : Clock) (id : string) (todo : Todo.t)
  : Eff Todo.t :=
  if (Todo.id todo =? id)%string then
    now <- Date_now_toISOString clock ;;
    ret (with_updatedAt (with_completed todo (negb (Todo.completed todo))) now)
  else ret todo.

Definition todoReducer (clock : Clock) (state : TodoState.t)
    (action : TodoAction) : Eff TodoState.t :=
  match action with
  | ADD_TODO payload =>
      ret {| TodoState.todos := TodoState.todos state ++ [payload];
             TodoState.categories := TodoState.categories state;
             TodoState.filter := TodoState.filter state |}
  | UPDATE_TODO id updates =>
      updatedTodos <-
        Array_map (update_callback clock id updates) (TodoState.todos state) ;;
      ret {| TodoState.todos := updatedTodos;
             TodoState.categories := TodoState.categories state;
             TodoState.filter := TodoState.filter state |}
  | DELETE_TODO payload =>
      ret {| TodoState.todos :=
               List.filter (fun todo => negb (Todo.id todo =? payload)%string)
                 (TodoState.todos state);
             TodoState.categories := TodoState.categories state;
             TodoState.filter := TodoState.filter state |}
  | TOGGLE_TODO payload =>
      toggledTodos <-
        Array_map (toggle_callback clock payload) (TodoState.todos state) ;;
      ret {| TodoState.todos := toggledTodos;
             TodoState.categories := TodoState.categories state;
             TodoState.filter := TodoState.filter state |}
  | ADD_CATEGORY payload =>
      ret {| TodoState.todos := TodoState.todos state;
             TodoState.categories := TodoState.categories state ++ [payload];
             TodoState.filter := TodoState.filter state |}
  | DELETE_CATEGORY payload =>
      ret {| TodoState.todos := TodoState.todos state;
             TodoState.categories :=
               List.filter (fun cat => negb (Category.id cat =? payload)%string)
                 (TodoState.categories state);
             TodoState.filter := TodoState.filter state |}
  | SET_FILTER payload =>
      ret {| TodoState.todos := TodoState.todos state;
             TodoState.categories := TodoState.categories state;
             TodoState.filter := spread_filter (TodoState.filter state) payload |}
  | LOAD_STATE payload => ret payload
  | UNKNOWN_ACTION _ => ret state
  end.

Definition initialState : TodoState.t :=
  {| TodoState.todos := [];
     TodoState.categories := [];
     TodoState.filter :=
       {| TodoFilter.searchText := "";
          TodoFilter.category := None;
          TodoFilter.priority := None;
          TodoFilter.showCompleted := true;
          TodoFilter.sortBy := SortBy.createdAt |} |}.

(** The state a reducer call returns, and the clock reads it made. *)
Definition reduced (clock : Clock) (state : TodoState.t) (action : TodoAction)
    (k : nat) : TodoState.t :=
  fst (todoReducer clock state action k).

(** How many of [l]'s todos carry the id [i]. *)
Definition matches (i : string) (l : list Todo.t) : nat :=
  List.length (List.filter (fun todo => (Todo.id todo =? i)%string) l).

(** ** JavaScript numbers, strings and arrays used by the derived view *)

(** The value of a comparator: an integer, or [NaN]. *)
Definition num : Type := option Z.

(** [a - b]; [NaN] when an operand is.  The operands are time values
    (integers of magnitude at most 8.64e15) or ranks, so the sign of the
    difference, which is all [sort] looks at, is that of the exact
    difference. *)
Definition num_sub (a b : num) : num :=
  match a, b with
  | Some x, Some y => Some (x - y)%Z
  | _, _ => None
  end.

(** [v > 0]: false for [NaN]. *)
Definition positive (v : num) : bool :=
  match v with
  | Some z => (0 <? z)%Z
  | None => false
  end.

(** Truthiness of a string, and of an optional string. *)
Definition truthy (s : string) : bool := negb (s =? "")%string.

Definition truthy_opt (s : option string) : bool :=
  match s with
  | Some s' => truthy s'
  | None => false
  end.

(** [a === b] on optional strings. *)
Definition strict_eq (a b : option string) : bool :=
  match a, b with
  | Some x, Some y => (x =? y)%string
  | None, None => true
  | _, _ => false
  end.

(** [s.includes(searchString)] *)
Fixpoint includes (s searchString : string) : bool :=
  String.prefix searchString s ||
  match s with
  | EmptyString => false
  | String _ s' => includes s' searchString
  end.

(** ** [Array.prototype.sort(comparefn)]

    ECMAScript fixes the array [sort] returns only for a [comparefn]
    that is a consistent comparison of the elements: the result is then
    the stable sort.  For any other comparator the order is left to the
    engine.  The comparator of the view is not consistent when a date
    does not parse (it answers [NaN]), so [sort] is modelled as the engine
    of Node and Chrome computes it: V8's TimSort
    (third_party/v8/builtins/array-sort.tq). *)

(** [order < 0], the one test V8 makes on the value of the comparator;
    it reads a [NaN] as [+0]. *)
Definition negative (v : num) : bool :=
  match v with
  | Some z => (z <? 0)%Z
  | None => false
  end.

(** The work array is a list; a run [base, base + length) of it is the
    list of its elements, and the stack of pending runs is the list of
    the runs, the run pushed last first.  The loops are recursions on a
    fuel that bounds their turns by the number of elements they still
    have to place; the functions keep the names they have in V8.  A merge
    returns the merged run, where V8 merges in place through a temporary
    copy of the shorter run, together with the new value of
    [sortState.minGallop]. *)
Module TimSort.
Section Sorting.
Local Open Scope nat_scope.
Context {A : Type} (comparefn : A -> A -> num).

(** [sortState.Compare(x, y) < 0] *)
Definition less (x y : A) : bool := negative (comparefn x y).

(** Wins in a row that send a merge into galloping mode. *)
Definition kMinGallopWins : nat := 7.

(** [ComputeMinRunLength]: [n] itself below 64, else the six leading
    bits of [n], plus one if a lower bit is set. *)
Fixpoint min_run_length (fuel n r : nat) : nat :=
  match fuel with
  | 0 => n + r
  | S fuel' =>
      if 64 <=? n
      then min_run_length fuel' (Nat.shiftr n 1) (Nat.lor r (Nat.land n 1))
      else n + r
  end.

Definition ComputeMinRunLength (n : nat) : nat := min_run_length n n 0.

(** [CountAndMakeRun]: the run at the front of [l] is the longest
    non-descending, or strictly descending, start of [l]; a descending
    run is reversed in place.  [run_length] counts the elements after the
    second that go on with the run. *)
Fixpoint run_length (isDescending : bool) (previousElement : A) (l : list A)
    : nat :=
  match l with
  | [] => 0
  | currentElement :: l' =>
      if Bool.eqb (less currentElement previousElement) isDescending
      then S (run_length isDescending currentElement l')
      else 0
  end.

Definition CountAndMakeRun (l : list A) : list A * list A :=
  match l with
  | elementHigh :: elementLow :: l' =>
      let isDescending := less elementLow elementHigh in
      let runLength := 2 + run_length isDescending elementLow l' in
      let run := firstn runLength l in
      (if isDescending then rev run else run, skipn runLength l)
  | _ => (l, [])
  end.

(** [BinaryInsertionSort]: each pending element, the pivot, goes in the
    sorted part in front of the first element it is less than; the
    search halves the interval [left, right). *)
Fixpoint binary_search (fuel : nat) (pivot : A) (l : list A)
    (left right : nat) : nat :=
  match fuel with
  | 0 => left
  | S fuel' =>
      if left <? right then
        let mid := left + Nat.shiftr (right - left) 1 in
        if less pivot (nth mid l pivot)
        then binary_search fuel' pivot l left mid
        else binary_search fuel' pivot l (mid + 1) right
      else left
  end.

Fixpoint BinaryInsertionSort (sorted pending : list A) : list A :=
  match pending with
  | [] => sorted
  | pivot :: pending' =>
      let left :=
        binary_search (List.length sorted) pivot sorted 0
          (List.length sorted) in
      BinaryInsertionSort
        (firstn left sorted ++ pivot :: skipn left sorted) pending'
  end.

(** [GallopLeft] and [GallopRight] look for the place of [key] in a
    sorted run, starting at [hint]: the offset doubles ([2 * ofs + 1])
    while [continue] holds, [bisect] then halves the interval the place
    was found in.  [GallopLeft] returns the index of the first element
    not less than [key], [GallopRight] the index of the first element
    [key] is less than.  Offsets are natural numbers, so the guard of V8
    against the overflow of a doubled offset has nothing to do. *)
Fixpoint gallop (fuel : nat) (continue : nat -> bool)
    (maxOfs lastOfs offset : nat) : nat * nat :=
  match fuel with
  | 0 => (lastOfs, offset)
  | S fuel' =>
      if offset <? maxOfs then
        if continue offset
        then gallop fuel' continue maxOfs offset (2 * offset + 1)
        else (lastOfs, offset)
      else (lastOfs, offset)
  end.

Fixpoint bisect (fuel : nat) (right : nat -> bool) (lastOfs offset : nat)
    : nat :=
  match fuel with
  | 0 => offset
  | S fuel' =>
      if lastOfs <? offset then
        let m := lastOfs + Nat.shiftr (offset - lastOfs) 1 in
        if right m
        then bisect fuel' right (m + 1) offset
        else bisect fuel' right lastOfs m
      else offset
  end.

Definition GallopLeft (l : list A) (key : A) (hint : nat) : nat :=
  let length := List.length l in
  let at_ i := nth i l key in
  let '(lastOfs, offset) :=
    if less (at_ hint) key then
      let maxOfs := length - hint in
      let '(lastOfs, offset) :=
        gallop maxOfs (fun ofs => less (at_ (hint + ofs)) key) maxOfs 0 1 in
      let offset := if maxOfs <? offset then maxOfs else offset in
      (lastOfs + hint + 1, offset + hint)
    else
      let maxOfs := hint + 1 in
      let '(lastOfs, offset) :=
        gallop maxOfs (fun ofs => negb (less (at_ (hint - ofs)) key))
          maxOfs 0 1 in
      let offset := if maxOfs <? offset then maxOfs else offset in
      (hint + 1 - offset, hint - lastOfs) in
  bisect length (fun m => less (at_ m) key) lastOfs offset.

Definition GallopRight (l : list A) (key : A) (hint : nat) : nat :=
  let length := List.length l in
  let at_ i := nth i l key in
  let '(lastOfs, offset) :=
    if less key (at_ hint) then
      let maxOfs := hint + 1 in
      let '(lastOfs, offset) :=
        gallop maxOfs (fun ofs => less key (at_ (hint - ofs))) maxOfs 0 1 in
      let offset := if maxOfs <? offset then maxOfs else offset in
      (hint + 1 - offset, hint - lastOfs)
    else
      let maxOfs := length - hint in
      let '(lastOfs, offset) :=
        gallop maxOfs (fun ofs => negb (less key (at_ (hint + ofs))))
          maxOfs 0 1 in
      let offset := if maxOfs <? offset then maxOfs else offset in
      (lastOfs + hint + 1, offset + hint) in
  bisect length (fun m => negb (less key (at_ m))) lastOfs offset.

(** [MergeLow] and [MergeHigh] take the elements one at a time, counting
    the wins in a row of each run, until one run has won [minGallop]
    times; they then gallop until both runs win fewer than
    [kMinGallopWins] elements in a row. *)
Inductive Mode : Type :=
| one_at_a_time (nofWinsA nofWinsB : nat)
| galloping.

(** A turn of the galloping loop leaves the merge with the rest of the
    merged run, or goes on after having written some elements. *)
Inductive Turn : Type :=
| leave (rest : list A)
| go_on (written a b : list A) (nofWinsA nofWinsB : nat).

(** [chunk] written in front of what the rest of the loop writes. *)
Definition emit (chunk : list A) (r : list A * nat) : list A * nat :=
  (chunk ++ fst r, snd r).

(** The second half of a turn of the galloping loop of [MergeLow]: the
    element [y] of [b] is written, then the elements of [b] that go in
    front of the first of [a], then that element. *)
Definition gallop_low_B (y : A) (a b' : list A) (nofWinsA : nat) : Turn :=
  match b', a with
  | [], _ => leave (y :: a)
  | _, [] => leave (y :: b')
  | _ :: _, x :: a' =>
      let nofWinsB := GallopLeft b' x 0 in
      let wonB := firstn nofWinsB b' in
      let b := skipn nofWinsB b' in
      match b with
      | [] => leave (y :: wonB ++ a)
      | _ :: _ =>
          match a' with
          | [_] => leave (y :: wonB ++ x :: b ++ a')
          | _ => go_on (y :: wonB ++ [x]) a' b nofWinsA nofWinsB
          end
      end
  end.

Definition prepend (chunk : list A) (t : Turn) : Turn :=
  match t with
  | leave rest => leave (chunk ++ rest)
  | go_on written a b nofWinsA nofWinsB =>
      go_on (chunk ++ written) a b nofWinsA nofWinsB
  end.

(** A turn of the galloping loop of [MergeLow]: first the elements of
    [a] that go in front of the first of [b]. *)
Definition gallop_low (a b : list A) : Turn :=
  match b with
  | y :: b' =>
      let nofWinsA := GallopRight a y 0 in
      let wonA := firstn nofWinsA a in
      let a := skipn nofWinsA a in
      match nofWinsA, a with
      | S _, [_] => leave (wonA ++ b ++ a)
      | S _, [] => leave (wonA ++ b)
      | _, _ => prepend wonA (gallop_low_B y a b' nofWinsA)
      end
  | [] => leave a
  end.

(** [MergeLow a b], for a run [a] no longer than [b]: merges [a] with
    the run [b] behind it, writing from the front.  It ends when [b] is used up, or when one
    element of [a] is left, which goes behind the rest of [b]. *)
Fixpoint merge_low (fuel : nat) (mode : Mode) (a b : list A)
    (minGallop : nat) : list A * nat :=
  match fuel, a, b with
  | S fuel', x :: a', y :: b' =>
      match mode with
      | one_at_a_time nofWinsA nofWinsB =>
          if less y x then
            match b' with
            | [] => (y :: a, minGallop)
            | _ :: _ =>
                emit [y]
                  (if minGallop <=? S nofWinsB
                   then merge_low fuel' galloping a b' (S minGallop)
                   else merge_low fuel' (one_at_a_time 0 (S nofWinsB)) a b'
                          minGallop)
            end
          else
            match a' with
            | [_] => (x :: b ++ a', minGallop)
            | _ =>
                emit [x]
                  (if minGallop <=? S nofWinsA
                   then merge_low fuel' galloping a' b (S minGallop)
                   else merge_low fuel' (one_at_a_time (S nofWinsA) 0) a' b
                          minGallop)
            end
      | galloping =>
          let minGallop := Nat.max 1 (minGallop - 1) in
          match gallop_low a b with
          | leave rest => (rest, minGallop)
          | go_on written a b nofWinsA nofWinsB =>
              emit written
                (if (kMinGallopWins <=? nofWinsA) ||
                    (kMinGallopWins <=? nofWinsB)
                 then merge_low fuel' galloping a b minGallop
                 else merge_low fuel' (one_at_a_time 0 0) a b (S minGallop))
          end
      end
  | _, _, _ => (a ++ b, minGallop)
  end.

Definition MergeLow (a b : list A) (minGallop : nat) : list A * nat :=
  match b with
  | y :: b' =>
      match b', a with
      | [], _ => (y :: a, minGallop)
      | _, [_] => (b ++ a, minGallop)
      | _, _ =>
          emit [y]
            (merge_low (List.length a + List.length b') (one_at_a_time 0 0)
               a b' minGallop)
      end
  | [] => (a, minGallop)
  end.

(** [MergeHigh a b], for a run [a] longer than [b]: merges [a] with the
    run [b] behind it, writing from the back.  Its loops are written on the two runs
    read backwards, [ra] and [rb], and give the merged run read
    backwards; the hints of its gallops are the last indices of the
    runs. *)
Definition gallop_high_C (x : A) (ra' rb : list A)
    (nofWinsA nofWinsB : nat) : Turn :=
  match ra' with
  | [] => leave (x :: rb)
  | _ :: _ => go_on [x] ra' rb nofWinsA nofWinsB
  end.

Definition gallop_high_B (y : A) (ra rb' : list A) (nofWinsA : nat) : Turn :=
  match ra with
  | [] => leave (y :: rb')
  | x :: ra' =>
      match rb' with
      | [_] => leave (y :: ra ++ rb')
      | _ =>
          let lengthB := List.length rb' in
          let k := GallopLeft (rev rb') x (lengthB - 1) in
          let nofWinsB := lengthB - k in
          let wonB := firstn nofWinsB rb' in
          let rb := skipn nofWinsB rb' in
          match nofWinsB, rb with
          | S _, [_] => leave (y :: wonB ++ ra ++ rb)
          | S _, [] => leave (y :: wonB ++ ra)
          | _, _ =>
              prepend (y :: wonB)
                (gallop_high_C x ra' rb nofWinsA nofWinsB)
          end
      end
  end.

Definition gallop_high (ra rb : list A) : Turn :=
  match rb with
  | y :: rb' =>
      let lengthA := List.length ra in
      let k := GallopRight (rev ra) y (lengthA - 1) in
      let nofWinsA := lengthA - k in
      let wonA := firstn nofWinsA ra in
      let ra := skipn nofWinsA ra in
      match ra with
      | [] => leave (wonA ++ rb)
      | _ :: _ => prepend wonA (gallop_high_B y ra rb' nofWinsA)
      end
  | [] => leave ra
  end.

Fixpoint merge_high (fuel : nat) (mode : Mode) (ra rb : list A)
    (minGallop : nat) : list A * nat :=
  match fuel, ra, rb with
  | S fuel', x :: ra', y :: rb' =>
      match mode with
      | one_at_a_time nofWinsA nofWinsB =>
          if less y x then
            match ra' with
            | [] => (x :: rb, minGallop)
            | _ :: _ =>
                emit [x]
                  (if minGallop <=? S nofWinsA
                   then merge_high fuel' galloping ra' rb (S minGallop)
                   else merge_high fuel' (one_at_a_time (S nofWinsA) 0) ra' rb
                          minGallop)
            end
          else
            match rb' with
            | [_] => (y :: ra ++ rb', minGallop)
            | _ =>
                emit [y]
                  (if minGallop <=? S nofWinsB
                   then merge_high fuel' galloping ra rb' (S minGallop)
                   else merge_high fuel' (one_at_a_time 0 (S nofWinsB)) ra rb'
                          minGallop)
            end
      | galloping =>
          let minGallop := Nat.max 1 (minGallop - 1) in
          match gallop_high ra rb with
          | leave rest => (rest, minGallop)
          | go_on written ra rb nofWinsA nofWinsB =>
              emit written
                (if (kMinGallopWins <=? nofWinsA) ||
                    (kMinGallopWins <=? nofWinsB)
                 then merge_high fuel' galloping ra rb minGallop
                 else merge_high fuel' (one_at_a_time 0 0) ra rb
                        (S minGallop))
          end
      end
  | _, _, _ => (rb ++ ra, minGallop)
  end.

Definition MergeHigh (a b : list A) (minGallop : nat) : list A * nat :=
  match rev a, rev b with
  | x :: ra', rb =>
      let r :=
        match ra', rb with
        | [], _ => (x :: rb, minGallop)
        | _, [_] => (rev a ++ rb, minGallop)
        | _, _ =>
            emit [x]
              (merge_high (List.length ra' + List.length rb)
                 (one_at_a_time 0 0) ra' rb minGallop)
        end in
      (rev (fst r), snd r)
  | [], _ => (b, minGallop)
  end.

(** [MergeAt]: merges two adjacent pending runs.  The elements of [a]
    that are already in place in front of [b], and the elements of [b]
    already in place behind [a], are left where they are. *)
Definition MergeAt (a b : list A) (minGallop : nat) : list A * nat :=
  match b with
  | keyRight :: _ =>
      let k := GallopRight a keyRight 0 in
      let a' := skipn k a in
      match a' with
      | [] => (a ++ b, minGallop)
      | _ :: _ =>
          let keyLeft := last a' keyRight in
          let lengthB := GallopLeft b keyLeft (List.length b - 1) in
          let b' := firstn lengthB b in
          match lengthB with
          | 0 => (a ++ b, minGallop)
          | S _ =>
              emit (firstn k a)
                (let r :=
                   if List.length a' <=? lengthB
                   then MergeLow a' b' minGallop
                   else MergeHigh a' b' minGallop in
                 (fst r ++ skipn lengthB b, snd r))
          end
      end
  | [] => (a, minGallop)
  end.

(** [MergeCollapse]: merges pending runs until the lengths of the runs
    on the stack grow fast enough again, from the top down.
    [run1] is the run pushed last. *)
Fixpoint MergeCollapse (fuel : nat) (pendingRuns : list (list A))
    (minGallop : nat) : list (list A) * nat :=
  match fuel, pendingRuns with
  | S fuel', run1 :: run0 :: rest =>
      let length1 := List.length run1 in
      let length0 := List.length run0 in
      let broken :=
        match rest with
        | runM :: rest' =>
            (List.length runM <=? length0 + length1) ||
            match rest' with
            | runMM :: _ => List.length runMM <=? List.length runM + length0
            | [] => false
            end
        | [] => false
        end in
      match broken, rest with
      | true, runM :: rest' =>
          if List.length runM <? length1 then
            let r := MergeAt runM run0 minGallop in
            MergeCollapse fuel' (run1 :: fst r :: rest') (snd r)
          else
            let r := MergeAt run0 run1 minGallop in
            MergeCollapse fuel' (fst r :: rest) (snd r)
      | _, _ =>
          if length0 <=? length1 then
            let r := MergeAt run0 run1 minGallop in
            MergeCollapse fuel' (fst r :: rest) (snd r)
          else (pendingRuns, minGallop)
      end
  | _, _ => (pendingRuns, minGallop)
  end.

(** [MergeForceCollapse]: merges all pending runs into one. *)
Fixpoint MergeForceCollapse (fuel : nat) (pendingRuns : list (list A))
    (minGallop : nat) : list (list A) * nat :=
  match fuel, pendingRuns with
  | S fuel', run1 :: run0 :: rest =>
      match rest with
      | runM :: rest' =>
          if List.length runM <? List.length run1 then
            let r := MergeAt runM run0 minGallop in
            MergeForceCollapse fuel' (run1 :: fst r :: rest') (snd r)
          else
            let r := MergeAt run0 run1 minGallop in
            MergeForceCollapse fuel' (fst r :: rest) (snd r)
      | [] =>
          let r := MergeAt run0 run1 minGallop in
          MergeForceCollapse fuel' (fst r :: rest) (snd r)
      end
  | _, _ => (pendingRuns, minGallop)
  end.

(** [ArrayTimSortImpl]: cuts the array into runs from left to right, a
    run shorter than [minRunLength] being extended by binary insertion,
    and merges them. *)
Fixpoint runs_loop (fuel : nat) (minRunLength : nat) (remaining : list A)
    (pendingRuns : list (list A)) (minGallop : nat)
    : list (list A) * nat :=
  match fuel, remaining with
  | S fuel', _ :: _ =>
      let '(run, rest) := CountAndMakeRun remaining in
      let currentRunLength := List.length run in
      let '(run, rest) :=
        if currentRunLength <? minRunLength then
          let forcedRunLength :=
            Nat.min minRunLength (List.length remaining) in
          let extra := forcedRunLength - currentRunLength in
          (BinaryInsertionSort run (firstn extra rest), skipn extra rest)
        else (run, rest) in
      let r :=
        MergeCollapse (S (List.length pendingRuns)) (run :: pendingRuns)
          minGallop in
      runs_loop fuel' minRunLength rest (fst r) (snd r)
  | _, _ => (pendingRuns, minGallop)
  end.

Definition ArrayTimSortImpl (l : list A) : list A :=
  if List.length l <? 2 then l
  else
    let minRunLength := ComputeMinRunLength (List.length l) in
    let r := runs_loop (List.length l) minRunLength l [] kMinGallopWins in
    let r := MergeForceCollapse (List.length (fst r)) (fst r) (snd r) in
    List.concat (rev (fst r)).

End Sorting.
End TimSort.

(** [comparefn] is the callback of the view, a function that returns a
    number and does not throw; the array holds todo objects (no holes, no
    [undefined]). *)
Definition Array_sort {A : Type} (comparefn : A -> A -> num) (l : list A)
  : list A :=
  TimSort.ArrayTimSortImpl comparefn l.

(** The array the language prescribes for a consistent comparator: the
    stable sort, computed by insertion from the right.  Each element goes
    in front of the sorted rest and moves behind the elements it compares
    greater than. *)
Section Sort.
Context {A : Type} (comparefn : A -> A -> num).

Fixpoint insert (x : A) (sorted : list A) : list A :=
  match sorted with
  | [] => [x]
  | y :: rest =>
      if positive (comparefn x y) then y :: insert x rest else x :: sorted
  end.

Fixpoint stable_sort (l : list A) : list A :=
  match l with
  | [] => []
  | x :: l' => insert x (stable_sort l')
  end.

End Sort.

(** *** Notions for the proofs about [sort] *)

Section SortNotions.
Local Open Scope nat_scope.

Section Justified.
Context {A : Type}.

(** Neighbours in [l] are related by [R]. *)
Fixpoint chain (R : A -> A -> Prop) (l : list A) : Prop :=
  match l with
  | x :: l' =>
      match l' with
      | y :: _ => R x y /\ chain R l'
      | [] => True
      end
  | [] => True
  end.

(** The element a merge wrote last, if any: from the first run ([true])
    or from the run behind it ([false]). *)
Definition written : Type := option (bool * A).

(** The element written last once [chunk] is written after [p]. *)
Definition written_after (p : written) (tag : bool) (chunk : list A)
  : written :=
  fold_left (fun _ x => Some (tag, x)) chunk p.

Variable lt : A -> A -> bool.

(** [e] may be written right after [p]: both come from the same run, or
    the two were compared and [lt] put them in this order: an element of
    the second run goes in front of one of the first only if it was found
    less. *)
Definition junction (p : written) (e : bool * A) : Prop :=
  match p with
  | Some (true, x) => if fst e then True else lt (snd e) x = false
  | Some (false, y) => if fst e then lt y (snd e) = true else True
  | None => True
  end.

(** [JM p a b out]: [out] interleaves the runs [a] and [b], each in its
    order, and may be written after [p] with every junction justified. *)
Inductive JM : written -> list A -> list A -> list A -> Prop :=
| JM_nil p : JM p [] [] []
| JM_A p x a b out :
    junction p (true, x) -> JM (Some (true, x)) a b out ->
    JM p (x :: a) b (x :: out)
| JM_B p y a b out :
    junction p (false, y) -> JM (Some (false, y)) a b out ->
    JM p a (y :: b) (y :: out).

Definition first_ok (p : written) (tag : bool) (chunk : list A) : Prop :=
  match chunk with
  | [] => True
  | x :: _ => junction p (tag, x)
  end.

(** [x] and [y] tie; [x] is not behind [y] in a sorted run. *)
Definition tied_by (x y : A) : bool := negb (lt x y) && negb (lt y x).

Definition not_behind (x y : A) : Prop := lt y x = false.

(** What a turn of a loop of [MergeLow] owes: the rest of a justified
    merge, or a justified start and a smaller state of the same kind. *)
Definition turn_ok (d : A) (p : written) (a b sb : list A)
    (t : TimSort.Turn) : Prop :=
  match t with
  | TimSort.leave rest => JM p a (b ++ sb) (rest ++ sb)
  | TimSort.go_on w a1 b1 _ _ =>
      2 <= List.length a1 /\ 1 <= List.length b1 /\
      List.length a1 + List.length b1 < List.length a + List.length b /\
      last a1 d = last a d /\ last b1 d = last b d /\
      exists p',
        first_ok p' true a1 /\ first_ok p' false b1 /\
        forall out',
          JM p' a1 (b1 ++ sb) out' -> JM p a (b ++ sb) (w ++ out')
  end.

(** The same for [MergeHigh], whose loops read the runs backwards: [rb]
    is the run whose elements are tagged [true]. *)
Definition turn_hi (d : A) (p : written) (ra rb sa : list A)
    (t : TimSort.Turn) : Prop :=
  match t with
  | TimSort.leave rest => JM p rb (ra ++ sa) (rest ++ sa)
  | TimSort.go_on w ra1 rb1 _ _ =>
      1 <= List.length ra1 /\ 2 <= List.length rb1 /\
      List.length ra1 + List.length rb1 < List.length ra + List.length rb /\
      last ra1 d = last ra d /\ last rb1 d = last rb d /\
      exists p',
        first_ok p' true rb1 /\ first_ok p' false ra1 /\
        forall out',
          JM p' rb1 (ra1 ++ sa) out' -> JM p rb (ra ++ sa) (w ++ out')
  end.

End Justified.

(** The position both gallops look for: the [k] with [right] true just
    before it and false at it. *)
Definition locate (right : nat -> bool) (n hint : nat) : nat :=
  let '(lastOfs, offset) :=
    if right hint then
      let maxOfs := n - hint in
      let '(lastOfs, offset) :=
        TimSort.gallop maxOfs (fun ofs => right (hint + ofs)) maxOfs 0 1 in
      let offset := if maxOfs <? offset then maxOfs else offset in
      (lastOfs + hint + 1, offset + hint)
    else
      let maxOfs := hint + 1 in
      let '(lastOfs, offset) :=
        TimSort.gallop maxOfs (fun ofs => negb (right (hint - ofs)))
          maxOfs 0 1 in
      let offset := if maxOfs <? offset then maxOfs else offset in
      (hint + 1 - offset, hint - lastOfs) in
  TimSort.bisect n right lastOfs offset.

Section Arrangements.
Context {A : Type} (comparefn : A -> A -> num).

(** The order of [sort] read backwards. *)
Definition backwards (x y : A) : bool := TimSort.less comparefn y x.

(** [out] is a justified merge of the run [a] and the run [b] behind it,
    written from the front or from the back. *)
Definition Merged (a b out : list A) : Prop :=
  JM (TimSort.less comparefn) None a b out \/
  JM backwards None (rev b) (rev a) (rev out).

(** The arrangements of a segment that [sort] can reach: by justified
    merges of arrangements of two adjacent parts. *)
Inductive Arr : list A -> list A -> Prop :=
| Arr_nil : Arr [] []
| Arr_one x : Arr [x] [x]
| Arr_merge sa sb a b out :
    Arr sa a -> Arr sb b -> Merged a b out -> Arr (sa ++ sb) out.

(** The element a run goes on with. *)
Definition goes_on (isDescending : bool) (previous current : A) : Prop :=
  TimSort.less comparefn current previous = isDescending.

(** Two neighbours of an arrangement: the first was found less than the
    second, or the second was not found less than the first. *)
Definition neighbours (x y : A) : Prop :=
  TimSort.less comparefn x y = true \/ TimSort.less comparefn y x = false.

(** The pending runs arrange the segments of the part of the array that
    has been read, the last segment first. *)
Definition Stack (read : list A) (pendingRuns : list (list A)) : Prop :=
  exists segs,
    Forall2 Arr segs pendingRuns /\
    List.concat (rev segs) = read /\
    Forall (fun seg => seg <> []) segs.

End Arrangements.

End SortNotions.

(** ** Derived view (components/TodoList/TodoList.tsx) *)

Definition priorityOrder (p : Priority) : Z :=
  match p with
  | high => 0
  | medium => 1
  | low => 2
  end.

(** What the view sorts by under [sortBy = dueDate]: no due date, or the
    time value of the due date ([NaN] when it does not parse). *)
Inductive DueKey : Type :=
| undated
| due_at (time : num).

Section DerivedView.

(** [String.prototype.toLowerCase] and [new Date(s).getTime()] are
    built-ins of the host; the view is defined for any such pair. *)
Variable toLowerCase : string -> string.
Variable Date_getTime : string -> num.

(** [new Date(d).getTime()] for an optional [d]; [new Date(undefined)] is
    an invalid date. *)
Definition getTime_opt (d : option string) : num :=
  match d with
  | Some s => Date_getTime s
  | None => None
  end.

(** The callback of the search filter:
    [title.toLowerCase().includes(searchLower) ||
     description?.toLowerCase().includes(searchLower)]. *)
Definition search_callback (searchLower : string) (todo : Todo.t) : bool :=
  includes (toLowerCase (Todo.title todo)) searchLower ||
  match Todo.description todo with
  | Some d => includes (toLowerCase d) searchLower
  | None => false
  end.

(** The comparator handed to [sort]. *)
Definition compareTodos (sortBy : SortBy.t) (a b : Todo.t) : num :=
  if negb (Bool.eqb (Todo.completed a) (Todo.completed b)) then
    (if Todo.completed a then Some 1%Z else Some (-1)%Z)
  else
    match sortBy with
    | SortBy.dueDate =>
        if negb (truthy_opt (Todo.dueDate a)) &&
           negb (truthy_opt (Todo.dueDate b)) then Some 0%Z
        else if negb (truthy_opt (Todo.dueDate a)) then Some 1%Z
        else if negb (truthy_opt (Todo.dueDate b)) then Some (-1)%Z
        else num_sub (getTime_opt (Todo.dueDate a))
                     (getTime_opt (Todo.dueDate b))
    | SortBy.priority =>
        Some (priorityOrder (Todo.priority a)
              - priorityOrder (Todo.priority b))%Z
    | SortBy.createdAt =>
        num_sub (Date_getTime (Todo.createdAt b))
                (Date_getTime (Todo.createdAt a))
    end.

(** The four filter stages, in the order of the source. *)
Definition filtered (state : TodoState.t) : list Todo.t :=
  let f := TodoState.filter state in
  let filtered := TodoState.todos state in
  let filtered :=
    if truthy (TodoFilter.searchText f) then
      let searchLower := toLowerCase (TodoFilter.searchText f) in
      List.filter (search_callback searchLower) filtered
    else filtered in
  let filtered :=
    if truthy_opt (TodoFilter.category f) then
      List.filter
        (fun todo => strict_eq (Todo.category todo) (TodoFilter.category f))
        filtered
    else filtered in
  let filtered :=
    match TodoFilter.priority f with
    | Some p =>
        List.filter (fun todo => Priority_eqb (Todo.priority todo) p) filtered
    | None => filtered
    end in
  let filtered :=
    if negb (TodoFilter.showCompleted f) then
      List.filter (fun todo => negb (Todo.completed todo)) filtered
    else filtered in
  filtered.

Definition filteredAndSortedTodos (state : TodoState.t) : list Todo.t :=
  Array_sort (compareTodos (TodoFilter.sortBy (TodoState.filter state)))
    (filtered state).

(** The four stages as one test on a todo. *)
Definition keeps (f : TodoFilter.t) (todo : Todo.t) : bool :=
  (if truthy (TodoFilter.searchText f)
   then search_callback (toLowerCase (TodoFilter.searchText f)) todo
   else true) &&
  (if truthy_opt (TodoFilter.category f)
   then strict_eq (Todo.category todo) (TodoFilter.category f)
   else true) &&
  match TodoFilter.priority f with
  | Some p => Priority_eqb (Todo.priority todo) p
  | None => true
  end &&
  (if negb (TodoFilter.showCompleted f)
   then negb (Todo.completed todo)
   else true).

(** *** The filter, as the specification words it *)

(** [sub] occurs in [s] as a substring. *)
Definition contains (s sub : string) : Prop :=
  exists pre post : string, s = (pre ++ sub ++ post)%string.

(** A filter criterion is set when it is present and, for a text, not
    empty: the filter form stores [undefined] for its "all" choice, and
    the view tests the truthiness of the criterion. *)
Definition satisfies (f : TodoFilter.t) (todo : Todo.t) : Prop :=
  (TodoFilter.searchText f <> "" ->
   contains (toLowerCase (Todo.title todo))
            (toLowerCase (TodoFilter.searchText f)) \/
   exists d, Todo.description todo = Some d /\
             contains (toLowerCase d) (toLowerCase (TodoFilter.searchText f)))
  /\
  (forall c, TodoFilter.category f = Some c -> c <> "" ->
             Todo.category todo = Some c) /\
  (forall p, TodoFilter.priority f = Some p -> Todo.priority todo = p) /\
  (TodoFilter.showCompleted f = false -> Todo.completed todo = false).

(** *** The order, as the specification words it *)

(** [todo] is due on [d]: its due date is there and is the text [d],
    which is not empty. *)
Definition dated (todo : Todo.t) (d : string) : Prop :=
  Todo.dueDate todo = Some d /\ d <> EmptyString.

(** The due date of [todo], if it has one, parses as a date. *)
Definition dueDate_parses (todo : Todo.t) : Prop :=
  forall d, dated todo d -> Date_getTime d <> None.

(** The sort key of a todo under [sortBy = dueDate]. *)
Definition due_key (todo : Todo.t) : DueKey :=
  match Todo.dueDate todo with
  | Some d =>
      if string_dec d EmptyString then undated else due_at (Date_getTime d)
  | None => undated
  end.

(** Two todos of equal key under [sortBy = dueDate]: in the same
    completion partition, and both undated or both due at the same
    time. *)
Definition equal_due_key (a b : Todo.t) : bool :=
  Bool.eqb (Todo.completed a) (Todo.completed b) &&
  match due_key a, due_key b with
  | undated, undated => true
  | due_at (Some x), due_at (Some y) => (x =? y)%Z
  | _, _ => false
  end.

(** The dated todos of a partition come in ascending order of due date,
    before the undated ones: of two todos of one partition, the one
    listed later is dated only if the earlier one is, and is then due no
    earlier. *)
Definition due_ascending (l : list Todo.t) : Prop :=
  forall i j a b db,
    i < j ->
    nth_error l i = Some a ->
    nth_error l j = Some b ->
    Todo.completed a = Todo.completed b ->
    dated b db ->
    exists da ta tb,
      dated a da /\
      Date_getTime da = Some ta /\
      Date_getTime db = Some tb /\
      (ta <= tb)%Z.

(** *** The due date, as the comparator reads it *)

(** A todo has a due date when the property is present and not empty. *)
Definition has_dueDate (todo : Todo.t) : bool :=
  truthy_opt (Todo.dueDate todo).

(** The data model makes a due date a calendar date: one that is there
    has a time value. *)
Definition valid_dueDate (todo : Todo.t) : Prop :=
  has_dueDate todo = true -> getTime_opt (Todo.dueDate todo) <> None.

(** Two todos of equal rank under [sortBy = dueDate]: in the same
    completion partition, and both without a due date or both due at the
    same time. *)
Definition same_due_rank (a b : Todo.t) : bool :=
  Bool.eqb (Todo.completed a) (Todo.completed b) &&
  (if has_dueDate a then
     has_dueDate b &&
     match getTime_opt (Todo.dueDate a), getTime_opt (Todo.dueDate b) with
     | Some x, Some y => (x =? y)%Z
     | _, _ => false
     end
   else negb (has_dueDate b)).

End DerivedView.

(** ** A concrete host, to run the view on concrete states *)

(** [toLowerCase] on the ASCII letters. *)
Definition ascii_lower (c : ascii) : ascii :=
  let n := nat_of_ascii c in
  if ((65 <=? n) && (n <=? 90))%nat then ascii_of_nat (n + 32) else c.

Fixpoint ascii_toLowerCase (s : string) : string :=
  match s with
  | EmptyString => EmptyString
  | String c s' => String (ascii_lower c) (ascii_toLowerCase s')
  end.

Definition digit (c : ascii) : option Z :=
  let n := nat_of_ascii c in
  if ((48 <=? n) && (n <=? 57))%nat then Some (Z.of_nat (n - 48)) else None.

Fixpoint read_digits (n : nat) (acc : Z) (s : string) : option (Z * string) :=
  match n with
  | O => Some (acc, s)
  | S n' =>
      match s with
      | String c s' =>
          match digit c with
          | Some d => read_digits n' (10 * acc + d)%Z s'
          | None => None
          end
      | EmptyString => None
      end
  end.

Definition expect (c : ascii) (s : string) : option string :=
  match s with
  | String c' s' => if Ascii.eqb c c' then Some s' else None
  | EmptyString => None
  end.

(** Days from 1970-01-01 to the given day of the proleptic Gregorian
    calendar. *)
Definition days_from_civil (y m d : Z) : Z :=
  let y' := if (m <=? 2)%Z then (y - 1)%Z else y in
  let era := (y' / 400)%Z in
  let yoe := (y' - era * 400)%Z in
  let mp := ((m + 9) mod 12)%Z in
  let doy := ((153 * mp + 2) / 5 + d - 1)%Z in
  let doe := (yoe * 365 + yoe / 4 - yoe / 100 + doy)%Z in
  (era * 146097 + doe - 719468)%Z.

Definition in_range (lo hi v : Z) : bool := ((lo <=? v) && (v <=? hi))%Z.

(** The time value of the two ISO 8601 shapes the application writes:
    [YYYY-MM-DD] (a due date, midnight UTC) and
    [YYYY-MM-DDTHH:mm:ss.sssZ] (the output of [toISOString]); [NaN] for
    any other text. *)
Definition iso_getTime (s : string) : num :=
  match read_digits 4 0 s with
  | None => None
  | Some (y, s) =>
  match expect "-" s with
  | None => None
  | Some s =>
  match read_digits 2 0 s with
  | None => None
  | Some (m, s) =>
  match expect "-" s with
  | None => None
  | Some s =>
  match read_digits 2 0 s with
  | None => None
  | Some (d, s) =>
      if negb (in_range 1 12 m && in_range 1 31 d) then None else
      let day := (days_from_civil y m d * 86400000)%Z in
      match s with
      | EmptyString => Some day
      | _ =>
      match expect "T" s with
      | None => None
      | Some s =>
      match read_digits 2 0 s with
      | None => None
      | Some (hh, s) =>
      match expect ":" s with
      | None => None
      | Some s =>
      match read_digits 2 0 s with
      | None => None
      | Some (mi, s) =>
      match expect ":" s with
      | None => None
      | Some s =>
      match read_digits 2 0 s with
      | None => None
      | Some (ss, s) =>
      match expect "." s with
      | None => None
      | Some s =>
      match read_digits 3 0 s with
      | None => None
      | Some (ms, s) =>
          if (s =? "Z")%string &&
             in_range 0 23 hh && in_range 0 59 mi && in_range 0 59 ss
          then Some (day + hh * 3600000 + mi * 60000 + ss * 1000 + ms)%Z
          else None
      end end end end end end end end
      end
  end end end end end.

(** The view on the concrete host. *)
Definition view : TodoState.t -> list Todo.t :=
  filteredAndSortedTodos ascii_toLowerCase iso_getTime.


(** ** Application facade (context/TodoContext.tsx, [TodoProvider]) *)

Module TodoProvider.

(** What one render of the provider sees: the value of [useReducer]'s
    state and of [useState]'s [isInitialized]. *)
Record Render : Type := mkRender {
  state : TodoState.t;
  isInitialized : bool
}.

(** The calls into the persistence adapter. *)
Inductive StorageCall : Type :=
| loadFromLocalStorage
| saveToLocalStorage (s : TodoState.t).

(** A commit: a render and the adapter calls its effects made, in order. *)
Record Commit : Type := mkCommit {
  render : Render;
  calls : list StorageCall
}.

(** The functions the provider exposes to its callers. *)
Inductive Call : Type :=
| addTodo (todo : Todo.t)
| updateTodo (id : string) (updates : PartialTodo.t)
| deleteTodo (id : string)
| toggleTodo (id : string)
| addCategory (category : Category.t)
| deleteCategory (id : string)
| setFilter (filter : PartialFilter.t).

(** The action each of them dispatches. *)
Definition dispatched (c : Call) : TodoAction :=
  match c with
  | addTodo todo => ADD_TODO todo
  | updateTodo id updates => UPDATE_TODO id updates
  | deleteTodo id => DELETE_TODO id
  | toggleTodo id => TOGGLE_TODO id
  | addCategory category => ADD_CATEGORY category
  | deleteCategory id => DELETE_CATEGORY id
  | setFilter filter => SET_FILTER filter
  end.

(** The first effect (dependencies [[]], so it runs after the first
    commit only): the adapter call it makes, and the updates it queues,
    given what [loadFromLocalStorage()] returned. *)
Definition load_effect (savedState : option TodoState.t)
  : list StorageCall * list TodoAction * bool :=
  ([loadFromLocalStorage],
   match savedState with
   | Some s => [LOAD_STATE s]
   | None => []
   end,
   true).

(** The second effect (dependencies [[state, isInitialized]]), with the
    values of the render it closes over. *)
Definition save_effect (r : Render) : list StorageCall :=
  if isInitialized r then [saveToLocalStorage (state r)] else [].

(** [useReducer] applying the queued actions in order. *)
Fixpoint apply_queued (clock : Clock) (s : TodoState.t)
    (queue : list TodoAction) : Eff TodoState.t :=
  match queue with
  | [] => ret s
  | a :: queue' =>
      s' <- todoReducer clock s a ;;
      apply_queued clock s' queue'
  end.

(** The commits that follow the calls of the user, one per call: each
    dispatches one action, whose new state object makes the second effect
    run again. *)
Fixpoint after_calls (clock : Clock) (r : Render) (cs : list Call)
  : Eff (list Commit) :=
  match cs with
  | [] => ret []
  | c :: cs' =>
      s' <- todoReducer clock (state r) (dispatched c) ;;
      let r' := mkRender s' (isInitialized r) in
      rest <- after_calls clock r' cs' ;;
      ret (mkCommit r' (save_effect r') :: rest)
  end.

(** The life of a mounted provider: the first commit with both effects,
    the commit of the updates the first effect queued, and the commits of
    the user's calls. *)
Definition run (clock : Clock) (savedState : option TodoState.t)
    (cs : list Call) : Eff (list Commit) :=
  let r0 := mkRender initialState false in
  let '(loads, queue, initialized) := load_effect savedState in
  let c0 := mkCommit r0 (loads ++ save_effect r0) in
  s1 <- apply_queued clock (state r0) queue ;;
  let r1 := mkRender s1 initialized in
  rest <- after_calls clock r1 cs ;;
  ret (c0 :: mkCommit r1 (save_effect r1) :: rest).

(** All adapter calls of a run, in order. *)
Definition trace (commits : list Commit) : list StorageCall :=
  List.concat (List.map calls commits).

End TodoProvider.

(** ** Persistence adapter (utils/localStorage.ts) *)

Module LocalStorage.

(** How a JavaScript call completes. *)
Inductive Completion (A : Type) : Type :=
| Normal (value : A)
| Throw (error : string).
Arguments Normal {A} value.
Arguments Throw {A} error.

(** A completion together with the lines written by [console.error]. *)
Definition Run (A : Type) : Type := Completion A * list string.

(** [try { body } catch (error) { handler }] *)
Definition try_catch {A : Type} (body : Run A) (handler : string -> Run A)
  : Run A :=
  match body with
  | (Normal v, log) => (Normal v, log)
  | (Throw e, log) => let (c, log') := handler e in (c, log ++ log')
  end.

Definition console_error {A : Type} (message : string) (k : Completion A)
  : Run A := (k, [message]).

Definition STORAGE_KEY : string := "todo-app-state".

Section Adapter.

(** The values [JSON.parse] produces, and [JSON.parse] itself. *)
Variable Value : Type.
Variable JSON_parse : string -> Completion Value.

(** Modelled from the spec: utils/localStorage.ts is not among the
    sources (its test file is).  Load reads the named slot; an absent slot
    is "no value"; text that fails to parse, or a read that raises, is
    caught, logged, and answered with "no value". *)
Definition loadFromLocalStorage
    (getItem : string -> Completion (option string))
  : Run (option Value) :=
  try_catch
    (match getItem STORAGE_KEY with
     | Throw e => (Throw e, [])
     | Normal None => (Normal None, [])
     | Normal (Some serialized) =>
         match JSON_parse serialized with
         | Throw e => (Throw e, [])
         | Normal v => (Normal (Some v), [])
         end
     end)
    (fun error => console_error error (Normal None)).

End Adapter.

End LocalStorage.

(** ** A concrete host for the adapter: [JSON.parse] and a storage *)

Module JSON.

(** The syntax tree of a JSON text; numbers and strings keep their
    lexemes. *)
#[local] Set Warnings "-register-all".
Inductive value : Type :=
| JNull
| JBool (b : bool)
| JNumber (lexeme : string)
| JString (raw : string)
| JArray (items : list value)
| JObject (members : list (string * value)).

Definition quote : ascii := "034"%char.
Definition backslash : ascii := "092"%char.

Definition between (lo hi : nat) (c : ascii) : bool :=
  let n := nat_of_ascii c in ((lo <=? n) && (n <=? hi))%nat.

Definition is_ws (c : ascii) : bool :=
  let n := nat_of_ascii c in
  ((n =? 32) || (n =? 9) || (n =? 10) || (n =? 13))%nat.

Definition is_digit (c : ascii) : bool := between 48 57 c.

Definition is_hex (c : ascii) : bool :=
  is_digit c || between 65 70 c || between 97 102 c.

(** The characters that may follow a backslash, [u] apart. *)
Definition is_escape (c : ascii) : bool :=
  List.existsb (Ascii.eqb c)
    [quote; backslash; "/"; "b"; "f"; "n"; "r"; "t"]%char.

Fixpoint skip_ws (s : string) : string :=
  match s with
  | String c s' => if is_ws c then skip_ws s' else s
  | EmptyString => s
  end.

(** [text] without the literal [lit] in front of it. *)
Fixpoint literal (lit text : string) : option string :=
  match lit with
  | EmptyString => Some text
  | String c lit' =>
      match text with
      | String d text' => if Ascii.eqb c d then literal lit' text' else None
      | EmptyString => None
      end
  end.

(** The digits in front of [s], and what follows them. *)
Fixpoint digits (s : string) : string * string :=
  match s with
  | String c s' =>
      if is_digit c then let (d, r) := digits s' in (String c d, r)
      else (EmptyString, s)
  | EmptyString => (EmptyString, s)
  end.

Definition cons_lexeme (c : ascii) (r : option (string * string))
  : option (string * string) :=
  match r with
  | Some (lexeme, rest) => Some (String c lexeme, rest)
  | None => None
  end.

(** The characters of a string up to its closing quote, and what
    follows; [hex] counts the hexadecimal digits still owed to a [\u]. *)
Fixpoint string_body (hex : nat) (s : string) : option (string * string) :=
  match s with
  | EmptyString => None
  | String c s' =>
      match hex with
      | S hex' =>
          if is_hex c then cons_lexeme c (string_body hex' s') else None
      | O =>
          if Ascii.eqb c quote then Some (EmptyString, s')
          else if Ascii.eqb c backslash then
            match s' with
            | String e s'' =>
                if Ascii.eqb e "u" then
                  cons_lexeme c (cons_lexeme e (string_body 4 s''))
                else if is_escape e then
                  cons_lexeme c (cons_lexeme e (string_body 0 s''))
                else None
            | EmptyString => None
            end
          else if (nat_of_ascii c <? 32)%nat then None
          else cons_lexeme c (string_body 0 s')
      end
  end.

(** An optional fraction or exponent: the digits after its mark. *)
Definition digits1 (mark : string) (s : string) : option (string * string) :=
  let (d, r) := digits s in
  match d with
  | EmptyString => None
  | _ => Some ((mark ++ d)%string, r)
  end.

Definition number (s : string) : option (string * string) :=
  let (sign, s1) :=
    match s with
    | String c s' => if Ascii.eqb c "-" then ("-", s') else (EmptyString, s)
    | EmptyString => (EmptyString, s)
    end in
  match s1 with
  | EmptyString => None
  | String c s2 =>
      if negb (is_digit c) then None else
      let (int, s3) :=
        if Ascii.eqb c "0" then ("0", s2)
        else let (d, r) := digits s2 in (String c d, r) in
      let fraction :=
        match s3 with
        | String p s4 =>
            if Ascii.eqb p "." then digits1 "." s4 else Some (EmptyString, s3)
        | EmptyString => Some (EmptyString, s3)
        end in
      match fraction with
      | None => None
      | Some (frac, s5) =>
          let exponent :=
            match s5 with
            | String e s6 =>
                if Ascii.eqb e "e" || Ascii.eqb e "E" then
                  match s6 with
                  | String g s7 =>
                      if Ascii.eqb g "+" || Ascii.eqb g "-"
                      then digits1 (String e (String g EmptyString)) s7
                      else digits1 (String e EmptyString) s6
                  | EmptyString => None
                  end
                else Some (EmptyString, s5)
            | EmptyString => Some (EmptyString, s5)
            end in
          match exponent with
          | None => None
          | Some (ex, s8) => Some ((sign ++ int ++ frac ++ ex)%string, s8)
          end
      end
  end.

(** A value in front of [s], and what follows it.  [fuel] bounds the
    number of nested calls, which the length of [s] bounds. *)
Fixpoint element (fuel : nat) (s : string) : option (value * string) :=
  match fuel with
  | O => None
  | S fuel' =>
      match skip_ws s with
      | EmptyString => None
      | String c rest =>
          if Ascii.eqb c "n" then
            option_map (pair JNull) (literal "ull" rest)
          else if Ascii.eqb c "t" then
            option_map (pair (JBool true)) (literal "rue" rest)
          else if Ascii.eqb c "f" then
            option_map (pair (JBool false)) (literal "alse" rest)
          else if Ascii.eqb c quote then
            match string_body 0 rest with
            | Some (raw, r) => Some (JString raw, r)
            | None => None
            end
          else if Ascii.eqb c "[" then
            match literal "]" (skip_ws rest) with
            | Some r => Some (JArray [], r)
            | None =>
                match elements fuel' rest with
                | Some (vs, r) => Some (JArray vs, r)
                | None => None
                end
            end
          else if Ascii.eqb c "{" then
            match literal "}" (skip_ws rest) with
            | Some r => Some (JObject [], r)
            | None =>
                match members fuel' rest with
                | Some (ms, r) => Some (JObject ms, r)
                | None => None
                end
            end
          else
            match number (String c rest) with
            | Some (lexeme, r) => Some (JNumber lexeme, r)
            | None => None
            end
      end
  end

with elements (fuel : nat) (s : string) : option (list value * string) :=
  match fuel with
  | O => None
  | S fuel' =>
      match element fuel' s with
      | None => None
      | Some (v, r) =>
          match skip_ws r with
          | String c r' =>
              if Ascii.eqb c "," then
                match elements fuel' r' with
                | Some (vs, r'') => Some (v :: vs, r'')
                | None => None
                end
              else if Ascii.eqb c "]" then Some ([v], r')
              else None
          | EmptyString => None
          end
      end
  end

with members (fuel : nat) (s : string)
  : option (list (string * value) * string) :=
  match fuel with
  | O => None
  | S fuel' =>
      match literal (String quote EmptyString) (skip_ws s) with
      | None => None
      | Some r0 =>
          match string_body 0 r0 with
          | None => None
          | Some (key, r1) =>
              match literal ":" (skip_ws r1) with
              | None => None
              | Some r2 =>
                  match element fuel' r2 with
                  | None => None
                  | Some (v, r3) =>
                      match skip_ws r3 with
                      | String c r4 =>
                          if Ascii.eqb c "," then
                            match members fuel' r4 with
                            | Some (ms, r5) => Some ((key, v) :: ms, r5)
                            | None => None
                            end
                          else if Ascii.eqb c "}" then Some ([(key, v)], r4)
                          else None
                      | EmptyString => None
                      end
                  end
              end
          end
      end
  end.

(** [JSON.parse(text)] *)
Definition parse (text : string) : LocalStorage.Completion value :=
  match element (2 * String.length text + 2) text with
  | Some (v, rest) =>
      match skip_ws rest with
      | EmptyString => LocalStorage.Normal v
      | _ => LocalStorage.Throw "SyntaxError"
      end
  | None => LocalStorage.Throw "SyntaxError"
  end.

End JSON.

(** A storage whose slot holds [text], and one whose reads raise. *)
Definition storage_holding (text : option string)
  : string -> LocalStorage.Completion (option string) :=
  fun key =>
    if (key =? LocalStorage.STORAGE_KEY)%string
    then LocalStorage.Normal text
    else LocalStorage.Normal None.

Definition failing_storage
  : string -> LocalStorage.Completion (option string) :=
  fun _ => LocalStorage.Throw "Storage error".

(** Load on the concrete host. *)
Definition load (getItem : string -> LocalStorage.Completion (option string))
  : LocalStorage.Run (option JSON.value) :=
  LocalStorage.loadFromLocalStorage JSON.value JSON.parse getItem.

(** ** The reducer on the object heap

    The reducer of the source works on JavaScript objects: the state, its
    arrays and its todos are references into a heap, and a spread or an
    array method builds a new object.  This section gives the reducer at
    that level, to state what it does to the objects it was handed. *)

Module Heap.

Definition ref : Type := nat.

(** The objects of a state tree.  The tags of a todo are carried inside
    the todo: the reducer copies the reference to them and never looks
    inside. *)
Inductive object : Type :=
| TodoObject (todo : Todo.t)
| CategoryObject (category : Category.t)
| FilterObject (filter : TodoFilter.t)
| ArrayObject (elements : list ref)
| StateObject (todos categories filter : ref).

Definition heap : Type := list object.

(** A computation on the heap that may read the clock; [None] when it
    follows a reference to an object of the wrong kind. *)
Definition M (A : Type) : Type := heap -> nat -> option (A * heap * nat).

Definition ret {A : Type} (a : A) : M A := fun h k => Some (a, h, k).

Definition bind {A B : Type} (m : M A) (f : A -> M B) : M B :=
  fun h k =>
    match m h k with
    | Some (a, h', k') => f a h' k'
    | None => None
    end.

Definition fail {A : Type} : M A := fun _ _ => None.

Notation "x <~ m ;; f" := (bind m (fun x => f))
  (at level 61, m at next level, right associativity).
Notation "' pat <~ m ;; f" :=
  (bind m (fun x => match x with pat => f end))
  (at level 61, pat pattern, m at next level, right associativity).

(** An object literal, a spread, or an array method's result: a new
    object, at a reference that was not in use. *)
Definition alloc (o : object) : M ref :=
  fun h k => Some (List.length h, h ++ [o], k).

Definition get (r : ref) : M object :=
  fun h k =>
    match nth_error h r with
    | Some o => Some (o, h, k)
    | None => None
    end.

Definition Date_now_toISOString (clock : Clock) : M string :=
  fun h k => Some (clock k, h, S k).

Definition get_todo (r : ref) : M Todo.t :=
  o <~ get r ;;
  match o with TodoObject todo => ret todo | _ => fail end.

Definition get_category (r : ref) : M Category.t :=
  o <~ get r ;;
  match o with CategoryObject c => ret c | _ => fail end.

Definition get_filter (r : ref) : M TodoFilter.t :=
  o <~ get r ;;
  match o with FilterObject f => ret f | _ => fail end.

Definition get_array (r : ref) : M (list ref) :=
  o <~ get r ;;
  match o with ArrayObject l => ret l | _ => fail end.

Definition get_state (r : ref) : M (ref * ref * ref) :=
  o <~ get r ;;
  match o with StateObject t c f => ret (t, c, f) | _ => fail end.

(** The elements of the result of [map] and of [filter]. *)
Fixpoint Array_map (f : ref -> M ref) (l : list ref) : M (list ref) :=
  match l with
  | [] => ret []
  | x :: l' =>
      y <~ f x ;;
      ys <~ Array_map f l' ;;
      ret (y :: ys)
  end.

Fixpoint Array_filter (f : ref -> M bool) (l : list ref) : M (list ref) :=
  match l with
  | [] => ret []
  | x :: l' =>
      keep <~ f x ;;
      ys <~ Array_filter f l' ;;
      ret (if keep then x :: ys else ys)
  end.

Definition update_callback (clock : Clock) (id : string)
    (updates : PartialTodo.t) (r : ref) : M ref :=
  todo <~ get_todo r ;;
  if (Todo.id todo =? id)%string then
    now <~ Date_now_toISOString clock ;;
    alloc (TodoObject (with_updatedAt (spread_todo todo updates) now))
  else ret r.

Definition toggle_callback (clock : Clock) (id : string) (r : ref) : M ref :=
  todo <~ get_todo r ;;
  if (Todo.id todo =? id)%string then
    now <~ Date_now_toISOString clock ;;
    alloc (TodoObject
             (with_updatedAt
                (with_completed todo (negb (Todo.completed todo))) now))
  else ret r.

Definition todoReducer (clock : Clock) (state : ref)
    (action : Action ref ref ref) : M ref :=
  match action with
  | ADD_TODO payload =>
      '(todos, categories, filter) <~ get_state state ;;
      elements <~ get_array todos ;;
      todos' <~ alloc (ArrayObject (elements ++ [payload])) ;;
      alloc (StateObject todos' categories filter)
  | UPDATE_TODO id updates =>
      '(todos, categories, filter) <~ get_state state ;;
      elements <~ get_array todos ;;
      updated <~ Array_map (update_callback clock id updates) elements ;;
      updatedTodos <~ alloc (ArrayObject updated) ;;
      alloc (StateObject updatedTodos categories filter)
  | DELETE_TODO payload =>
      '(todos, categories, filter) <~ get_state state ;;
      elements <~ get_array todos ;;
      kept <~ Array_filter
                (fun r => todo <~ get_todo r ;;
                          ret (negb (Todo.id todo =? payload)%string))
                elements ;;
      todos' <~ alloc (ArrayObject kept) ;;
      alloc (StateObject todos' categories filter)
  | TOGGLE_TODO payload =>
      '(todos, categories, filter) <~ get_state state ;;
      elements <~ get_array todos ;;
      toggled <~ Array_map (toggle_callback clock payload) elements ;;
      toggledTodos <~ alloc (ArrayObject toggled) ;;
      alloc (StateObject toggledTodos categories filter)
  | ADD_CATEGORY payload =>
      '(todos, categories, filter) <~ get_state state ;;
      elements <~ get_array categories ;;
      categories' <~ alloc (ArrayObject (elements ++ [payload])) ;;
      alloc (StateObject todos categories' filter)
  | DELETE_CATEGORY payload =>
      '(todos, categories, filter) <~ get_state state ;;
      elements <~ get_array categories ;;
      kept <~ Array_filter
                (fun r => cat <~ get_category r ;;
                          ret (negb (Category.id cat =? payload)%string))
                elements ;;
      categories' <~ alloc (ArrayObject kept) ;;
      alloc (StateObject todos categories' filter)
  | SET_FILTER payload =>
      '(todos, categories, filter) <~ get_state state ;;
      f <~ get_filter filter ;;
      filter' <~ alloc (FilterObject (spread_filter f payload)) ;;
      alloc (StateObject todos categories filter')
  | LOAD_STATE payload => ret payload
  | UNKNOWN_ACTION _ => ret state
  end.

(** *** The value a reference stands for *)

Definition read_todo (h : heap) (r : ref) : option Todo.t :=
  match nth_error h r with
  | Some (TodoObject todo) => Some todo
  | _ => None
  end.

Definition read_category (h : heap) (r : ref) : option Category.t :=
  match nth_error h r with
  | Some (CategoryObject c) => Some c
  | _ => None
  end.

Definition read_filter (h : heap) (r : ref) : option TodoFilter.t :=
  match nth_error h r with
  | Some (FilterObject f) => Some f
  | _ => None
  end.

Fixpoint read_all {A : Type} (read : ref -> option A) (l : list ref)
  : option (list A) :=
  match l with
  | [] => Some []
  | r :: l' =>
      match read r, read_all read l' with
      | Some a, Some rest => Some (a :: rest)
      | _, _ => None
      end
  end.

Definition read_array {A : Type} (read : ref -> option A) (h : heap)
    (r : ref) : option (list A) :=
  match nth_error h r with
  | Some (ArrayObject l) => read_all read l
  | _ => None
  end.

Definition read_state (h : heap) (r : ref) : option TodoState.t :=
  match nth_error h r with
  | Some (StateObject t c f) =>
      match read_array (read_todo h) h t,
            read_array (read_category h) h c,
            read_filter h f with
      | Some todos, Some categories, Some filter =>
          Some (TodoState.mk todos categories filter)
      | _, _, _ => None
      end
  | _ => None
  end.

Definition read_action (h : heap) (a : Action ref ref ref)
  : option TodoAction :=
  match a with
  | ADD_TODO payload => option_map ADD_TODO (read_todo h payload)
  | UPDATE_TODO id updates => Some (UPDATE_TODO id updates)
  | DELETE_TODO payload => Some (DELETE_TODO payload)
  | TOGGLE_TODO payload => Some (TOGGLE_TODO payload)
  | ADD_CATEGORY payload => option_map ADD_CATEGORY (read_category h payload)
  | DELETE_CATEGORY payload => Some (DELETE_CATEGORY payload)
  | SET_FILTER payload => Some (SET_FILTER payload)
  | LOAD_STATE payload => option_map LOAD_STATE (read_state h payload)
  | UNKNOWN_ACTION type => Some (UNKNOWN_ACTION type)
  end.

End Heap.

(** ** Concrete states, from the test suites *)

(** The clock of the reducer tests, frozen by the fake timers. *)
Definition frozen_clock : Clock := fun _ => "2025-01-15T12:00:00.000Z".

(** A running clock: one second later at each read. *)
Definition running_clock : Clock :=
  fun n =>
    ("2025-01-15T12:00:0"
       ++ String (ascii_of_nat (48 + n mod 10)) ".000Z")%string.

Definition mockTodo : Todo.t :=
  {| Todo.id := "1";
     Todo.title := "Test Todo";
     Todo.description := Some "Test Description";
     Todo.completed := false;
     Todo.priority := medium;
     Todo.dueDate := Some "2025-12-31";
     Todo.category := Some "Work";
     Todo.tags := ["test"];
     Todo.createdAt := "2025-01-01T00:00:00.000Z";
     Todo.updatedAt := "2025-01-01T00:00:00.000Z" |}.

Definition with_todos (todos : list Todo.t) : TodoState.t :=
  {| TodoState.todos := todos;
     TodoState.categories := TodoState.categories initialState;
     TodoState.filter := TodoState.filter initialState |}.

(** A payload that carries an [id] and a [createdAt]. *)
Definition overwriting_updates : PartialTodo.t :=
  {| PartialTodo.id := Some "2";
     PartialTodo.title := None;
     PartialTodo.description := None;
     PartialTodo.completed := None;
     PartialTodo.priority := None;
     PartialTodo.dueDate := None;
     PartialTodo.category := None;
     PartialTodo.tags := None;
     PartialTodo.createdAt := Some "1999-12-31T00:00:00.000Z";
     PartialTodo.updatedAt := None |}.

(** A payload that carries a title and an [updatedAt] of its own. *)
Definition retitling_updates : PartialTodo.t :=
  {| PartialTodo.id := None;
     PartialTodo.title := Some "Updated Title";
     PartialTodo.description := None;
     PartialTodo.completed := None;
     PartialTodo.priority := None;
     PartialTodo.dueDate := None;
     PartialTodo.category := None;
     PartialTodo.tags := None;
     PartialTodo.createdAt := None;
     PartialTodo.updatedAt := Some "1999-12-31T00:00:00.000Z" |}.

(** The three todos of the list tests. *)
Definition mockTodos : list Todo.t :=
  [ {| Todo.id := "1";
       Todo.title := "High Priority Todo";
       Todo.description := Some "Important task";
       Todo.completed := false;
       Todo.priority := high;
       Todo.dueDate := Some "2025-12-31";
       Todo.category := Some "Work";
       Todo.tags := ["urgent"];
       Todo.createdAt := "2025-01-01T00:00:00.000Z";
       Todo.updatedAt := "2025-01-01T00:00:00.000Z" |};
    {| Todo.id := "2";
       Todo.title := "Medium Priority Todo";
       Todo.description := Some "Normal task";
       Todo.completed := false;
       Todo.priority := medium;
       Todo.dueDate := Some "2025-12-30";
       Todo.category := Some "Personal";
       Todo.tags := ["normal"];
       Todo.createdAt := "2025-01-02T00:00:00.000Z";
       Todo.updatedAt := "2025-01-02T00:00:00.000Z" |};
    {| Todo.id := "3";
       Todo.title := "Low Priority Todo";
       Todo.description := Some "Optional task";
       Todo.completed := true;
       Todo.priority := low;
       Todo.dueDate := None;
       Todo.category := Some "Work";
       Todo.tags := ["later"];
       Todo.createdAt := "2025-01-03T00:00:00.000Z";
       Todo.updatedAt := "2025-01-03T00:00:00.000Z" |} ].

(** The list tests' state under a given filter. *)
Definition listed (f : PartialFilter.t) : TodoState.t :=
  {| TodoState.todos := mockTodos;
     TodoState.categories := [];
     TodoState.filter := spread_filter (TodoState.filter initialState) f |}.

Definition sortBy_dueDate : PartialFilter.t :=
  {| PartialFilter.searchText := None;
     PartialFilter.category := None;
     PartialFilter.priority := None;
     PartialFilter.showCompleted := None;
     PartialFilter.sortBy := Some SortBy.dueDate |}.

(** The second todo of the reducer tests. *)
Definition newTodo : Todo.t :=
  {| Todo.id := "2";
     Todo.title := "Second Todo";
     Todo.description := Todo.description mockTodo;
     Todo.completed := Todo.completed mockTodo;
     Todo.priority := Todo.priority mockTodo;
     Todo.dueDate := Todo.dueDate mockTodo;
     Todo.category := Todo.category mockTodo;
     Todo.tags := Todo.tags mockTodo;
     Todo.createdAt := Todo.createdAt mockTodo;
     Todo.updatedAt := Todo.updatedAt mockTodo |}.

(** The two categories of the reducer tests. *)
Definition mockCategory : Category.t :=
  {| Category.id := "cat1"; Category.name := "Work";
     Category.color := "#ff0000" |}.

Definition newCategory : Category.t :=
  {| Category.id := "cat2"; Category.name := "Personal";
     Category.color := "#00ff00" |}.

Definition with_categories (categories : list Category.t) : TodoState.t :=
  {| TodoState.todos := TodoState.todos initialState;
     TodoState.categories := categories;
     TodoState.filter := TodoState.filter initialState |}.

(** A bare todo with the given id, completion, due date and creation
    time. *)
Definition todo_of (id : string) (completed : bool)
    (dueDate : option string) (createdAt : string) : Todo.t :=
  {| Todo.id := id;
     Todo.title := id;
     Todo.description := None;
     Todo.completed := completed;
     Todo.priority := medium;
     Todo.dueDate := dueDate;
     Todo.category := None;
     Todo.tags := [];
     Todo.createdAt := createdAt;
     Todo.updatedAt := createdAt |}.

(** A state in which a creation time does not parse, listed by creation
    time (the initial filter). *)
Definition unparseable_createdAt : TodoState.t :=
  with_todos
    [ todo_of "1" false None "2025-01-02";
      todo_of "2" true None "2025-01-03";
      todo_of "3" false None "2025-01-03";
      todo_of "4" false None "invalid";
      todo_of "5" false None "2025-01-04" ].

(** A state in which a due date does not parse, listed by due date. *)
Definition unparseable_dueDate : TodoState.t :=
  {| TodoState.todos :=
       [ todo_of "A" false (Some "2025-03-02") "2025-01-01";
         todo_of "B" false (Some "invalid") "2025-01-01";
         todo_of "C" false (Some "2025-03-01") "2025-01-01" ];
     TodoState.categories := [];
     TodoState.filter :=
       spread_filter (TodoState.filter initialState) sortBy_dueDate |}.

(** A heap holding the state of the reducer tests: one todo, no
    category, the initial filter; the state object is at reference 4. *)
Definition mock_heap : Heap.heap :=
  [ Heap.TodoObject mockTodo;
    Heap.ArrayObject [0];
    Heap.ArrayObject [];
    Heap.FilterObject (TodoState.filter initialState);
    Heap.StateObject 1 2 3 ].

(** ** Ids of a state *)

Definition ids (s : TodoState.t) : list string :=
  List.map Todo.id (TodoState.todos s).

(** What an action must bring for the ids of the todos to stay
    pairwise distinct: a new todo a fresh id, an update no id, a loaded
    state distinct ids.  The reducer checks none of it. *)
Definition keeps_ids_distinct (s : TodoState.t) (a : TodoAction) : Prop :=
  match a with
  | ADD_TODO payload => ~ In (Todo.id payload) (ids s)
  | UPDATE_TODO _ updates => PartialTodo.id updates = None
  | LOAD_STATE payload => NoDup (ids payload)
  | _ => True
  end.

(** ** String methods used by the forms *)

(** The white space [trim] removes, among the code units below 256: tab,
    line feed, vertical tab, form feed, carriage return, space and
    no-break space. *)
Definition isWhiteSpace (c : ascii) : bool :=
  let n := nat_of_ascii c in
  ((9 <=? n) && (n <=? 13) || (n =? 32) || (n =? 160))%nat.

Fixpoint trimStart (s : string) : string :=
  match s with
  | String c s' => if isWhiteSpace c then trimStart s' else s
  | EmptyString => s
  end.

Fixpoint trimEnd (s : string) : string :=
  match s with
  | String c s' =>
      match trimEnd s' with
      | EmptyString => if isWhiteSpace c then EmptyString
                       else String c EmptyString
      | r => String c r
      end
  | EmptyString => s
  end.

(** [s.trim()] *)
Definition trim (s : string) : string := trimEnd (trimStart s).

(** [s.split(sep)] for a separator of one code unit. *)
Fixpoint split (sep : ascii) (s : string) : list string :=
  match s with
  | EmptyString => [EmptyString]
  | String c s' =>
      if Ascii.eqb c sep then EmptyString :: split sep s'
      else match split sep s' with
           | head :: rest => String c head :: rest
           | [] => [String c EmptyString]
           end
  end.

(** [l.join(sep)] *)
Fixpoint join (sep : string) (l : list string) : string :=
  match l with
  | [] => EmptyString
  | [x] => x
  | x :: rest => (x ++ sep ++ join sep rest)%string
  end.

(** [s || undefined] *)
Definition or_undefined (s : string) : option string :=
  if truthy s then Some s else None.

(** [s || ''] for an optional [s]. *)
Definition or_empty (s : option string) : string :=
  match s with
  | Some s' => s'
  | None => EmptyString
  end.

(** The code unit [c] occurs in [s]. *)
Fixpoint occurs (c : ascii) (s : string) : bool :=
  match s with
  | String d s' => Ascii.eqb d c || occurs c s'
  | EmptyString => false
  end.

(** A text that does not begin with white space. *)
Definition begins_clean (s : string) : Prop :=
  match s with
  | String c _ => isWhiteSpace c = false
  | EmptyString => True
  end.

(** ** The todo form (components/TodoForm/TodoForm.tsx) *)

Module TodoForm.

(** The fields of the form, as the user left them. *)
Record Fields : Type := mkFields {
  title : string;
  description : string;
  priority : Priority;
  dueDate : string;
  category : string;
  tags : string
}.

(** What a submission does: an alert, or one call of the provider. *)
Inductive Outcome : Type :=
| alert_title_required
| submitted (call : TodoProvider.Call).

(** [resetForm] *)
Definition resetForm : Fields :=
  mkFields EmptyString EmptyString medium EmptyString EmptyString EmptyString.

(** The effect on [[editingTodo]]: the fields the form shows for the todo
    under edit, or the reset form. *)
Definition shown (editingTodo : option Todo.t) : Fields :=
  match editingTodo with
  | Some todo =>
      mkFields (Todo.title todo)
               (or_empty (Todo.description todo))
               (Todo.priority todo)
               (or_empty (Todo.dueDate todo))
               (or_empty (Todo.category todo))
               (join ", " (Todo.tags todo))
  | None => resetForm
  end.

(** [tags.split(',').map(tag => tag.trim()).filter(tag => tag.length > 0)] *)
Definition tagArray (tags : string) : list string :=
  List.filter (fun tag => (0 <? String.length tag)%nat)
    (List.map trim (split "," tags)).

(** [handleSubmit]; [uuidv4] is the id the generator returns when it is
    asked for one. *)
Definition handleSubmit (clock : Clock) (uuidv4 : string)
    (editingTodo : option Todo.t) (f : Fields) : Eff Outcome :=
  if negb (truthy (trim (title f))) then ret alert_title_required
  else
    match editingTodo with
    | Some editing =>
        ret (submitted
               (TodoProvider.updateTodo (Todo.id editing)
                  {| PartialTodo.id := None;
                     PartialTodo.title := Some (trim (title f));
                     PartialTodo.description :=
                       Some (or_undefined (trim (description f)));
                     PartialTodo.completed := None;
                     PartialTodo.priority := Some (priority f);
                     PartialTodo.dueDate := Some (or_undefined (dueDate f));
                     PartialTodo.category := Some (or_undefined (category f));
                     PartialTodo.tags := Some (tagArray (tags f));
                     PartialTodo.createdAt := None;
                     PartialTodo.updatedAt := None |}))
    | None =>
        createdAt <- Date_now_toISOString clock ;;
        updatedAt <- Date_now_toISOString clock ;;
        ret (submitted
               (TodoProvider.addTodo
                  {| Todo.id := uuidv4;
                     Todo.title := trim (title f);
                     Todo.description := or_undefined (trim (description f));
                     Todo.completed := false;
                     Todo.priority := priority f;
                     Todo.dueDate := or_undefined (dueDate f);
                     Todo.category := or_undefined (category f);
                     Todo.tags := tagArray (tags f);
                     Todo.createdAt := createdAt;
                     Todo.updatedAt := updatedAt |}))
    end.

(** A tag as the form writes it: not empty, trimmed, without a comma. *)
Definition tidy_tag (tag : string) : Prop :=
  tag <> EmptyString /\ trim tag = tag /\ occurs "," tag = false.

(** A todo as the form writes it. *)
Definition tidy (todo : Todo.t) : Prop :=
  Todo.title todo <> EmptyString /\
  trim (Todo.title todo) = Todo.title todo /\
  (forall d, Todo.description todo = Some d ->
             d <> EmptyString /\ trim d = d) /\
  Todo.dueDate todo <> Some EmptyString /\
  Todo.category todo <> Some EmptyString /\
  Forall tidy_tag (Todo.tags todo).

End TodoForm.

(** The state after the provider's call for an outcome of a form, if it
    makes one. *)
Definition after_call (clock : Clock) (s : TodoState.t)
    (call : option TodoProvider.Call) : Eff TodoState.t :=
  match call with
  | Some c => todoReducer clock s (TodoProvider.dispatched c)
  | None => ret s
  end.

(** ** The category manager (components/CategoryManager) *)

Module CategoryManager.

Inductive Outcome : Type :=
| alert_name_required
| alert_name_exists
| submitted (call : TodoProvider.Call).

Section Handlers.

Variable toLowerCase : string -> string.

(** [handleSubmit]; [uuidv4] is the id the generator returns. *)
Definition handleSubmit (uuidv4 : string) (state : TodoState.t)
    (categoryName categoryColor : string) : Outcome :=
  if negb (truthy (trim categoryName)) then alert_name_required
  else
    match List.find
            (fun cat =>
               (toLowerCase (Category.name cat)
                =? toLowerCase (trim categoryName))%string)
            (TodoState.categories state) with
    | Some existingCategory => alert_name_exists
    | None =>
        submitted
          (TodoProvider.addCategory
             {| Category.id := uuidv4;
                Category.name := trim categoryName;
                Category.color := categoryColor |})
    end.

(** The names of the categories, up to case. *)
Definition names (s : TodoState.t) : list string :=
  List.map (fun cat => toLowerCase (Category.name cat))
    (TodoState.categories s).

End Handlers.

(** [handleDelete]; [confirmed] is the answer of [window.confirm]. *)
Definition handleDelete (confirmed : bool) (id name : string)
  : option TodoProvider.Call :=
  if confirmed then Some (TodoProvider.deleteCategory id) else None.

Definition call_of (o : Outcome) : option TodoProvider.Call :=
  match o with
  | submitted c => Some c
  | _ => None
  end.

End CategoryManager.

(** ** The filter panel (components/TodoFilter/TodoFilter.tsx) *)

Module FilterPanel.

(** What the user does in the panel.  The priority and the sort order
    come from [select]s whose options are the values of the types (and,
    for the priority, the empty "all" option). *)
Inductive Event : Type :=
| SearchChange (value : string)
| CategoryChange (value : string)
| PriorityChange (value : option Priority)
| ShowCompletedChange (checked : bool)
| SortByChange (value : SortBy.t)
| ClearFilters.

(** The payload each handler passes to [setFilter]. *)
Definition payload (e : Event) : PartialFilter.t :=
  match e with
  | SearchChange value =>
      PartialFilter.mk (Some value) None None None None
  | CategoryChange value =>
      PartialFilter.mk None (Some (or_undefined value)) None None None
  | PriorityChange value =>
      PartialFilter.mk None None (Some value) None None
  | ShowCompletedChange checked =>
      PartialFilter.mk None None None (Some checked) None
  | SortByChange value =>
      PartialFilter.mk None None None None (Some value)
  | ClearFilters =>
      PartialFilter.mk (Some EmptyString) (Some None) (Some None) (Some true)
        (Some SortBy.createdAt)
  end.

Definition handle (e : Event) : TodoProvider.Call :=
  TodoProvider.setFilter (payload e).

End FilterPanel.

(** ** A todo of the list (components/TodoItem/TodoItem.tsx) *)

Module TodoItem.

Inductive Status : Type := overdue | today | soon | normal.

(** The label beside the status: fixed texts, the number of days, or
    the due date in the reader's locale. *)
Inductive Label : Type :=
| label_overdue
| label_today
| label_tomorrow
| label_in_days (diffDays : Z)
| label_date (dueDate : string).

Definition day : Z := (1000 * 60 * 60 * 24)%Z.

(** [Math.ceil(diffTime / day)] for an integer [diffTime]. *)
Definition ceil_days (diffTime : Z) : Z := (- ((- diffTime) / day))%Z.

(** [v < n], [v === n], [v <= n]: false for [NaN]. *)
Definition num_lt (v : num) (n : Z) : bool :=
  match v with Some z => (z <? n)%Z | None => false end.
Definition num_eq (v : num) (n : Z) : bool :=
  match v with Some z => (z =? n)%Z | None => false end.
Definition num_le (v : num) (n : Z) : bool :=
  match v with Some z => (z <=? n)%Z | None => false end.

Section DueDate.

Variable Date_getTime : string -> num.

(** [getDueDateStatus]; [now] is the time value of [new Date()].  The
    time values are integers, and the quotient is compared with 0, 1
    and 3 only, next to which the rounding of the division cannot
    reach: the integer ceiling decides the same cases. *)
Definition getDueDateStatus (now : Z) (todo : Todo.t)
  : option (Status * Label) :=
  match Todo.dueDate todo with
  | None => None
  | Some d =>
      if negb (truthy d) then None
      else
        let diffTime := num_sub (Date_getTime d) (Some now) in
        let diffDays := option_map ceil_days diffTime in
        if num_lt diffDays 0 then Some (overdue, label_overdue)
        else if num_eq diffDays 0 then Some (today, label_today)
        else if num_eq diffDays 1 then Some (soon, label_tomorrow)
        else if num_le diffDays 3 then
          Some (soon, label_in_days (match diffDays with
                                     | Some n => n
                                     | None => 0%Z
                                     end))
        else Some (normal, label_date d)
  end.

End DueDate.

(** [handleDelete]; [confirmed] is the answer of [window.confirm]. *)
Definition handleDelete (confirmed : bool) (todo : Todo.t)
  : option TodoProvider.Call :=
  if confirmed then Some (TodoProvider.deleteTodo (Todo.id todo)) else None.

(** [handleToggle] *)
Definition handleToggle (todo : Todo.t) : TodoProvider.Call :=
  TodoProvider.toggleTodo (Todo.id todo).

End TodoItem.

(** ** More of the order, as a reader of the list sees it *)

(** Two todos of equal rank under [sortBy = priority]. *)
Definition same_priority_rank (a b : Todo.t) : bool :=
  Bool.eqb (Todo.completed a) (Todo.completed b) &&
  Priority_eqb (Todo.priority a) (Todo.priority b).

(** A creation time that is an instant. *)
Definition valid_createdAt (Date_getTime : string -> num) (todo : Todo.t)
  : Prop :=
  Date_getTime (Todo.createdAt todo) <> None.

(** Two todos of equal rank under [sortBy = createdAt]. *)
Definition same_created_rank (Date_getTime : string -> num) (a b : Todo.t)
  : bool :=
  Bool.eqb (Todo.completed a) (Todo.completed b) &&
  match Date_getTime (Todo.createdAt a), Date_getTime (Todo.createdAt b) with
  | Some x, Some y => (x =? y)%Z
  | _, _ => false
  end.

(** The todos the comparator of the view is consistent on: the date the
    sort key reads, if there is one, parses. *)
Definition comparable (Date_getTime : string -> num) (sortBy : SortBy.t)
    (todo : Todo.t) : Prop :=
  match sortBy with
  | SortBy.dueDate => dueDate_parses Date_getTime todo
  | SortBy.priority => True
  | SortBy.createdAt => valid_createdAt Date_getTime todo
  end.

(** The state after the filter panel's handler for [e] has run. *)
Definition after_event (clock : Clock) (s : TodoState.t)
    (e : FilterPanel.Event) : TodoState.t :=
  reduced clock s (TodoProvider.dispatched (FilterPanel.handle e)) 0.

(** A call as the components make it: a [setFilter] comes from a handler
    of the filter panel. *)
Definition from_the_panel (c : TodoProvider.Call) : Prop :=
  match c with
  | TodoProvider.setFilter p => exists e, p = FilterPanel.payload e
  | _ => True
  end.

(** Choosing the priority as the sort key in the panel. *)
Definition sortBy_priority_event : FilterPanel.Event :=
  FilterPanel.SortByChange SortBy.priority.

(** A computation whose heap never shrinks, and one whose result is a
    reference that was not in use when it started. *)
Definition grows {A : Type} (m : Heap.M A) : Prop :=
  forall h k a h' k', m h k = Some (a, h', k') ->
                      List.length h <= List.length h'.

Definition returns_fresh (m : Heap.M Heap.ref) : Prop :=
  forall h k r h' k', m h k = Some (r, h', k') -> List.length h <= r.

(* ================================================================== *)
(** * Part II. Properties                                              *)
(* ================================================================== *)

(** ** The state store *)

Section Reducer.

Variable clock : Clock.

Lemma state_eta (s : TodoState.t) :
  {| TodoState.todos := TodoState.todos s;
     TodoState.categories := TodoState.categories s;
     TodoState.filter := TodoState.filter s |} = s.
Proof. destruct s; reflexivity. Qed.

Lemma matches_cons (i : string) (t : Todo.t) (l : list Todo.t) :
  matches i (t :: l) =
  (if (Todo.id t =? i)%string then S (matches i l) else matches i l).
Proof. unfold matches; simpl; destruct (Todo.id t =? i)%string; reflexivity. Qed.

(** A [map] whose callback leaves every element alone returns the array
    and reads no clock. *)
Lemma Array_map_untouched (f : Todo.t -> Eff Todo.t) (l : list Todo.t) (k : nat) :
  (forall t k', In t l -> f t k' = (t, k')) ->
  Array_map f l k = (l, k).
Proof.
  induction l as [|t l IH]; intros Hf; simpl.
  - reflexivity.
  - unfold bind. rewrite Hf by (left; reflexivity).
    rewrite IH by (intros; apply Hf; right; assumption).
    reflexivity.
Qed.

(** The number of clock reads of a [map] whose callback reads the clock
    once on the todos with id [i], and its result position by position. *)
Lemma Array_map_matching (g : Todo.t -> string -> Todo.t) (i : string)
    (l : list Todo.t) (k : nat) :
  let f := fun t : Todo.t =>
             if (Todo.id t =? i)%string
             then now <- Date_now_toISOString clock ;; ret (g t now)
             else ret t in
  snd (Array_map f l k) = k + matches i l /\
  forall n t, nth_error l n = Some t ->
    nth_error (fst (Array_map f l k)) n =
    Some (if (Todo.id t =? i)%string
          then g t (clock (k + matches i (firstn n l)))
          else t).
Proof.
  intros f. revert k.
  induction l as [|a l IH]; intros k.
  - split; [simpl; unfold matches; simpl; lia | intros [|n] t H; discriminate].
  - simpl. unfold bind.
    destruct (f a k) as [a' k1] eqn:Ea.
    destruct (IH k1) as [IHk IHn].
    destruct (Array_map f l k1) as [ys k2] eqn:El. simpl in *.
    assert (Hk1 : k1 = if (Todo.id a =? i)%string then S k else k).
    { unfold f in Ea. destruct (Todo.id a =? i)%string; inversion Ea; reflexivity. }
    split.
    + rewrite matches_cons. subst k2 k1.
      destruct (Todo.id a =? i)%string; lia.
    + intros [|n] t H; simpl in *.
      * inversion H; subst t. unfold f in Ea.
        unfold matches; simpl. rewrite Nat.add_0_r.
        destruct (Todo.id a =? i)%string; inversion Ea; reflexivity.
      * rewrite (IHn n t H). rewrite matches_cons. subst k1.
        destruct (Todo.id a =? i)%string; destruct (Todo.id t =? i)%string;
          try reflexivity; rewrite Nat.add_succ_comm; reflexivity.
Qed.

Lemma update_nth (i : string) (u : PartialTodo.t) (s : TodoState.t)
    (k n : nat) (t : Todo.t) :
  nth_error (TodoState.todos s) n = Some t ->
  nth_error (TodoState.todos (reduced clock s (UPDATE_TODO i u) k)) n =
  Some (if (Todo.id t =? i)%string
        then with_updatedAt (spread_todo t u)
               (clock (k + matches i (firstn n (TodoState.todos s))))
        else t).
Proof.
  intros H. unfold reduced; simpl. unfold bind.
  pose proof (Array_map_matching
                (fun t now => with_updatedAt (spread_todo t u) now)
                i (TodoState.todos s) k) as [_ Hn].
  fold (update_callback clock i u) in Hn.
  destruct (Array_map (update_callback clock i u) (TodoState.todos s) k)
    as [ys k'] eqn:E.
  simpl in *. apply Hn; assumption.
Qed.

Lemma toggle_nth (i : string) (s : TodoState.t) (k n : nat) (t : Todo.t) :
  nth_error (TodoState.todos s) n = Some t ->
  nth_error (TodoState.todos (reduced clock s (TOGGLE_TODO i) k)) n =
  Some (if (Todo.id t =? i)%string
        then with_updatedAt (with_completed t (negb (Todo.completed t)))
               (clock (k + matches i (firstn n (TodoState.todos s))))
        else t).
Proof.
  intros H. unfold reduced; simpl. unfold bind.
  pose proof (Array_map_matching
                (fun t now =>
                   with_updatedAt
                     (with_completed t (negb (Todo.completed t))) now)
                i (TodoState.todos s) k) as [_ Hn].
  fold (toggle_callback clock i) in Hn.
  destruct (Array_map (toggle_callback clock i) (TodoState.todos s) k)
    as [ys k'] eqn:E.
  simpl in *. apply Hn; assumption.
Qed.

Lemma filter_none {A : Type} (p : A -> bool) (l : list A) :
  (forall x, In x l -> p x = false) -> List.filter p l = [].
Proof.
  induction l as [|a l IH]; intros H; simpl; [reflexivity|].
  rewrite H by (left; reflexivity). apply IH.
  intros x Hx. apply H. right; assumption.
Qed.

Lemma filter_all {A : Type} (p : A -> bool) (l : list A) :
  (forall x, In x l -> p x = true) -> List.filter p l = l.
Proof.
  induction l as [|a l IH]; intros H; simpl.
  - reflexivity.
  - rewrite H by (left; reflexivity).
    rewrite IH by (intros; apply H; right; assumption). reflexivity.
Qed.

(** C8. No-op laws on lookup misses: when no todo of the state carries
    the id, Update Todo (whatever its payload), Delete Todo and Toggle
    Todo with that id return a state equal to the input state: todos,
    categories and filter are all unchanged. *)
Theorem lookup_miss_is_noop (s : TodoState.t) (i : string) (k : nat) :
  (forall todo, In todo (TodoState.todos s) -> Todo.id todo <> i) ->
  (forall updates, reduced clock s (UPDATE_TODO i updates) k = s) /\
  reduced clock s (DELETE_TODO i) k = s /\
  reduced clock s (TOGGLE_TODO i) k = s.
Proof.
  intros Hmiss.
  assert (Hneq : forall t, In t (TodoState.todos s) ->
                           (Todo.id t =? i)%string = false).
  { intros t Ht. apply String.eqb_neq. apply Hmiss; assumption. }
  repeat split.
  - intros updates. unfold reduced; simpl. unfold bind.
    rewrite Array_map_untouched.
    + simpl. apply state_eta.
    + intros t k' Ht. unfold update_callback. rewrite Hneq by assumption.
      reflexivity.
  - unfold reduced; simpl. rewrite filter_all.
    + apply state_eta.
    + intros t Ht. rewrite Hneq by assumption. reflexivity.
  - unfold reduced; simpl. unfold bind.
    rewrite Array_map_untouched.
    + simpl. apply state_eta.
    + intros t k' Ht. unfold toggle_callback. rewrite Hneq by assumption.
      reflexivity.
Qed.

(** C9. An Update Todo whose id matches a todo sets that todo's
    [updatedAt] to the time the reducer reads from the clock for it,
    whatever the payload: an empty payload still refreshes it, and an
    [updatedAt] inside the payload is overridden, the timestamp being
    written after the merge.  The reading is the one made when the [map]
    reaches the todo; for the first todo carrying the id (the only one
    when ids are unique) it is the first reading of the call. *)
Theorem update_stamps_current_time (s : TodoState.t) (i : string)
    (updates : PartialTodo.t) (k n : nat) (todo : Todo.t) :
  nth_error (TodoState.todos s) n = Some todo ->
  Todo.id todo = i ->
  exists todo',
    nth_error (TodoState.todos (reduced clock s (UPDATE_TODO i updates) k)) n
      = Some todo' /\
    Todo.updatedAt todo'
      = clock (k + matches i (firstn n (TodoState.todos s))) /\
    (matches i (firstn n (TodoState.todos s)) = 0 ->
     Todo.updatedAt todo' = clock k).
Proof.
  intros Hn Hid.
  rewrite (update_nth i updates s k n todo Hn).
  apply String.eqb_eq in Hid. rewrite Hid.
  eexists. split; [reflexivity|]. simpl. split.
  - reflexivity.
  - intros H0. rewrite H0, Nat.add_0_r. reflexivity.
Qed.

(** C5 (amended). Update Todo merges the payload into the matched todo
    field by field: each field other than [updatedAt] takes the payload's
    value when the payload has the field and keeps its value otherwise.
    So the matched todo keeps its [id] when the payload carries no [id],
    and its [createdAt] when the payload carries no [createdAt]. *)
Theorem update_keeps_id_and_createdAt (s : TodoState.t) (i : string)
    (updates : PartialTodo.t) (k n : nat) (todo : Todo.t) :
  nth_error (TodoState.todos s) n = Some todo ->
  Todo.id todo = i ->
  exists todo',
    nth_error (TodoState.todos (reduced clock s (UPDATE_TODO i updates) k)) n
      = Some todo' /\
    (PartialTodo.id updates = None -> Todo.id todo' = Todo.id todo) /\
    (PartialTodo.createdAt updates = None ->
     Todo.createdAt todo' = Todo.createdAt todo) /\
    Todo.id todo' = spread (Todo.id todo) (PartialTodo.id updates) /\
    Todo.title todo' = spread (Todo.title todo) (PartialTodo.title updates) /\
    Todo.description todo'
      = spread (Todo.description todo) (PartialTodo.description updates) /\
    Todo.completed todo'
      = spread (Todo.completed todo) (PartialTodo.completed updates) /\
    Todo.priority todo'
      = spread (Todo.priority todo) (PartialTodo.priority updates) /\
    Todo.dueDate todo'
      = spread (Todo.dueDate todo) (PartialTodo.dueDate updates) /\
    Todo.category todo'
      = spread (Todo.category todo) (PartialTodo.category updates) /\
    Todo.tags todo' = spread (Todo.tags todo) (PartialTodo.tags updates) /\
    Todo.createdAt todo'
      = spread (Todo.createdAt todo) (PartialTodo.createdAt updates).
Proof.
  intros Hn Hid.
  rewrite (update_nth i updates s k n todo Hn).
  apply String.eqb_eq in Hid. rewrite Hid.
  eexists. split; [reflexivity|]. simpl.
  split; [intros H; rewrite H; reflexivity|].
  split; [intros H; rewrite H; reflexivity|].
  repeat split.
Qed.

(** C10. The id-keyed operations act on every match.  Delete Todo leaves
    exactly the todos with another id; Update Todo merges the payload
    into, and re-stamps, every todo carrying the id, each with the clock
    reading made when the [map] reaches it; Toggle Todo flips and
    re-stamps every one of them; Delete Category leaves exactly the
    categories with another id. *)
Theorem id_operations_act_on_every_match (s : TodoState.t) (i : string)
    (updates : PartialTodo.t) (k : nat) :
  (forall todo,
      In todo (TodoState.todos (reduced clock s (DELETE_TODO i) k)) <->
      In todo (TodoState.todos s) /\ Todo.id todo <> i) /\
  (forall n todo,
      nth_error (TodoState.todos s) n = Some todo ->
      Todo.id todo = i ->
      nth_error (TodoState.todos (reduced clock s (UPDATE_TODO i updates) k)) n
      = Some (with_updatedAt (spread_todo todo updates)
                (clock (k + matches i (firstn n (TodoState.todos s)))))) /\
  (forall n todo,
      nth_error (TodoState.todos s) n = Some todo ->
      Todo.id todo = i ->
      exists todo',
        nth_error (TodoState.todos (reduced clock s (TOGGLE_TODO i) k)) n
          = Some todo' /\
        Todo.completed todo' = negb (Todo.completed todo) /\
        Todo.updatedAt todo'
          = clock (k + matches i (firstn n (TodoState.todos s)))) /\
  (forall c,
      In c (TodoState.categories (reduced clock s (DELETE_CATEGORY i) k)) <->
      In c (TodoState.categories s) /\ Category.id c <> i).
Proof.
  assert (Hfilter : forall (A : Type) (key : A -> string) (l : list A) (x : A),
             In x (List.filter (fun y => negb (key y =? i)%string) l) <->
             In x l /\ key x <> i).
  { intros A key l x. rewrite filter_In, negb_true_iff, String.eqb_neq.
    reflexivity. }
  split; [|split; [|split]].
  - intros todo. unfold reduced; simpl. apply (Hfilter _ Todo.id).
  - intros n todo Hn Hid. rewrite (update_nth i updates s k n todo Hn).
    apply String.eqb_eq in Hid. rewrite Hid. reflexivity.
  - intros n todo Hn Hid. rewrite (toggle_nth i s k n todo Hn).
    apply String.eqb_eq in Hid. rewrite Hid.
    eexists. split; [reflexivity|]. simpl. split; reflexivity.
  - intros c. unfold reduced; simpl. apply (Hfilter _ Category.id).
Qed.

End Reducer.

Lemma update_stamps_current_time_witness :
  (nth_error (TodoState.todos (with_todos [mockTodo])) 0 = Some mockTodo /\
   Todo.id mockTodo = "1") /\
  exists todo',
    nth_error
      (TodoState.todos
         (reduced frozen_clock (with_todos [mockTodo])
            (UPDATE_TODO "1" PartialTodo.empty) 0)) 0 = Some todo' /\
    Todo.updatedAt todo'
      = frozen_clock
          (0 + matches "1" (firstn 0 (TodoState.todos (with_todos [mockTodo]))))
    /\
    (matches "1" (firstn 0 (TodoState.todos (with_todos [mockTodo]))) = 0 ->
     Todo.updatedAt todo' = frozen_clock 0).
Proof.
  split.
  - split; reflexivity.
  - apply (update_stamps_current_time frozen_clock (with_todos [mockTodo]) "1"
             PartialTodo.empty 0 0 mockTodo); reflexivity.
Defined.

Lemma lookup_miss_is_noop_witness :
  (forall todo, In todo (TodoState.todos (with_todos [mockTodo])) ->
                Todo.id todo <> "non-existent") /\
  (forall updates,
      reduced frozen_clock (with_todos [mockTodo])
        (UPDATE_TODO "non-existent" updates) 0 = with_todos [mockTodo]) /\
  reduced frozen_clock (with_todos [mockTodo]) (DELETE_TODO "non-existent") 0
    = with_todos [mockTodo] /\
  reduced frozen_clock (with_todos [mockTodo]) (TOGGLE_TODO "non-existent") 0
    = with_todos [mockTodo].
Proof.
  assert (H : forall todo, In todo (TodoState.todos (with_todos [mockTodo])) ->
                           Todo.id todo <> "non-existent").
  { intros todo [E|[]]. subst todo. simpl. discriminate. }
  split.
  - exact H.
  - exact (lookup_miss_is_noop frozen_clock (with_todos [mockTodo])
             "non-existent" 0 H).
Defined.

Lemma update_keeps_id_and_createdAt_witness :
  exists todo',
    nth_error
      (TodoState.todos
         (reduced frozen_clock (with_todos [mockTodo])
            (UPDATE_TODO "1" PartialTodo.empty) 0)) 0 = Some todo' /\
    Todo.id todo' = "1" /\
    Todo.createdAt todo' = "2025-01-01T00:00:00.000Z".
Proof.
  destruct (update_keeps_id_and_createdAt frozen_clock (with_todos [mockTodo])
              "1" PartialTodo.empty 0 0 mockTodo eq_refl eq_refl)
    as [todo' [Hn [Hid [Hcreated _]]]].
  exists todo'. split; [exact Hn|]. split.
  - exact (Hid eq_refl).
  - exact (Hcreated eq_refl).
Defined.

(** C5, as stated, fails: an Update Todo whose payload carries an [id]
    and a [createdAt] overwrites both on the todo it matches. *)
Lemma update_overwrites_id_and_createdAt :
  nth_error (TodoState.todos (with_todos [mockTodo])) 0 = Some mockTodo /\
  Todo.id mockTodo = "1" /\
  exists todo',
    nth_error
      (TodoState.todos
         (reduced frozen_clock (with_todos [mockTodo])
            (UPDATE_TODO "1" overwriting_updates) 0)) 0 = Some todo' /\
    Todo.id todo' <> Todo.id mockTodo /\
    Todo.createdAt todo' <> Todo.createdAt mockTodo.
Proof.
  split; [reflexivity|]. split; [reflexivity|].
  eexists. split; [reflexivity|]. split; simpl; discriminate.
Qed.

(** ** The prescribed sort *)

Section SortFacts.

Context {A : Type} (comparefn : A -> A -> num).

(** [x] is moved behind [y]. *)
Let after (x y : A) : bool := positive (comparefn x y).

Lemma insert_perm (x : A) (l : list A) :
  Permutation (insert comparefn x l) (x :: l).
Proof.
  induction l as [|y l IH]; simpl.
  - apply Permutation_refl.
  - destruct (positive (comparefn x y)).
    + apply perm_trans with (y :: x :: l).
      * apply perm_skip, IH.
      * apply perm_swap.
    + apply Permutation_refl.
Qed.

Lemma stable_sort_perm (l : list A) : Permutation (stable_sort comparefn l) l.
Proof.
  induction l as [|x l IH]; simpl.
  - apply perm_nil.
  - apply perm_trans with (x :: stable_sort comparefn l).
    + apply insert_perm.
    + apply perm_skip, IH.
Qed.

Lemma stable_sort_In (l : list A) (x : A) :
  In x (stable_sort comparefn l) <-> In x l.
Proof.
  split; apply Permutation_in;
    [apply stable_sort_perm | apply Permutation_sym, stable_sort_perm].
Qed.

(** *** Sorting keeps a two-block partition

    When the comparator puts every [P]-element behind every other
    element, the [P]-elements end up behind the others, whatever the
    comparator answers inside a block. *)
Section Partition.

Variable P : A -> bool.
Hypothesis P_behind :
  forall x y, P x = true -> P y = false -> after x y = true.
Hypothesis others_ahead :
  forall x y, P x = false -> P y = true -> after x y = false.

Let blocks : list A -> Prop :=
  StronglySorted (fun a b => P a = true -> P b = true).

Lemma insert_blocks (x : A) (l : list A) :
  blocks l -> blocks (insert comparefn x l).
Proof.
  unfold blocks. induction l as [|y l IH]; intros Hl; simpl.
  - constructor; constructor.
  - apply StronglySorted_inv in Hl. destruct Hl as [Hl Hy].
    fold (after x y). destruct (after x y) eqn:E.
    + constructor; [apply IH; assumption|].
      apply Forall_forall. intros z Hz.
      apply (Permutation_in _ (insert_perm x l)) in Hz.
      destruct Hz as [Hz|Hz].
      * subst z. intros Py. destruct (P x) eqn:Px; [reflexivity|].
        rewrite (others_ahead x y Px Py) in E. discriminate.
      * rewrite Forall_forall in Hy. apply Hy; assumption.
    + constructor; [constructor; assumption|].
      assert (Hxy : P x = true -> P y = true).
      { intros Px. destruct (P y) eqn:Py; [reflexivity|].
        rewrite (P_behind x y Px Py) in E. discriminate. }
      constructor; [assumption|].
      apply Forall_forall. intros z Hz Px.
      rewrite Forall_forall in Hy. apply (Hy z Hz). apply Hxy; assumption.
Qed.

Lemma stable_sort_blocks (l : list A) : blocks (stable_sort comparefn l).
Proof.
  induction l as [|x l IH]; simpl.
  - constructor.
  - apply insert_blocks; assumption.
Qed.

End Partition.

(** *** Sorting by a consistent comparator *)
Section Consistent.

(** The elements the comparator is consistent on. *)
Variable Q : A -> Prop.
Hypothesis after_asym :
  forall x y, Q x -> Q y -> after x y = true -> after y x = false.
Hypothesis not_after_trans :
  forall x y z, Q x -> Q y -> Q z ->
    after x y = false -> after y z = false -> after x z = false.

Lemma insert_sorted (x : A) (l : list A) :
  Q x -> Forall Q l ->
  StronglySorted (fun a b => after a b = false) l ->
  StronglySorted (fun a b => after a b = false) (insert comparefn x l).
Proof.
  intros Qx. induction l as [|y l IH]; intros HQ Hl; simpl.
  - constructor; constructor.
  - apply StronglySorted_inv in Hl. destruct Hl as [Hl Hy].
    apply Forall_cons_iff in HQ. destruct HQ as [Qy HQ].
    fold (after x y). destruct (after x y) eqn:E.
    + constructor; [apply IH; assumption|].
      apply Forall_forall. intros z Hz.
      apply (Permutation_in _ (insert_perm x l)) in Hz.
      destruct Hz as [Hz|Hz].
      * subst z. apply after_asym; assumption.
      * rewrite Forall_forall in Hy. apply Hy; assumption.
    + constructor; [constructor; assumption|].
      constructor; [assumption|].
      apply Forall_forall. intros z Hz.
      rewrite Forall_forall in Hy, HQ.
      apply not_after_trans with y; auto.
Qed.

Lemma stable_sort_sorted (l : list A) :
  Forall Q l ->
  StronglySorted (fun a b => after a b = false) (stable_sort comparefn l).
Proof.
  induction l as [|x l IH]; intros HQ; simpl.
  - constructor.
  - apply Forall_cons_iff in HQ. destruct HQ as [Qx HQ].
    apply insert_sorted; [assumption| |apply IH; assumption].
    apply Forall_forall. intros z Hz.
    rewrite Forall_forall in HQ. apply HQ.
    apply stable_sort_In; assumption.
Qed.

End Consistent.

(** *** Stability

    Elements that are never moved behind one another keep their order:
    for a class [p] of such elements, the sorted array lists the class in
    the order of the input. *)
Lemma insert_filter (p : A -> bool) (x : A) (l : list A) :
  (p x = true -> forall y, In y l -> p y = true -> after x y = false) ->
  List.filter p (insert comparefn x l) = List.filter p (x :: l).
Proof.
  induction l as [|y l IH]; intros H; simpl.
  - reflexivity.
  - fold (after x y). destruct (after x y) eqn:E.
    + simpl. rewrite IH.
      * simpl. destruct (p x) eqn:Px; [|reflexivity].
        destruct (p y) eqn:Py; [|reflexivity].
        rewrite (H eq_refl y (or_introl eq_refl) Py) in E. discriminate.
      * intros Px z Hz Pz. apply H; [assumption|right; assumption|assumption].
    + reflexivity.
Qed.

Lemma stable_sort_stable (p : A -> bool) (l : list A) :
  (forall x y, In x l -> In y l -> p x = true -> p y = true ->
               after x y = false) ->
  List.filter p (stable_sort comparefn l) = List.filter p l.
Proof.
  induction l as [|x l IH]; intros H; simpl.
  - reflexivity.
  - rewrite insert_filter.
    + simpl. rewrite IH; [reflexivity|].
      intros a b Ha Hb. apply H; right; assumption.
    + intros Px y Hy Py. apply H; try assumption.
      * left; reflexivity.
      * right. apply stable_sort_In; assumption.
Qed.

(** *** The result is the one ECMAScript prescribes

    For a comparator that is consistent on the elements of the input,
    any array that is a permutation of the input, sorted, and stable is
    the array [stable_sort] returns. *)
Section Unique.

Variable Q : A -> Prop.
Hypothesis after_asym :
  forall x y, Q x -> Q y -> after x y = true -> after y x = false.
Hypothesis not_after_trans :
  forall x y z, Q x -> Q y -> Q z ->
    after x y = false -> after y z = false -> after x z = false.

(** [x] and [y] compare equal. *)
Let tied (x y : A) : bool := negb (after x y) && negb (after y x).

Lemma not_after_refl (x : A) : Q x -> after x x = false.
Proof.
  intros Qx. destruct (after x x) eqn:E; [|reflexivity].
  rewrite (after_asym x x Qx Qx E) in E. discriminate.
Qed.

Lemma sorted_head_first (a : A) (l : list A) (y : A) :
  Q a -> StronglySorted (fun a b => after a b = false) (a :: l) ->
  In y (a :: l) -> after a y = false.
Proof.
  intros Qa Hs [<-|Hy].
  - apply not_after_refl; assumption.
  - apply StronglySorted_inv in Hs. destruct Hs as [_ Hs].
    rewrite Forall_forall in Hs. apply Hs; assumption.
Qed.

Lemma sorted_stable_eq (l1 : list A) :
  forall l2,
    Forall Q l1 ->
    Permutation l1 l2 ->
    StronglySorted (fun a b => after a b = false) l1 ->
    StronglySorted (fun a b => after a b = false) l2 ->
    (forall x, Q x -> List.filter (tied x) l1 = List.filter (tied x) l2) ->
    l1 = l2.
Proof.
  induction l1 as [|a t1 IH]; intros l2 HQ Hp H1 H2 Hst.
  - apply Permutation_nil in Hp. subst l2. reflexivity.
  - destruct l2 as [|b t2].
    + apply Permutation_sym, Permutation_nil in Hp. discriminate.
    + apply Forall_cons_iff in HQ. destruct HQ as [Qa HQ].
      assert (Hab : after a b = false).
      { apply (sorted_head_first a t1 b Qa H1).
        apply (Permutation_in _ (Permutation_sym Hp)). left; reflexivity. }
      assert (Qb : Q b).
      { assert (Hb : In b (a :: t1))
          by (apply (Permutation_in _ (Permutation_sym Hp)); left; reflexivity).
        destruct Hb as [<-|Hb]; [assumption|].
        rewrite Forall_forall in HQ. apply HQ; assumption. }
      assert (Hba : after b a = false).
      { apply (sorted_head_first b t2 a Qb H2).
        apply (Permutation_in _ Hp). left; reflexivity. }
      assert (Taa : tied a a = true)
        by (unfold tied; rewrite (not_after_refl a Qa); reflexivity).
      assert (Tab : tied a b = true)
        by (unfold tied; rewrite Hab, Hba; reflexivity).
      pose proof (Hst a Qa) as Ha. cbn [List.filter] in Ha.
      rewrite Taa, Tab in Ha. injection Ha as <- _.
      f_equal. apply IH.
      * exact HQ.
      * apply Permutation_cons_inv with a. exact Hp.
      * apply StronglySorted_inv in H1. tauto.
      * apply StronglySorted_inv in H2. tauto.
      * intros x Qx. specialize (Hst x Qx).
        cbn [List.filter] in Hst.
        destruct (tied x a); [injection Hst as Hst|]; exact Hst.
Qed.

Lemma stable_sort_unique (l l' : list A) :
  Forall Q l ->
  Permutation l l' ->
  StronglySorted (fun a b => after a b = false) l' ->
  (forall x, Q x -> List.filter (tied x) l' = List.filter (tied x) l) ->
  l' = stable_sort comparefn l.
Proof.
  intros HQ Hp Hs Hst. symmetry. apply sorted_stable_eq.
  - apply Forall_forall. intros x Hx.
    apply (proj1 (stable_sort_In l x)) in Hx.
    rewrite Forall_forall in HQ. apply HQ; assumption.
  - apply perm_trans with l; [apply stable_sort_perm | exact Hp].
  - apply (stable_sort_sorted Q after_asym not_after_trans); assumption.
  - exact Hs.
  - intros x Qx. rewrite (Hst x Qx). apply stable_sort_stable.
    intros a b Ha Hb Ta Tb. unfold tied in Ta, Tb.
    apply andb_true_iff in Ta, Tb. destruct Ta as [_ Ta], Tb as [Tb _].
    apply negb_true_iff in Ta, Tb.
    rewrite Forall_forall in HQ.
    apply not_after_trans with x; auto.
Qed.

End Unique.

End SortFacts.

(** ** V8's [sort]

    Every step of the TimSort that puts an element of one run next to an
    element of another rests on a comparison of the two: the array it
    returns is an arrangement of the input by justified merges.  From
    this follow the facts about [stable_sort]: it returns a permutation of
    its input; it keeps a partition the comparator decides on; and for a
    comparator that is consistent on the elements it returns the array
    the language prescribes. *)

Section V8Sort.
Local Open Scope nat_scope.

(** *** Chains and justified merges *)

Section Chain.
Context {A : Type}.

Lemma chain_tail (R : A -> A -> Prop) (x : A) (l : list A) :
  chain R (x :: l) -> chain R l.
Proof. destruct l as [|y l]; [intros _; exact I | intros [_ H]; exact H]. Qed.

Lemma chain_impl (R R' : A -> A -> Prop) (l : list A) :
  (forall x y, In x l -> In y l -> R x y -> R' x y) -> chain R l -> chain R' l.
Proof.
  induction l as [|x l IH]; intros H; [intros _; exact I|].
  destruct l as [|y l]; [intros _; exact I|].
  intros [Hxy Hl]. split.
  - apply H; [left; reflexivity | right; left; reflexivity | exact Hxy].
  - apply IH; [|exact Hl]. intros u v Hu Hv. apply H; right; assumption.
Qed.

Lemma chain_snoc (R : A -> A -> Prop) (l : list A) (x y : A) :
  chain R (l ++ [x]) -> R x y -> chain R ((l ++ [x]) ++ [y]).
Proof.
  induction l as [|z l IH]; simpl; intros Hl Hxy.
  - split; [exact Hxy | exact I].
  - destruct (l ++ [x]) as [|u t] eqn:E.
    + destruct l; discriminate.
    + simpl. destruct Hl as [Hzu Hl]. split; [exact Hzu|].
      apply IH; assumption.
Qed.

Lemma chain_rev (R : A -> A -> Prop) (l : list A) :
  chain R l -> chain (fun x y => R y x) (rev l).
Proof.
  induction l as [|x l IH]; intros H; [exact I|].
  destruct l as [|y l]; [exact I|].
  destruct H as [Hxy Hl]. specialize (IH Hl).
  change (rev (x :: y :: l)) with ((rev l ++ [y]) ++ [x]).
  apply chain_snoc; [exact IH | exact Hxy].
Qed.

(** A chain of a relation that is transitive on the elements is sorted. *)
Lemma chain_sorted (R : A -> A -> Prop) (l : list A) :
  (forall x y z, In x l -> In y l -> In z l -> R x y -> R y z -> R x z) ->
  chain R l -> StronglySorted R l.
Proof.
  induction l as [|x l IH]; intros Ht Hc; [constructor|].
  assert (Hl : StronglySorted R l).
  { apply IH; [|apply chain_tail with x; exact Hc].
    intros u v w Hu Hv Hw. apply Ht; right; assumption. }
  constructor; [exact Hl|].
  destruct l as [|y l]; [constructor|].
  destruct Hc as [Hxy _].
  constructor; [exact Hxy|].
  apply StronglySorted_inv in Hl. destruct Hl as [_ Hy].
  rewrite Forall_forall in *. intros z Hz.
  apply Ht with y; simpl; auto.
Qed.

Lemma sorted_chain (R : A -> A -> Prop) (l : list A) :
  StronglySorted R l -> chain R l.
Proof.
  induction l as [|x l IH]; intros H; [exact I|].
  apply StronglySorted_inv in H. destruct H as [Hl Hx].
  destruct l as [|y l]; [exact I|].
  split; [apply Forall_inv in Hx; exact Hx | apply IH; exact Hl].
Qed.

End Chain.

Section Justified.
Context {A : Type} (lt : A -> A -> bool).

Lemma after_snoc (p : written) (tag : bool) (l : list A) (x : A) :
  written_after p tag (l ++ [x]) = Some (tag, x).
Proof. unfold written_after. rewrite fold_left_app. reflexivity. Qed.

Lemma junction_same (tag : bool) (x y : A) : junction lt (Some (tag, x)) (tag, y).
Proof. destruct tag; exact I. Qed.

Lemma first_ok_same (tag : bool) (x : A) (chunk : list A) :
  first_ok lt (Some (tag, x)) tag chunk.
Proof. destruct chunk; [exact I | apply junction_same]. Qed.

Lemma first_ok_None (tag : bool) (chunk : list A) :
  first_ok lt None tag chunk.
Proof. destruct chunk; exact I. Qed.

Lemma JM_As (chunk : list A) :
  forall p a b out,
    first_ok lt p true chunk ->
    JM lt (written_after p true chunk) a b out ->
    JM lt p (chunk ++ a) b (chunk ++ out).
Proof.
  induction chunk as [|x chunk IH]; intros p a b out H1 H; [exact H|].
  simpl. constructor; [exact H1|]. apply IH; [|exact H].
  destruct chunk; [exact I | apply (junction_same true)].
Qed.

Lemma JM_Bs (chunk : list A) :
  forall p a b out,
    first_ok lt p false chunk ->
    JM lt (written_after p false chunk) a b out ->
    JM lt p a (chunk ++ b) (chunk ++ out).
Proof.
  induction chunk as [|x chunk IH]; intros p a b out H1 H; [exact H|].
  simpl. constructor; [exact H1|]. apply IH; [|exact H].
  destruct chunk; [exact I | apply (junction_same false)].
Qed.

Lemma JM_As_end (chunk : list A) (p : written) (b out : list A) :
  first_ok lt p true chunk ->
  JM lt (written_after p true chunk) [] b out ->
  JM lt p chunk b (chunk ++ out).
Proof.
  intros H1 H. rewrite <- (app_nil_r chunk) at 1. apply JM_As; assumption.
Qed.

Lemma JM_Bs_end (chunk : list A) (p : written) (a out : list A) :
  first_ok lt p false chunk ->
  JM lt (written_after p false chunk) a [] out ->
  JM lt p a chunk (chunk ++ out).
Proof.
  intros H1 H. rewrite <- (app_nil_r chunk) at 1. apply JM_Bs; assumption.
Qed.

Lemma JM_end_A (p : written) (a : list A) :
  first_ok lt p true a -> JM lt p a [] a.
Proof.
  intros H. rewrite <- (app_nil_r a) at 2.
  rewrite <- (app_nil_r a) at 1. apply JM_As; [exact H | constructor].
Qed.

Lemma JM_end_B (p : written) (b : list A) :
  first_ok lt p false b -> JM lt p [] b b.
Proof.
  intros H. rewrite <- (app_nil_r b) at 2.
  rewrite <- (app_nil_r b) at 1. apply JM_Bs; [exact H | constructor].
Qed.

Lemma JM_perm (p : written) (a b out : list A) :
  JM lt p a b out -> Permutation out (a ++ b).
Proof.
  induction 1 as [p|p x a b out _ _ IH|p y a b out _ _ IH].
  - apply perm_nil.
  - simpl. apply perm_skip, IH.
  - apply perm_trans with (y :: a ++ b); [apply perm_skip, IH|].
    apply Permutation_middle.
Qed.

(** Neighbours in a justified merge are neighbours in a run, or were
    compared. *)
Lemma JM_chain (R : A -> A -> Prop) :
  (forall x y, lt y x = false -> R x y) ->
  (forall x y, lt y x = true -> R y x) ->
  forall p a b out,
    JM lt p a b out ->
    forall la lb : list A,
      chain R (la ++ a) -> chain R (lb ++ b) ->
      match p with
      | Some (true, x) => exists la', la = la' ++ [x]
      | Some (false, y) => exists lb', lb = lb' ++ [y]
      | None => True
      end ->
      chain R (match p with Some (_, z) => z :: out | None => out end).
Proof.
  intros HAB HBA p a b out H.
  induction H as [p|p x a b out Hj _ IH|p y a b out Hj _ IH];
    intros la lb Ha Hb Hp.
  - destruct p as [[tag z]|]; exact I.
  - assert (Hout : chain R (x :: out)).
    { apply (IH (la ++ [x]) lb).
      - rewrite <- app_assoc. exact Ha.
      - exact Hb.
      - exists la. reflexivity. }
    destruct p as [[[|] z]|]; [| |exact Hout].
    + destruct Hp as [la' ->]. split; [|exact Hout].
      rewrite <- app_assoc in Ha. clear - Ha.
      induction la' as [|u la' IHl]; [exact (proj1 Ha)|].
      apply IHl. apply chain_tail with u. exact Ha.
    + split; [|exact Hout]. apply HBA. exact Hj.
  - assert (Hout : chain R (y :: out)).
    { apply (IH la (lb ++ [y])).
      - exact Ha.
      - rewrite <- app_assoc. exact Hb.
      - exists lb. reflexivity. }
    destruct p as [[[|] z]|]; [| |exact Hout].
    + split; [|exact Hout]. apply HAB. exact Hj.
    + destruct Hp as [lb' ->]. split; [|exact Hout].
      rewrite <- app_assoc in Hb. clear - Hb.
      induction lb' as [|u lb' IHl]; [exact (proj1 Hb)|].
      apply IHl. apply chain_tail with u. exact Hb.
Qed.

End Justified.

(** *** The gallops *)

Section Gallop.
Context {A : Type} (comparefn : A -> A -> num).
Local Abbreviation less := (TimSort.less comparefn).

Lemma shiftr_1 (n : nat) : Nat.shiftr n 1 = n / 2.
Proof. rewrite Nat.shiftr_div_pow2. reflexivity. Qed.

Lemma gallop_ext (c1 c2 : nat -> bool) (maxOfs : nat) :
  (forall i, c1 i = c2 i) ->
  forall fuel lastOfs offset,
    TimSort.gallop fuel c1 maxOfs lastOfs offset
    = TimSort.gallop fuel c2 maxOfs lastOfs offset.
Proof.
  intros H. induction fuel as [|fuel IH]; intros lastOfs offset; simpl.
  - reflexivity.
  - rewrite H, IH. reflexivity.
Qed.

Lemma gallop_spec (continue : nat -> bool) (maxOfs : nat) :
  forall fuel lastOfs offset,
    maxOfs + 1 <= offset + fuel -> lastOfs < offset ->
    let r := TimSort.gallop fuel continue maxOfs lastOfs offset in
    fst r < snd r /\
    (fst r = lastOfs \/ (continue (fst r) = true /\ fst r < maxOfs)) /\
    (snd r < maxOfs -> continue (snd r) = false).
Proof.
  induction fuel as [|fuel IH]; intros lastOfs offset Hf Hlt;
    cbn [TimSort.gallop].
  - repeat split; [exact Hlt | left; reflexivity | simpl; lia].
  - destruct (offset <? maxOfs) eqn:E.
    + apply Nat.ltb_lt in E. destruct (continue offset) eqn:C.
      * destruct (IH offset (2 * offset + 1)) as [H1 [H2 H3]]; [lia | lia |].
        repeat split; [exact H1 | | exact H3].
        destruct H2 as [H2|H2]; [|right; exact H2].
        right. rewrite H2. split; assumption.
      * simpl. repeat split; [exact Hlt | left; reflexivity |].
        intros _. exact C.
    + apply Nat.ltb_ge in E. simpl.
      repeat split; [exact Hlt | left; reflexivity | lia].
Qed.

Lemma bisect_spec (right : nat -> bool) (n : nat) :
  forall fuel lo hi,
    hi - lo <= fuel -> lo <= hi -> hi <= n ->
    (0 < lo -> right (lo - 1) = true) ->
    (hi < n -> right hi = false) ->
    let k := TimSort.bisect fuel right lo hi in
    lo <= k <= hi /\
    (0 < k -> right (k - 1) = true) /\
    (k < n -> right k = false).
Proof.
  induction fuel as [|fuel IH]; intros lo hi Hf Hle Hn Hlo Hhi;
    cbn [TimSort.bisect].
  - assert (lo = hi) by lia. subst lo. repeat split; try lia; assumption.
  - destruct (lo <? hi) eqn:E.
    + apply Nat.ltb_lt in E. rewrite shiftr_1.
      assert (Hm : lo <= lo + (hi - lo) / 2 < hi).
      { split; [lia|].
        assert ((hi - lo) / 2 < hi - lo)
          by (apply Nat.div_lt; lia).
        lia. }
      set (m := lo + (hi - lo) / 2) in *.
      destruct (right m) eqn:Rm.
      * destruct (IH (m + 1) hi) as [H1 [H2 H3]]; try lia.
        { intros _. replace (m + 1 - 1) with m by lia. exact Rm. }
        { exact Hhi. }
        repeat split; try lia; assumption.
      * destruct (IH lo m) as [H1 [H2 H3]]; try lia.
        { exact Hlo. }
        { intros _. exact Rm. }
        repeat split; try lia; assumption.
    + apply Nat.ltb_ge in E. assert (lo = hi) by lia. subst lo.
      repeat split; try lia; assumption.
Qed.

Lemma locate_spec (right : nat -> bool) (n hint : nat) :
  hint < n ->
  let k := locate right n hint in
  k <= n /\
  (0 < k -> right (k - 1) = true) /\
  (k < n -> right k = false).
Proof.
  intros Hh. unfold locate.
  destruct (right hint) eqn:Rh.
  - pose proof (gallop_spec (fun ofs => right (hint + ofs)) (n - hint)
                  (n - hint) 0 1) as G.
    destruct (TimSort.gallop (n - hint) (fun ofs => right (hint + ofs))
                (n - hint) 0 1) as [lastOfs offset].
    simpl in G. destruct G as [G1 [G2 G3]]; [lia | lia |].
    set (offset' := if n - hint <? offset then n - hint else offset).
    assert (Ho : offset' <= n - hint /\ lastOfs < offset' /\
                 (offset' < n - hint -> offset' = offset)).
    { unfold offset'. destruct (n - hint <? offset) eqn:E.
      - apply Nat.ltb_lt in E. repeat split; lia.
      - apply Nat.ltb_ge in E. repeat split; lia. }
    destruct Ho as [Ho1 [Ho2 Ho3]].
    assert (P1 : 0 < lastOfs + hint + 1 -> right (lastOfs + hint + 1 - 1) = true).
    { intros _. replace (lastOfs + hint + 1 - 1) with (hint + lastOfs) by lia.
      destruct G2 as [->|[G2 _]]; [|exact G2].
      rewrite Nat.add_0_r. exact Rh. }
    assert (P2 : offset' + hint < n -> right (offset' + hint) = false).
    { intros Hlt. assert (Hlt' : offset' < n - hint) by lia.
      rewrite (Ho3 Hlt') in *. rewrite Nat.add_comm. apply G3. lia. }
    destruct (bisect_spec right n n (lastOfs + hint + 1) (offset' + hint)
                ltac:(lia) ltac:(lia) ltac:(lia) P1 P2) as [B1 [B2 B3]].
    repeat split; try lia; assumption.
  - pose proof (gallop_spec (fun ofs => negb (right (hint - ofs))) (hint + 1)
                  (hint + 1) 0 1) as G.
    destruct (TimSort.gallop (hint + 1)
                (fun ofs => negb (right (hint - ofs))) (hint + 1) 0 1)
      as [lastOfs offset].
    simpl in G. destruct G as [G1 [G2 G3]]; [lia | lia |].
    set (offset' := if hint + 1 <? offset then hint + 1 else offset).
    assert (Ho : offset' <= hint + 1 /\ lastOfs < offset' /\
                 (offset' < hint + 1 -> offset' = offset)).
    { unfold offset'. destruct (hint + 1 <? offset) eqn:E.
      - apply Nat.ltb_lt in E. repeat split; lia.
      - apply Nat.ltb_ge in E. repeat split; lia. }
    destruct Ho as [Ho1 [Ho2 Ho3]].
    assert (P1 : 0 < hint + 1 - offset' -> right (hint + 1 - offset' - 1) = true).
    { intros Hpos. assert (Hlt' : offset' < hint + 1) by lia.
      rewrite (Ho3 Hlt') in *.
      replace (hint + 1 - offset - 1) with (hint - offset) by lia.
      apply negb_false_iff. apply G3. lia. }
    assert (P2 : hint - lastOfs < n -> right (hint - lastOfs) = false).
    { intros _. destruct G2 as [->|[G2 _]].
      - rewrite Nat.sub_0_r. exact Rh.
      - apply negb_true_iff in G2. exact G2. }
    destruct (bisect_spec right n n (hint + 1 - offset') (hint - lastOfs)
                ltac:(lia) ltac:(lia) ltac:(lia) P1 P2) as [B1 [B2 B3]].
    repeat split; try lia; assumption.
Qed.

Lemma GallopRight_locate (l : list A) (key : A) (hint : nat) :
  TimSort.GallopRight comparefn l key hint
  = locate (fun i => negb (less key (nth i l key))) (List.length l) hint.
Proof.
  unfold TimSort.GallopRight, locate.
  destruct (less key (nth hint l key)); cbn [negb].
  - rewrite (gallop_ext
               (fun ofs => negb (negb (less key (nth (hint - ofs) l key))))
               (fun ofs => less key (nth (hint - ofs) l key)))
      by (intros i; apply negb_involutive).
    reflexivity.
  - reflexivity.
Qed.

Lemma GallopLeft_locate (l : list A) (key : A) (hint : nat) :
  TimSort.GallopLeft comparefn l key hint
  = locate (fun i => less (nth i l key) key) (List.length l) hint.
Proof.
  unfold TimSort.GallopLeft, locate.
  destruct (less (nth hint l key) key); reflexivity.
Qed.

Lemma firstn_snoc_nth (l pre : list A) (x d : A) (k : nat) :
  k <= List.length l -> firstn k l = pre ++ [x] ->
  0 < k /\ nth (k - 1) l d = x.
Proof.
  intros Hk H.
  assert (Hlen : k = List.length pre + 1).
  { rewrite <- (firstn_length_le l Hk), H, length_app. reflexivity. }
  split; [lia|].
  rewrite <- (firstn_skipn k l), H.
  rewrite app_nth1 by (rewrite length_app; simpl; lia).
  replace (k - 1) with (List.length pre) by lia.
  apply nth_middle.
Qed.

Lemma skipn_cons_nth (l post : list A) (x d : A) (k : nat) :
  skipn k l = x :: post -> k < List.length l /\ nth k l d = x.
Proof.
  intros H. split.
  - assert (Hl : List.length (skipn k l) = S (List.length post))
      by (rewrite H; reflexivity).
    rewrite length_skipn in Hl. lia.
  - rewrite <- (Nat.add_0_r k), <- nth_skipn, H. reflexivity.
Qed.

(** What the gallops find, on the two parts they cut the run into. *)
Lemma GallopRight_cut (l : list A) (key : A) (hint : nat) :
  hint < List.length l ->
  let k := TimSort.GallopRight comparefn l key hint in
  k <= List.length l /\
  (forall pre x, firstn k l = pre ++ [x] -> less key x = false) /\
  (forall x post, skipn k l = x :: post -> less key x = true).
Proof.
  intros Hh k. unfold k. rewrite GallopRight_locate.
  pose proof (locate_spec (fun i => negb (less key (nth i l key)))
                (List.length l) hint Hh) as [H1 [H2 H3]].
  split; [exact H1|]. split.
  - intros pre x Hf.
    destruct (firstn_snoc_nth l pre x key _ H1 Hf) as [Hpos Hx].
    specialize (H2 Hpos). rewrite Hx in H2.
    apply negb_true_iff in H2. exact H2.
  - intros x post Hs.
    destruct (skipn_cons_nth l post x key _ Hs) as [Hlt Hx].
    specialize (H3 Hlt). rewrite Hx in H3.
    apply negb_false_iff in H3. exact H3.
Qed.

Lemma GallopLeft_cut (l : list A) (key : A) (hint : nat) :
  hint < List.length l ->
  let k := TimSort.GallopLeft comparefn l key hint in
  k <= List.length l /\
  (forall pre x, firstn k l = pre ++ [x] -> less x key = true) /\
  (forall x post, skipn k l = x :: post -> less x key = false).
Proof.
  intros Hh k. unfold k. rewrite GallopLeft_locate.
  pose proof (locate_spec (fun i => less (nth i l key) key)
                (List.length l) hint Hh) as [H1 [H2 H3]].
  split; [exact H1|]. split.
  - intros pre x Hf.
    destruct (firstn_snoc_nth l pre x key _ H1 Hf) as [Hpos Hx].
    specialize (H2 Hpos). rewrite Hx in H2. exact H2.
  - intros x post Hs.
    destruct (skipn_cons_nth l post x key _ Hs) as [Hlt Hx].
    specialize (H3 Hlt). rewrite Hx in H3. exact H3.
Qed.

End Gallop.

(** *** Ends of lists *)

Ltac norm := repeat (progress (rewrite <- ?app_assoc; cbn [app])).

Section ListEnds.
Context {A : Type}.

Lemma last_app_r (l1 l2 : list A) (d : A) :
  l2 <> [] -> last (l1 ++ l2) d = last l2 d.
Proof.
  intros H. destruct (exists_last H) as [pre [z ->]].
  rewrite app_assoc, !last_last. reflexivity.
Qed.

Lemma last_skipn (k : nat) (l : list A) (d : A) :
  skipn k l <> [] -> last (skipn k l) d = last l d.
Proof.
  intros H. rewrite <- (firstn_skipn k l) at 2.
  symmetry. apply last_app_r. exact H.
Qed.

Lemma skipn_nil_firstn (k : nat) (l : list A) :
  skipn k l = [] -> firstn k l = l.
Proof.
  intros H. rewrite <- (firstn_skipn k l) at 2. rewrite H, app_nil_r.
  reflexivity.
Qed.

Lemma snoc_last (l : list A) (d : A) :
  l <> [] -> exists pre, l = pre ++ [last l d].
Proof.
  intros H. destruct (exists_last H) as [pre [z ->]].
  exists pre. rewrite last_last. reflexivity.
Qed.

End ListEnds.

Section Merges.
Context {A : Type} (lt : A -> A -> bool).

Lemma after_last (p : written) (tag : bool) (l : list A) (d : A) :
  l <> [] -> written_after p tag l = Some (tag, last l d).
Proof.
  intros H. destruct (exists_last H) as [pre [z ->]].
  rewrite after_snoc, last_last. reflexivity.
Qed.

(** [e] may follow [chunk], itself written written_after [p]. *)
Lemma junction_after (p : written) (tag : bool) (chunk : list A)
    (e : bool * A) (d : A) :
  (chunk = [] -> junction lt p e) ->
  (chunk <> [] -> junction lt (Some (tag, last chunk d)) e) ->
  junction lt (written_after p tag chunk) e.
Proof.
  intros H0 H1. destruct chunk as [|x chunk].
  - apply H0. reflexivity.
  - rewrite (after_last _ _ _ d) by discriminate. apply H1. discriminate.
Qed.

End Merges.

(** *** [MergeLow] *)

Section Low.
Context {A : Type} (comparefn : A -> A -> num).
Local Abbreviation less := (TimSort.less comparefn).
Local Abbreviation JMl := (JM less).

Lemma prepend_ok (lt : A -> A -> bool) (d : A) (p : written)
    (chunk a b sb : list A) (t : TimSort.Turn) :
  a <> [] ->
  first_ok lt p true chunk ->
  turn_ok lt d (written_after p true chunk) a b sb t ->
  turn_ok lt d p (chunk ++ a) b sb (TimSort.prepend chunk t).
Proof.
  intros Ha Hc Ht. destruct t as [rest|w a1 b1 nA nB]; simpl in *.
  - rewrite <- app_assoc. apply JM_As; assumption.
  - destruct Ht as [H1 [H2 [H3 [H4 [H5 [p' [H6 [H7 H8]]]]]]]].
    repeat split; try assumption.
    + rewrite length_app. lia.
    + rewrite H4. symmetry. apply last_app_r. exact Ha.
    + exists p'. repeat split; try assumption.
      intros out' Hout. rewrite <- app_assoc. apply JM_As; [exact Hc|].
      apply H8. exact Hout.
Qed.

Lemma gallop_low_B_ok (d : A) (p : written) (y : A) (a b' sb : list A)
    (n : nat) :
  2 <= List.length a ->
  first_ok less p false (y :: b') ->
  first_ok less (Some (false, y)) true a ->
  less (last (y :: b') d) (last a d) = true ->
  first_ok less (Some (true, last a d)) false sb ->
  turn_ok less d p a (y :: b') sb (TimSort.gallop_low_B comparefn y a b' n).
Proof.
  intros La Hpb Hya Hlast Hsb.
  destruct a as [|x a']; [simpl in La; lia|].
  unfold TimSort.gallop_low_B.
  destruct b' as [|y' b''].
  - (* nothing left of b *)
    cbn [turn_ok app]. constructor; [exact Hpb|].
    apply (JM_As_end less (x :: a')); [exact Hya|].
    rewrite (after_last _ _ _ d) by discriminate.
    apply JM_end_B. exact Hsb.
  - cbv beta iota zeta.
    assert (Hlast' : less (last (y' :: b'') d) (last (x :: a') d) = true)
      by exact Hlast.
    clear Hlast. remember (y' :: b'') as b' eqn:Hb'.
    assert (Hne : b' <> []) by (subst b'; discriminate).
    assert (Lb : 1 <= List.length b') by (subst b'; simpl; lia).
    clear Hb' y' b''.
    pose proof (GallopLeft_cut comparefn b' x 0 ltac:(lia)) as [C1 [C2 C3]].
    set (k := TimSort.GallopLeft comparefn b' x 0) in *.
    assert (Eb : b' = firstn k b' ++ skipn k b')
      by (symmetry; apply firstn_skipn).
    (* x may follow what the turn wrote of b *)
    assert (Hx : junction less (written_after (Some (false, y)) false (firstn k b'))
                   (true, x)).
    { apply (junction_after less _ _ _ _ d).
      - intros _. exact Hya.
      - intros Hn. destruct (snoc_last _ d Hn) as [pre Hpre].
        simpl. apply (C2 pre). exact Hpre. }
    destruct (skipn k b') as [|z post] eqn:Es.
    + (* b is used up *)
      rewrite app_nil_r in Eb. rewrite <- Eb in *.
      cbn [turn_ok app]. rewrite <- app_assoc.
      constructor; [exact Hpb|].
      apply JM_Bs; [apply first_ok_same|].
      apply (JM_As_end less (x :: a')); [exact Hx|].
      rewrite (after_last _ _ _ d) by discriminate.
      apply JM_end_B. exact Hsb.
    + assert (Hzx : less z x = false) by (apply (C3 z post); reflexivity).
      assert (Elast : last (z :: post) d = last b' d).
      { rewrite <- Es. apply last_skipn. rewrite Es. discriminate. }
      destruct a' as [|x' [|x'' a3]]; [simpl in La; lia | |].
      * (* one element of a is left: it goes last *)
        cbn [turn_ok]. rewrite Eb at 1. norm.
        constructor; [exact Hpb|].
        apply JM_Bs; [apply first_ok_same|].
        constructor; [exact Hx|].
        apply (JM_Bs less (z :: post) (Some (true, x)) [x'] sb (x' :: sb)).
        { exact Hzx. }
        rewrite (after_last _ _ _ d) by discriminate.
        constructor.
        { cbn [junction fst snd]. rewrite Elast. exact Hlast'. }
        apply JM_end_B. exact Hsb.
      * cbn [turn_ok]. repeat split.
        -- simpl. lia.
        -- simpl. lia.
        -- apply (f_equal (@List.length A)) in Eb.
           rewrite length_app in Eb. simpl in *. lia.
        -- rewrite Elast. destruct b'; [contradiction|reflexivity].
        -- exists (Some (true, x)). repeat split.
           ++ exact Hzx.
           ++ intros out' Hout. rewrite Eb at 1. norm.
              constructor; [exact Hpb|].
              apply JM_Bs; [apply first_ok_same|].
              constructor; [exact Hx|]. exact Hout.
Qed.

Lemma fst_emit (chunk : list A) (r : list A * nat) :
  fst (TimSort.emit chunk r) = chunk ++ fst r.
Proof. reflexivity. Qed.

Lemma gallop_low_ok (d : A) (p : written) (a b sb : list A) :
  2 <= List.length a -> 1 <= List.length b ->
  less (last b d) (last a d) = true ->
  first_ok less p true a -> first_ok less p false b ->
  first_ok less (Some (true, last a d)) false sb ->
  turn_ok less d p a b sb (TimSort.gallop_low comparefn a b).
Proof.
  intros La Lb Hlast Hpa Hpb Hsb.
  destruct b as [|y b']; [simpl in Lb; lia|].
  unfold TimSort.gallop_low. cbv beta iota zeta.
  pose proof (GallopRight_cut comparefn a y 0 ltac:(lia)) as [C1 [C2 C3]].
  set (k := TimSort.GallopRight comparefn a y 0) in *.
  assert (Ea : a = firstn k a ++ skipn k a)
    by (symmetry; apply firstn_skipn).
  assert (Hwon : first_ok less p true (firstn k a)).
  { destruct a as [|x a']; [simpl in La; lia|].
    destruct k; [exact I | exact Hpa]. }
  (* y may follow what the turn wrote of a *)
  assert (Hy : junction less (written_after p true (firstn k a)) (false, y)).
  { apply (junction_after less _ _ _ _ d).
    - intros _. exact Hpb.
    - intros Hn. destruct (snoc_last _ d Hn) as [pre Hpre].
      simpl. apply (C2 pre). exact Hpre. }
  assert (Hlen : List.length a
                 = List.length (firstn k a) + List.length (skipn k a)).
  { rewrite Ea at 1. apply length_app. }
  assert (Hrest : 2 <= List.length (skipn k a) ->
            turn_ok less d p a (y :: b') sb
              (TimSort.prepend (firstn k a)
                 (TimSort.gallop_low_B comparefn y (skipn k a) b' k))).
  { intros L2. rewrite Ea at 1.
    assert (Hne : skipn k a <> [])
      by (intros E; rewrite E in L2; simpl in L2; lia).
    apply prepend_ok; [exact Hne | exact Hwon |].
    apply gallop_low_B_ok.
    - exact L2.
    - exact Hy.
    - destruct (skipn k a) as [|z post] eqn:Es; [exact I|].
      apply (C3 z post). reflexivity.
    - rewrite last_skipn by exact Hne. exact Hlast.
    - rewrite last_skipn by exact Hne. exact Hsb. }
  destruct k as [|k'] eqn:Ek.
  - apply Hrest. rewrite skipn_O. exact La.
  - destruct (skipn (S k') a) as [|z [|z' post]] eqn:Es.
    + (* a is used up *)
      rewrite app_nil_r in Ea. rewrite <- Ea in *.
      cbn [turn_ok]. norm.
      apply (JM_As_end less a); [exact Hpa|].
      apply JM_end_B. exact Hy.
    + (* one element of a is left: it goes last *)
      assert (Ez : last a d = z).
      { rewrite Ea. rewrite last_app_r by discriminate. reflexivity. }
      cbn [turn_ok]. rewrite Ea at 1. norm.
      apply JM_As; [exact Hwon|].
      apply (JM_Bs less (y :: b') _ [z] sb (z :: sb)).
      { exact Hy. }
      rewrite (after_last _ _ _ d) by discriminate.
      constructor.
      { cbn [junction fst snd]. rewrite <- Ez. exact Hlast. }
      apply JM_end_B. rewrite <- Ez. exact Hsb.
    + apply Hrest. simpl. lia.
Qed.

Lemma merge_low_JM (d : A) :
  forall fuel mode a b minGallop p sb,
    2 <= List.length a -> 1 <= List.length b ->
    List.length a + List.length b <= fuel ->
    less (last b d) (last a d) = true ->
    first_ok less p true a -> first_ok less p false b ->
    first_ok less (Some (true, last a d)) false sb ->
    JMl p a (b ++ sb)
      (fst (TimSort.merge_low comparefn fuel mode a b minGallop) ++ sb).
Proof.
  induction fuel as [|fuel IH];
    intros mode a b minGallop p sb La Lb Lf Hlast Hpa Hpb Hsb.
  { lia. }
  destruct mode as [nofWinsA nofWinsB|].
  - destruct a as [|x a']; [simpl in La; lia|].
    destruct b as [|y b']; [simpl in Lb; lia|].
    destruct a' as [|x' a'']; [simpl in La; lia|].
    cbn [TimSort.merge_low].
    destruct (less y x) eqn:E.
    + destruct b' as [|y' b''].
      * cbn [fst]. norm. constructor; [exact Hpb|].
        apply (JM_As_end less (x :: x' :: a'') (Some (false, y)) sb sb).
        { exact E. }
        rewrite (after_last _ _ _ d) by discriminate.
        apply JM_end_B. exact Hsb.
      * assert (Hrec : forall mode mg,
                   JMl (Some (false, y)) (x :: x' :: a'') ((y' :: b'') ++ sb)
                     (fst (TimSort.merge_low comparefn fuel mode
                             (x :: x' :: a'') (y' :: b'') mg) ++ sb)).
        { intros mode mg.
          apply IH; simpl in *; try lia; try assumption; exact I. }
        destruct (minGallop <=? S nofWinsB); rewrite fst_emit; norm;
          (constructor; [exact Hpb | apply Hrec]).
    + destruct a'' as [|x'' a3].
      * cbn [fst]. norm. constructor; [exact Hpa|].
        apply (JM_Bs less (y :: b') (Some (true, x)) [x'] sb (x' :: sb)).
        { exact E. }
        rewrite (after_last _ _ _ d) by discriminate.
        constructor; [exact Hlast|].
        apply JM_end_B. exact Hsb.
      * assert (Hrec : forall mode mg,
                   JMl (Some (true, x)) (x' :: x'' :: a3)
                     ((y :: b') ++ sb)
                     (fst (TimSort.merge_low comparefn fuel mode
                             (x' :: x'' :: a3) (y :: b') mg) ++ sb)).
        { intros mode mg.
          apply IH; simpl in *; try lia; try assumption; exact I. }
        destruct (minGallop <=? S nofWinsA); rewrite fst_emit; norm;
          (constructor; [exact Hpa | apply Hrec]).
  - pose proof (gallop_low_ok d p a b sb La Lb Hlast Hpa Hpb Hsb) as Ht.
    destruct a as [|x a']; [simpl in La; lia|].
    destruct b as [|y b']; [simpl in Lb; lia|].
    cbn [TimSort.merge_low].
    destruct (TimSort.gallop_low comparefn (x :: a') (y :: b'))
      as [rest|w a1 b1 nA nB].
    + exact Ht.
    + destruct Ht as [H1 [H2 [H3 [H4 [H5 [p' [H6 [H7 H8]]]]]]]].
      assert (Hrec : forall mode mg,
                 JMl p' a1 (b1 ++ sb)
                   (fst (TimSort.merge_low comparefn fuel mode a1 b1 mg)
                    ++ sb)).
      { intros mode mg. apply IH; try assumption.
        - simpl in *. lia.
        - rewrite H4, H5. exact Hlast.
        - rewrite H4. exact Hsb. }
      destruct ((TimSort.kMinGallopWins <=? nA)
                || (TimSort.kMinGallopWins <=? nB));
        rewrite fst_emit, <- app_assoc; apply H8; apply Hrec.
Qed.

Lemma MergeLow_JM (d : A) (a b : list A) (minGallop : nat) (p : written)
    (sb : list A) :
  1 <= List.length a -> 1 <= List.length b ->
  less (hd d b) (hd d a) = true ->
  less (last b d) (last a d) = true ->
  first_ok less p false b ->
  first_ok less (Some (true, last a d)) false sb ->
  JMl p a (b ++ sb) (fst (TimSort.MergeLow comparefn a b minGallop) ++ sb).
Proof.
  intros La Lb Hhd Hlast Hpb Hsb.
  destruct b as [|y b']; [simpl in Lb; lia|].
  destruct a as [|x a']; [simpl in La; lia|].
  unfold TimSort.MergeLow. simpl in Hhd.
  assert (Hall : JMl (Some (false, y)) (x :: a') sb ((x :: a') ++ sb)).
  { apply (JM_As_end less (x :: a')); [exact Hhd|].
    rewrite (after_last _ _ _ d) by discriminate.
    apply JM_end_B. exact Hsb. }
  destruct b' as [|y' b''].
  - cbn [fst]. norm. constructor; [exact Hpb | exact Hall].
  - destruct a' as [|x' a''].
    + cbn [fst]. norm.
      apply (JM_Bs less (y :: y' :: b'') p [x] sb (x :: sb)).
      { exact Hpb. }
      rewrite (after_last _ _ _ d) by discriminate.
      constructor; [exact Hlast|].
      apply JM_end_B. exact Hsb.
    + rewrite fst_emit. norm. constructor; [exact Hpb|].
      apply (merge_low_JM d _ _ (x :: x' :: a'') (y' :: b''));
        simpl in *; try lia; try assumption; exact I.
Qed.

End Low.

(** *** [MergeHigh] *)

Section High.
Context {A : Type} (comparefn : A -> A -> num).
Local Abbreviation less := (TimSort.less comparefn).

Local Abbreviation more := (backwards comparefn).
Local Abbreviation JMh := (JM (backwards comparefn)).

Lemma last_rev (l : list A) (d : A) : last (rev l) d = hd d l.
Proof.
  destruct l as [|x l]; [reflexivity|]. simpl. apply last_last.
Qed.

Lemma hd_rev (l : list A) (d : A) : hd d (rev l) = last l d.
Proof.
  rewrite <- (rev_involutive l) at 2. symmetry. apply last_rev.
Qed.

Lemma GallopRight_cut_rev (ra : list A) (key : A) :
  1 <= List.length ra ->
  let w := List.length ra
           - TimSort.GallopRight comparefn (rev ra) key (List.length ra - 1) in
  (forall pre z, firstn w ra = pre ++ [z] -> less key z = true) /\
  (forall z post, skipn w ra = z :: post -> less key z = false).
Proof.
  intros L w.
  pose proof (GallopRight_cut comparefn (rev ra) key (List.length ra - 1)
                ltac:(rewrite length_rev; lia)) as [C1 [C2 C3]].
  set (k := TimSort.GallopRight comparefn (rev ra) key (List.length ra - 1))
    in *.
  split.
  - intros pre z H. apply (C3 z (rev pre)).
    rewrite skipn_rev. fold w. rewrite H, rev_app_distr. reflexivity.
  - intros z post H. apply (C2 (rev post) z).
    rewrite firstn_rev. fold w. rewrite H. reflexivity.
Qed.

Lemma GallopLeft_cut_rev (rb : list A) (key : A) :
  1 <= List.length rb ->
  let w := List.length rb
           - TimSort.GallopLeft comparefn (rev rb) key (List.length rb - 1) in
  (forall pre z, firstn w rb = pre ++ [z] -> less z key = false) /\
  (forall z post, skipn w rb = z :: post -> less z key = true).
Proof.
  intros L w.
  pose proof (GallopLeft_cut comparefn (rev rb) key (List.length rb - 1)
                ltac:(rewrite length_rev; lia)) as [C1 [C2 C3]].
  set (k := TimSort.GallopLeft comparefn (rev rb) key (List.length rb - 1))
    in *.
  split.
  - intros pre z H. apply (C3 z (rev pre)).
    rewrite skipn_rev. fold w. rewrite H, rev_app_distr. reflexivity.
  - intros z post H. apply (C2 (rev post) z).
    rewrite firstn_rev. fold w. rewrite H. reflexivity.
Qed.

Lemma prepend_hi_B (d : A) (p : written) (chunk ra rb sa : list A)
    (t : TimSort.Turn) :
  ra <> [] ->
  first_ok more p false chunk ->
  turn_hi more d (written_after p false chunk) ra rb sa t ->
  turn_hi more d p (chunk ++ ra) rb sa (TimSort.prepend chunk t).
Proof.
  intros Ha Hc Ht. destruct t as [rest|w a1 b1 nA nB]; simpl in *.
  - rewrite <- !app_assoc. apply JM_Bs; assumption.
  - destruct Ht as [H1 [H2 [H3 [H4 [H5 [p' [H6 [H7 H8]]]]]]]].
    repeat split; try assumption.
    + rewrite length_app. lia.
    + rewrite H4. symmetry. apply last_app_r. exact Ha.
    + exists p'. repeat split; try assumption.
      intros out' Hout. rewrite <- !app_assoc. apply JM_Bs; [exact Hc|].
      apply H8. exact Hout.
Qed.

Lemma prepend_hi_A (d : A) (p : written) (chunk ra rb sa : list A)
    (t : TimSort.Turn) :
  rb <> [] ->
  first_ok more p true chunk ->
  turn_hi more d (written_after p true chunk) ra rb sa t ->
  turn_hi more d p ra (chunk ++ rb) sa (TimSort.prepend chunk t).
Proof.
  intros Hb Hc Ht. destruct t as [rest|w a1 b1 nA nB]; simpl in *.
  - rewrite <- !app_assoc. apply JM_As; assumption.
  - destruct Ht as [H1 [H2 [H3 [H4 [H5 [p' [H6 [H7 H8]]]]]]]].
    repeat split; try assumption.
    + rewrite length_app. lia.
    + rewrite H5. symmetry. apply last_app_r. exact Hb.
    + exists p'. repeat split; try assumption.
      intros out' Hout. rewrite <- !app_assoc. apply JM_As; [exact Hc|].
      apply H8. exact Hout.
Qed.

Lemma gallop_high_C_ok (d : A) (p : written) (x : A) (ra' rb sa : list A)
    (nA nB : nat) :
  2 <= List.length rb ->
  junction more p (false, x) ->
  first_ok more (Some (false, x)) true rb ->
  more (last (x :: ra') d) (last rb d) = true ->
  first_ok more (Some (true, last rb d)) false sa ->
  turn_hi more d p (x :: ra') rb sa (TimSort.gallop_high_C x ra' rb nA nB).
Proof.
  intros Lb Hx Hrb Hlast Hsa. unfold TimSort.gallop_high_C.
  assert (Hne : rb <> []) by (intros E; rewrite E in Lb; simpl in Lb; lia).
  destruct ra' as [|x' ra''].
  - cbn [turn_hi]. norm. constructor; [exact Hx|].
    apply (JM_As_end more rb); [exact Hrb|].
    rewrite (after_last _ _ _ d) by exact Hne.
    apply JM_end_B. exact Hsa.
  - cbn [turn_hi]. repeat split; simpl; try lia.
    exists (Some (false, x)). repeat split.
    + exact Hrb.
    + intros out' Hout. constructor; assumption.
Qed.

Lemma gallop_high_B_ok (d : A) (p : written) (y : A) (ra rb' sa : list A)
    (n : nat) :
  1 <= List.length ra -> 1 <= List.length rb' ->
  first_ok more p true (y :: rb') ->
  first_ok more (Some (true, y)) false ra ->
  more (last ra d) (last (y :: rb') d) = true ->
  first_ok more (Some (true, last (y :: rb') d)) false sa ->
  turn_hi more d p ra (y :: rb') sa (TimSort.gallop_high_B comparefn y ra rb' n).
Proof.
  intros La Lb Hpa Hyb Hlast Hsa.
  destruct ra as [|x ra']; [simpl in La; lia|].
  unfold TimSort.gallop_high_B.
  assert (Hlast' : more (last (x :: ra') d) (last rb' d) = true).
  { destruct rb'; [simpl in Lb; lia | exact Hlast]. }
  assert (Hsa' : first_ok more (Some (true, last rb' d)) false sa).
  { destruct rb'; [simpl in Lb; lia | exact Hsa]. }
  assert (Hcopy :
            forall chunk z,
              junction more (written_after (Some (true, y)) true chunk) (false, x) ->
              last (chunk ++ [z]) d = last rb' d ->
              JMh p (y :: chunk ++ [z]) ((x :: ra') ++ sa)
                ((y :: chunk ++ (x :: ra') ++ [z]) ++ sa)).
  { intros chunk z Hj Hz. norm. constructor; [exact Hpa|].
    apply JM_As; [apply first_ok_same|].
    apply (JM_Bs more (x :: ra') _ [z] sa (z :: sa)).
    { exact Hj. }
    rewrite (after_last _ _ _ d) by discriminate.
    rewrite last_last in Hz. subst z.
    constructor; [exact Hlast'|].
    apply JM_end_B. exact Hsa'. }
  destruct rb' as [|z [|z' rb3]] eqn:Erb; [simpl in Lb; lia | |].
  - (* one element of b is left: it goes first *)
    cbn [turn_hi]. apply (Hcopy [] z); [exact Hyb | reflexivity].
  - rewrite <- Erb in *. clear Hlast Hsa.
    assert (L2 : 2 <= List.length rb') by (rewrite Erb; simpl; lia).
    assert (Hne : rb' <> []) by (rewrite Erb; discriminate).
    clear Erb z z' rb3. cbv beta iota zeta.
    pose proof (GallopLeft_cut_rev rb' x ltac:(lia)) as [C2 C3].
    set (w := List.length rb'
              - TimSort.GallopLeft comparefn (rev rb') x
                  (List.length rb' - 1)) in *.
    assert (Eb : rb' = firstn w rb' ++ skipn w rb')
      by (symmetry; apply firstn_skipn).
    assert (Hlen : List.length rb'
                   = List.length (firstn w rb') + List.length (skipn w rb')).
    { rewrite Eb at 1. apply length_app. }
    (* x may follow what the turn wrote of b *)
    assert (Hx : junction more (written_after (Some (true, y)) true (firstn w rb'))
                   (false, x)).
    { apply (junction_after more _ _ _ _ d).
      - intros _. exact Hyb.
      - intros Hn. destruct (snoc_last _ d Hn) as [pre Hpre].
        cbn [junction fst snd]. unfold backwards. apply (C2 pre). exact Hpre. }
    assert (Htail : 2 <= List.length (skipn w rb') ->
              turn_hi more d p (x :: ra') (y :: rb') sa
                (TimSort.prepend (y :: firstn w rb')
                   (TimSort.gallop_high_C x ra' (skipn w rb') n w))).
    { intros L. rewrite Eb at 1.
      assert (Hn : skipn w rb' <> [])
        by (intros E; rewrite E in L; simpl in L; lia).
      apply (prepend_hi_A d p (y :: firstn w rb')); [exact Hn | exact Hpa |].
      apply gallop_high_C_ok.
      - exact L.
      - exact Hx.
      - destruct (skipn w rb') as [|z post] eqn:Es; [exact I|].
        cbn [first_ok junction fst snd]. unfold backwards.
        apply (C3 z post). reflexivity.
      - rewrite last_skipn by exact Hn. exact Hlast'.
      - rewrite last_skipn by exact Hn. exact Hsa'. }
    destruct w as [|w'] eqn:Ew.
    + apply Htail. rewrite skipn_O. exact L2.
    + destruct (skipn (S w') rb') as [|z [|z' post]] eqn:Es.
      * (* b is used up *)
        rewrite app_nil_r in Eb. rewrite <- Eb in *.
        cbn [turn_hi]. norm. constructor; [exact Hpa|].
        apply (JM_As_end more rb'); [apply first_ok_same|].
        apply JM_end_B. exact Hx.
      * cbn [turn_hi]. rewrite Eb at 1.
        apply (Hcopy (firstn (S w') rb') z); [exact Hx|].
        rewrite <- Eb. reflexivity.
      * apply Htail. simpl. lia.
Qed.

Lemma gallop_high_ok (d : A) (p : written) (ra rb sa : list A) :
  1 <= List.length ra -> 2 <= List.length rb ->
  more (last ra d) (last rb d) = true ->
  first_ok more p true rb -> first_ok more p false ra ->
  first_ok more (Some (true, last rb d)) false sa ->
  turn_hi more d p ra rb sa (TimSort.gallop_high comparefn ra rb).
Proof.
  intros La Lb Hlast Hpb Hpa Hsa.
  destruct rb as [|y rb']; [simpl in Lb; lia|].
  unfold TimSort.gallop_high. cbv beta iota zeta.
  pose proof (GallopRight_cut_rev ra y La) as [C2 C3].
  set (w := List.length ra
            - TimSort.GallopRight comparefn (rev ra) y (List.length ra - 1))
    in *.
  assert (Ea : ra = firstn w ra ++ skipn w ra)
    by (symmetry; apply firstn_skipn).
  assert (Hwon : first_ok more p false (firstn w ra)).
  { destruct ra as [|x ra']; [simpl in La; lia|].
    destruct w; [exact I | exact Hpa]. }
  (* y may follow what the turn wrote of a *)
  assert (Hy : junction more (written_after p false (firstn w ra)) (true, y)).
  { apply (junction_after more _ _ _ _ d).
    - intros _. exact Hpb.
    - intros Hn. destruct (snoc_last _ d Hn) as [pre Hpre].
      cbn [junction fst snd]. unfold backwards. apply (C2 pre). exact Hpre. }
  destruct (skipn w ra) as [|x post] eqn:Es.
  - (* a is used up *)
    rewrite app_nil_r in Ea. rewrite <- Ea in *.
    cbn [turn_hi]. norm.
    apply (JM_Bs more ra p (y :: rb') sa ((y :: rb') ++ sa)).
    { exact Hpa. }
    apply (JM_As_end more (y :: rb')); [exact Hy|].
    rewrite (after_last _ _ _ d) by discriminate.
    apply JM_end_B. exact Hsa.
  - rewrite Ea at 1.
    apply prepend_hi_B; [discriminate | exact Hwon |].
    apply gallop_high_B_ok.
    + simpl. lia.
    + simpl in Lb. lia.
    + exact Hy.
    + cbn [first_ok junction fst snd]. unfold backwards.
      apply (C3 x post). reflexivity.
    + rewrite <- Es. rewrite last_skipn by (rewrite Es; discriminate).
      exact Hlast.
    + exact Hsa.
Qed.

Lemma merge_high_JM (d : A) :
  forall fuel mode ra rb minGallop p sa,
    1 <= List.length ra -> 2 <= List.length rb ->
    List.length ra + List.length rb <= fuel ->
    more (last ra d) (last rb d) = true ->
    first_ok more p true rb -> first_ok more p false ra ->
    first_ok more (Some (true, last rb d)) false sa ->
    JMh p rb (ra ++ sa)
      (fst (TimSort.merge_high comparefn fuel mode ra rb minGallop) ++ sa).
Proof.
  induction fuel as [|fuel IH];
    intros mode ra rb minGallop p sa La Lb Lf Hlast Hpb Hpa Hsa.
  { lia. }
  destruct mode as [nofWinsA nofWinsB|].
  - destruct ra as [|x ra']; [simpl in La; lia|].
    destruct rb as [|y rb']; [simpl in Lb; lia|].
    destruct rb' as [|y' rb'']; [simpl in Lb; lia|].
    cbn [TimSort.merge_high].
    destruct (less y x) eqn:E.
    + destruct ra' as [|x' ra''].
      * cbn [fst]. norm. constructor; [exact Hpa|].
        apply (JM_As_end more (y :: y' :: rb'') (Some (false, x)) sa sa).
        { exact E. }
        rewrite (after_last _ _ _ d) by discriminate.
        apply JM_end_B. exact Hsa.
      * assert (Hrec : forall mode mg,
                   JMh (Some (false, x)) (y :: y' :: rb'')
                     ((x' :: ra'') ++ sa)
                     (fst (TimSort.merge_high comparefn fuel mode
                             (x' :: ra'') (y :: y' :: rb'') mg) ++ sa)).
        { intros mode mg.
          apply IH; simpl in *; try lia; try assumption; exact I. }
        destruct (minGallop <=? S nofWinsA); rewrite fst_emit; norm;
          (constructor; [exact Hpa | apply Hrec]).
    + destruct rb'' as [|y'' rb3].
      * cbn [fst]. norm. constructor; [exact Hpb|].
        apply (JM_Bs more (x :: ra') (Some (true, y)) [y'] sa (y' :: sa)).
        { exact E. }
        rewrite (after_last _ _ _ d) by discriminate.
        constructor; [exact Hlast|].
        apply JM_end_B. exact Hsa.
      * assert (Hrec : forall mode mg,
                   JMh (Some (true, y)) (y' :: y'' :: rb3)
                     ((x :: ra') ++ sa)
                     (fst (TimSort.merge_high comparefn fuel mode
                             (x :: ra') (y' :: y'' :: rb3) mg) ++ sa)).
        { intros mode mg.
          apply IH; simpl in *; try lia; try assumption; exact I. }
        destruct (minGallop <=? S nofWinsB); rewrite fst_emit; norm;
          (constructor; [exact Hpb | apply Hrec]).
  - pose proof (gallop_high_ok d p ra rb sa La Lb Hlast Hpb Hpa Hsa) as Ht.
    destruct ra as [|x ra']; [simpl in La; lia|].
    destruct rb as [|y rb']; [simpl in Lb; lia|].
    cbn [TimSort.merge_high].
    destruct (TimSort.gallop_high comparefn (x :: ra') (y :: rb'))
      as [rest|w a1 b1 nA nB].
    + exact Ht.
    + destruct Ht as [H1 [H2 [H3 [H4 [H5 [p' [H6 [H7 H8]]]]]]]].
      assert (Hrec : forall mode mg,
                 JMh p' b1 (a1 ++ sa)
                   (fst (TimSort.merge_high comparefn fuel mode a1 b1 mg)
                    ++ sa)).
      { intros mode mg. apply IH; try assumption.
        - simpl in *. lia.
        - rewrite H4, H5. exact Hlast.
        - rewrite H5. exact Hsa. }
      destruct ((TimSort.kMinGallopWins <=? nA)
                || (TimSort.kMinGallopWins <=? nB));
        rewrite fst_emit, <- app_assoc; apply H8; apply Hrec.
Qed.

Lemma MergeHigh_JM (d : A) (a b : list A) (minGallop : nat) (p : written)
    (sa : list A) :
  1 <= List.length a -> 1 <= List.length b ->
  less (last b d) (last a d) = true ->
  less (hd d b) (hd d a) = true ->
  first_ok more p false (rev a) ->
  first_ok more (Some (true, hd d b)) false sa ->
  JMh p (rev b) (rev a ++ sa)
    (rev (fst (TimSort.MergeHigh comparefn a b minGallop)) ++ sa).
Proof.
  intros La Lb Hlast Hhd Hpa Hsa.
  unfold TimSort.MergeHigh.
  rewrite <- (hd_rev b d), <- (hd_rev a d) in Hlast.
  rewrite <- (last_rev b d), <- (last_rev a d) in Hhd.
  rewrite <- (last_rev b d) in Hsa.
  assert (Lra : 1 <= List.length (rev a)) by (rewrite length_rev; exact La).
  assert (Lrb : 1 <= List.length (rev b)) by (rewrite length_rev; exact Lb).
  destruct (rev a) as [|x ra']; [simpl in Lra; lia|].
  destruct (rev b) as [|y rb']; [simpl in Lrb; lia|].
  simpl in Hlast.
  assert (Hall : JMh (Some (false, x)) (y :: rb') sa ((y :: rb') ++ sa)).
  { apply (JM_As_end more (y :: rb')); [exact Hlast|].
    rewrite (after_last _ _ _ d) by discriminate.
    apply JM_end_B. exact Hsa. }
  destruct ra' as [|x' ra''].
  - cbn [fst]. rewrite rev_involutive. norm.
    constructor; [exact Hpa | exact Hall].
  - destruct rb' as [|y' rb''].
    + cbn [fst]. rewrite rev_involutive. norm.
      apply (JM_Bs more (x :: x' :: ra'') p [y] sa (y :: sa)).
      { exact Hpa. }
      rewrite (after_last _ _ _ d) by discriminate.
      constructor; [exact Hhd|].
      apply JM_end_B. exact Hsa.
    + cbn [fst]. rewrite rev_involutive, fst_emit. norm.
      constructor; [exact Hpa|].
      apply (merge_high_JM d _ _ (x' :: ra'') (y :: y' :: rb''));
        simpl in *; try lia; try assumption; exact I.
Qed.

End High.

(** *** [MergeAt] *)

Section Arrangement.
Context {A : Type} (comparefn : A -> A -> num).
Local Abbreviation less := (TimSort.less comparefn).
Local Abbreviation more := (backwards comparefn).
Local Abbreviation Merged := (Merged comparefn).
Local Abbreviation Arr := (Arr comparefn).

Lemma Merged_length (a b out : list A) :
  Merged a b out -> List.length out = List.length a + List.length b.
Proof.
  intros [H|H]; apply JM_perm, Permutation_length in H.
  - rewrite H. apply length_app.
  - rewrite length_app, !length_rev in H. lia.
Qed.

Lemma Arr_length (s r : list A) : Arr s r -> List.length r = List.length s.
Proof.
  induction 1 as [|x|sa sb a b out _ IHa _ IHb Hm]; try reflexivity.
  rewrite (Merged_length _ _ _ Hm), length_app. lia.
Qed.

Lemma MergeAt_Merged (a b : list A) (minGallop : nat) :
  1 <= List.length a -> 1 <= List.length b ->
  Merged a b (fst (TimSort.MergeAt comparefn a b minGallop)).
Proof.
  intros La Lb. unfold TimSort.MergeAt.
  destruct b as [|keyRight b0] eqn:Eb; [simpl in Lb; lia|].
  rewrite <- Eb in *. assert (Hhd : forall d, hd d b = keyRight)
    by (intros d; rewrite Eb; reflexivity).
  assert (Hbne : b <> []) by (rewrite Eb; discriminate).
  clear Eb b0. cbv beta iota zeta.
  assert (Hane : a <> []) by (intros E; rewrite E in La; simpl in La; lia).
  pose proof (GallopRight_cut comparefn a keyRight 0 ltac:(lia))
    as [C1 [C2 C3]].
  set (k := TimSort.GallopRight comparefn a keyRight 0) in *.
  assert (Ea : a = firstn k a ++ skipn k a)
    by (symmetry; apply firstn_skipn).
  (* the two runs one written_after the other *)
  assert (Hcat : less (hd keyRight b) (last a keyRight) = false ->
                 Merged a b (a ++ b)).
  { intros H. left. apply (JM_As_end less a); [apply first_ok_None|].
    apply JM_end_B. rewrite (after_last _ _ _ keyRight) by exact Hane.
    destruct b; [exact I | exact H]. }
  destruct (skipn k a) as [|x a0] eqn:Es.
  { cbn [fst]. apply Hcat. rewrite Hhd.
    destruct (snoc_last a keyRight Hane) as [pre Hpre].
    apply (C2 pre). rewrite app_nil_r in Ea. rewrite <- Ea. exact Hpre. }
  rewrite <- Es in *.
  assert (Hxa : hd keyRight (skipn k a) = x) by (rewrite Es; reflexivity).
  assert (Hkx : less keyRight x = true) by (apply (C3 x a0); exact Es).
  assert (Ha'ne : skipn k a <> []) by (rewrite Es; discriminate).
  clear Es a0.
  set (keyLeft := last (skipn k a) keyRight).
  assert (EkeyLeft : keyLeft = last a keyRight)
    by (apply last_skipn; exact Ha'ne).
  pose proof (GallopLeft_cut comparefn b keyLeft (List.length b - 1)
                ltac:(lia)) as [D1 [D2 D3]].
  set (lengthB := TimSort.GallopLeft comparefn b keyLeft (List.length b - 1))
    in *.
  assert (Eb : b = firstn lengthB b ++ skipn lengthB b)
    by (symmetry; apply firstn_skipn).
  destruct lengthB as [|lB] eqn:ElB.
  { cbn [fst]. apply Hcat. rewrite <- EkeyLeft.
    destruct b as [|y b0]; [contradiction|].
    apply (D3 y b0). reflexivity. }
  rewrite <- ElB in *.
  assert (Hb'ne : firstn lengthB b <> []).
  { rewrite ElB. destruct b; [contradiction | discriminate]. }
  assert (Hhd' : hd keyRight (firstn lengthB b) = keyRight).
  { rewrite ElB. destruct b as [|y0 b1]; [contradiction|]. simpl.
    exact (Hhd keyRight). }
  assert (Hlast : less (last (firstn lengthB b) keyRight) keyLeft = true).
  { destruct (snoc_last _ keyRight Hb'ne) as [pre Hpre].
    apply (D2 pre). exact Hpre. }
  (* the first element merged may follow the part of a left in place *)
  assert (Hfirst : junction less (written_after None true (firstn k a))
                     (false, keyRight)).
  { apply (junction_after less _ _ _ _ keyRight).
    - intros _. exact I.
    - intros Hn. destruct (snoc_last _ keyRight Hn) as [pre Hpre].
      cbn [junction fst snd]. apply (C2 pre). exact Hpre. }
  (* the part of b left in place may follow the last element merged *)
  assert (Hthen : first_ok less (Some (true, keyLeft)) false
                    (skipn lengthB b)).
  { destruct (skipn lengthB b) as [|z post] eqn:Es; [exact I|].
    cbn [first_ok junction fst snd]. apply (D3 z post). reflexivity. }
  rewrite fst_emit. cbn [fst].
  destruct (List.length (skipn k a) <=? lengthB).
  - left. rewrite Ea at 1. rewrite Eb at 1.
    apply JM_As; [apply first_ok_None|].
    apply MergeLow_JM with (d := keyRight).
    + destruct (skipn k a); [contradiction | simpl; lia].
    + destruct (firstn lengthB b); [contradiction | simpl; lia].
    + rewrite Hhd', Hxa. exact Hkx.
    + exact Hlast.
    + destruct (firstn lengthB b) as [|y0 b0]; [exact I|].
      simpl in Hhd'. subst y0. exact Hfirst.
    + exact Hthen.
  - right. rewrite !rev_app_distr, <- app_assoc.
    rewrite Ea at 1. rewrite Eb at 1. rewrite !rev_app_distr.
    apply JM_As; [apply first_ok_None|].
    apply MergeHigh_JM with (d := keyRight).
    + destruct (skipn k a); [contradiction | simpl; lia].
    + destruct (firstn lengthB b); [contradiction | simpl; lia].
    + exact Hlast.
    + rewrite Hhd', Hxa. exact Hkx.
    + (* the last of a may be written written_after the part of b in place *)
      assert (Hrev : hd keyRight (rev (skipn k a)) = keyLeft)
        by apply hd_rev.
      destruct (rev (skipn k a)) as [|z0 r0]; [exact I|].
      simpl in Hrev. subst z0.
      apply (junction_after more _ _ _ _ keyRight).
      * intros _. exact I.
      * intros Hn. rewrite last_rev.
        destruct (skipn lengthB b) as [|z post] eqn:Es;
          [contradiction Hn; reflexivity|].
        cbn [hd junction fst snd]. unfold backwards.
        apply (D3 z post). reflexivity.
    + rewrite Hhd'.
      destruct (rev (firstn k a)) as [|z0 r0] eqn:Er; [exact I|].
      cbn [first_ok junction fst snd]. unfold backwards.
      assert (Ef : firstn k a = rev r0 ++ [z0]).
      { rewrite <- (rev_involutive (firstn k a)), Er. reflexivity. }
      apply (C2 (rev r0)). exact Ef.
Qed.

End Arrangement.

(** *** Runs *)

Section Runs.
Context {A : Type} (comparefn : A -> A -> num).
Local Abbreviation less := (TimSort.less comparefn).
Local Abbreviation Arr := (Arr comparefn).
Local Abbreviation Merged := (Merged comparefn).

Lemma binary_search_bisect (pivot : A) (l : list A) :
  forall fuel left right,
    left <= right -> right - left <= fuel ->
    TimSort.binary_search comparefn fuel pivot l left right
    = TimSort.bisect fuel (fun m => negb (less pivot (nth m l pivot)))
        left right.
Proof.
  induction fuel as [|fuel IH]; intros left right Hle Hf;
    cbn [TimSort.binary_search TimSort.bisect].
  - lia.
  - destruct (left <? right) eqn:E; [|apply Nat.ltb_ge in E; lia].
    apply Nat.ltb_lt in E. rewrite shiftr_1.
    assert (Hm : (right - left) / 2 < right - left)
      by (apply Nat.div_lt; lia).
    destruct (less pivot (nth (left + (right - left) / 2) l pivot));
      cbn [negb]; apply IH; lia.
Qed.

Lemma binary_search_cut (pivot : A) (l : list A) :
  let k := TimSort.binary_search comparefn (List.length l) pivot l 0
             (List.length l) in
  k <= List.length l /\
  (forall pre x, firstn k l = pre ++ [x] -> less pivot x = false) /\
  (forall x post, skipn k l = x :: post -> less pivot x = true).
Proof.
  intros k. unfold k. rewrite binary_search_bisect by lia.
  destruct (bisect_spec (fun m => negb (less pivot (nth m l pivot)))
              (List.length l) (List.length l) 0 (List.length l)
              ltac:(lia) ltac:(lia) ltac:(lia) ltac:(lia) ltac:(lia))
    as [[_ H1] [H2 H3]].
  split; [exact H1|]. split.
  - intros pre x Hf.
    destruct (firstn_snoc_nth l pre x pivot _ H1 Hf) as [Hpos Hx].
    specialize (H2 Hpos). rewrite Hx in H2.
    apply negb_true_iff in H2. exact H2.
  - intros x post Hs.
    destruct (skipn_cons_nth l post x pivot _ Hs) as [Hlt Hx].
    specialize (H3 Hlt). rewrite Hx in H3.
    apply negb_false_iff in H3. exact H3.
Qed.

(** Inserting the pivot merges the sorted part with the pivot. *)
Lemma insertion_Merged (pivot : A) (sorted : list A) :
  let left := TimSort.binary_search comparefn (List.length sorted) pivot
                sorted 0 (List.length sorted) in
  Merged sorted [pivot] (firstn left sorted ++ pivot :: skipn left sorted).
Proof.
  intros left. destruct (binary_search_cut pivot sorted) as [C1 [C2 C3]].
  fold left in C1, C2, C3. left.
  rewrite <- (firstn_skipn left sorted) at 1.
  apply JM_As; [apply first_ok_None|].
  constructor.
  - apply (junction_after less _ _ _ _ pivot).
    + intros _. exact I.
    + intros Hn. destruct (snoc_last _ pivot Hn) as [pre Hpre].
      cbn [junction fst snd]. apply (C2 pre). exact Hpre.
  - apply JM_end_A.
    destruct (skipn left sorted) as [|z post] eqn:Es; [exact I|].
    cbn [first_ok junction fst snd]. apply (C3 z post). reflexivity.
Qed.

Lemma BinaryInsertionSort_Arr (pending : list A) :
  forall seg sorted,
    Arr seg sorted ->
    Arr (seg ++ pending)
      (TimSort.BinaryInsertionSort comparefn sorted pending).
Proof.
  induction pending as [|pivot pending IH]; intros seg sorted H; simpl.
  - rewrite app_nil_r. exact H.
  - replace (seg ++ pivot :: pending) with ((seg ++ [pivot]) ++ pending)
      by (rewrite <- app_assoc; reflexivity).
    apply IH.
    apply Arr_merge with (a := sorted) (b := [pivot]).
    + exact H.
    + constructor.
    + apply insertion_Merged.
Qed.

Lemma run_length_chain (isDescending : bool) (l : list A) :
  forall previous,
    chain (goes_on comparefn isDescending)
      (previous :: firstn (TimSort.run_length comparefn isDescending
                             previous l) l).
Proof.
  induction l as [|current l IH]; intros previous; simpl.
  - exact I.
  - destruct (Bool.eqb (less current previous) isDescending) eqn:E.
    + simpl. split; [apply eqb_prop; exact E | apply IH].
    + exact I.
Qed.

Lemma ascending_Arr (l : list A) :
  chain (goes_on comparefn false) l -> Arr l l.
Proof.
  induction l as [|x l IH] using rev_ind; intros H.
  - constructor.
  - assert (Hl : chain (goes_on comparefn false) l /\
                 (l <> [] -> less x (last l x) = false)).
    { clear IH. induction l as [|u l IHl].
      - split; [exact I | intros E; contradiction E; reflexivity].
      - destruct l as [|v l].
        + destruct H as [H _]. split; [exact I | intros _; exact H].
        + destruct H as [Huv H]. destruct (IHl H) as [H1 H2].
          split; [split; assumption|].
          intros _. apply H2. discriminate. }
    destruct Hl as [Hl Hx].
    apply Arr_merge with (a := l) (b := [x]);
      [apply IH; exact Hl | constructor |].
    left. apply (JM_As_end less l); [apply first_ok_None|].
    apply JM_end_B. cbn [first_ok].
    apply (junction_after less _ _ _ _ x).
    + intros _. exact I.
    + exact Hx.
Qed.

Lemma descending_Arr (l : list A) :
  chain (goes_on comparefn true) l -> Arr l (rev l).
Proof.
  induction l as [|x l IH] using rev_ind; intros H.
  - constructor.
  - assert (Hl : chain (goes_on comparefn true) l /\
                 (l <> [] -> less x (last l x) = true)).
    { clear IH. induction l as [|u l IHl].
      - split; [exact I | intros E; contradiction E; reflexivity].
      - destruct l as [|v l].
        + destruct H as [H _]. split; [exact I | intros _; exact H].
        + destruct H as [Huv H]. destruct (IHl H) as [H1 H2].
          split; [split; assumption|].
          intros _. apply H2. discriminate. }
    destruct Hl as [Hl Hx].
    rewrite rev_app_distr. cbn [rev app].
    apply Arr_merge with (a := rev l) (b := [x]);
      [apply IH; exact Hl | constructor |].
    left. constructor; [exact I|].
    apply JM_end_A.
    destruct l as [|u l]; [exact I|].
    assert (Hhd : hd x (rev (u :: l)) = last (u :: l) x) by apply hd_rev.
    destruct (rev (u :: l)) as [|z r]; [exact I|].
    simpl in Hhd. subst z. cbn [first_ok junction fst snd].
    apply Hx. discriminate.
Qed.

Lemma CountAndMakeRun_Arr (l : list A) :
  l <> [] ->
  exists seg,
    l = seg ++ snd (TimSort.CountAndMakeRun comparefn l) /\
    Arr seg (fst (TimSort.CountAndMakeRun comparefn l)) /\
    seg <> [].
Proof.
  intros Hl. unfold TimSort.CountAndMakeRun.
  destruct l as [|elementHigh [|elementLow l']]; [contradiction | |].
  - exists [elementHigh]. repeat split; [constructor | discriminate].
  - set (isDescending := less elementLow elementHigh).
    set (n := TimSort.run_length comparefn isDescending elementLow l').
    cbv zeta. change (2 + n) with (S (S n)).
    cbn [firstn skipn fst snd].
    exists (elementHigh :: elementLow :: firstn n l').
    assert (Hc : chain (goes_on comparefn isDescending)
                   (elementHigh :: elementLow :: firstn n l')).
    { split; [reflexivity | apply run_length_chain]. }
    split; [|split; [|discriminate]].
    + cbn [app]. rewrite firstn_skipn. reflexivity.
    + destruct isDescending.
      * apply descending_Arr. exact Hc.
      * apply ascending_Arr. exact Hc.
Qed.

End Runs.

(** *** The stack of pending runs *)

Section Impl.
Context {A : Type} (comparefn : A -> A -> num).
Local Abbreviation less := (TimSort.less comparefn).
Local Abbreviation Arr := (Arr comparefn).

Lemma Arr_merged (sa sb a b : list A) (minGallop : nat) :
  Arr sa a -> Arr sb b -> sa <> [] -> sb <> [] ->
  Arr (sa ++ sb) (fst (TimSort.MergeAt comparefn a b minGallop)).
Proof.
  intros Ha Hb Hsa Hsb. apply Arr_merge with (a := a) (b := b);
    try assumption.
  apply MergeAt_Merged.
  - rewrite (Arr_length _ _ _ Ha). destruct sa; [contradiction|simpl; lia].
  - rewrite (Arr_length _ _ _ Hb). destruct sb; [contradiction|simpl; lia].
Qed.

Lemma Stack_merge_top (read : list A) (run1 run0 : list A)
    (rest : list (list A)) (minGallop : nat) :
  Stack comparefn read (run1 :: run0 :: rest) ->
  Stack comparefn read (fst (TimSort.MergeAt comparefn run0 run1 minGallop) :: rest).
Proof.
  intros [segs [H2 [Hc Hne]]].
  inversion H2 as [|s1 r1 segs1 rs1 A1 H2' E1 E2]; subst.
  inversion H2' as [|s0 r0 segs0 rs0 A0 H2'' E1 E2]; subst.
  inversion Hne as [|? ? N1 Hne']; subst.
  inversion Hne' as [|? ? N0 Hne'']; subst.
  exists ((s0 ++ s1) :: segs0). split; [|split].
  - constructor; [|exact H2''].
    apply Arr_merged; assumption.
  - simpl. rewrite !concat_app. simpl. rewrite !app_nil_r, <- app_assoc.
    reflexivity.
  - constructor; [|exact Hne''].
    intros E. apply app_eq_nil in E. destruct E as [E _]. contradiction.
Qed.

Lemma Stack_merge_second (read : list A) (run1 run0 runM : list A)
    (rest : list (list A)) (minGallop : nat) :
  Stack comparefn read (run1 :: run0 :: runM :: rest) ->
  Stack comparefn read
    (run1 :: fst (TimSort.MergeAt comparefn runM run0 minGallop) :: rest).
Proof.
  intros [segs [H2 [Hc Hne]]].
  inversion H2 as [|s1 r1 segs1 rs1 A1 H2' E1 E2]; subst.
  inversion H2' as [|s0 r0 segs0 rs0 A0 H2'' E1 E2]; subst.
  inversion H2'' as [|sM rM segsM rsM AM H2''' E1 E2]; subst.
  inversion Hne as [|? ? N1 Hne']; subst.
  inversion Hne' as [|? ? N0 Hne'']; subst.
  inversion Hne'' as [|? ? NM Hne''']; subst.
  exists (s1 :: (sM ++ s0) :: segsM). split; [|split].
  - constructor; [exact A1|]. constructor; [|exact H2'''].
    apply Arr_merged; assumption.
  - simpl. rewrite !concat_app. simpl. rewrite !app_nil_r, <- !app_assoc.
    reflexivity.
  - constructor; [exact N1|]. constructor; [|exact Hne'''].
    intros E. apply app_eq_nil in E. destruct E as [E _]. contradiction.
Qed.

Lemma MergeCollapse_Stack (read : list A) :
  forall fuel pendingRuns minGallop,
    Stack comparefn read pendingRuns ->
    Stack comparefn read
      (fst (TimSort.MergeCollapse comparefn fuel pendingRuns minGallop)).
Proof.
  induction fuel as [|fuel IH]; intros runs mg H; [exact H|].
  cbn [TimSort.MergeCollapse].
  destruct runs as [|run1 [|run0 rest]]; try exact H.
  cbv zeta.
  assert (Htop : Stack comparefn read
                   (fst (TimSort.MergeCollapse comparefn fuel
                           (fst (TimSort.MergeAt comparefn run0 run1 mg)
                            :: rest)
                           (snd (TimSort.MergeAt comparefn run0 run1 mg))))).
  { apply IH. apply Stack_merge_top. exact H. }
  destruct rest as [|runM rest'].
  - destruct (List.length run0 <=? List.length run1); [exact Htop | exact H].
  - destruct ((List.length runM <=? List.length run0 + List.length run1)
              || match rest' with
                 | [] => false
                 | runMM :: _ =>
                     List.length runMM
                     <=? List.length runM + List.length run0
                 end).
    + destruct (List.length runM <? List.length run1); [|exact Htop].
      apply IH. apply Stack_merge_second. exact H.
    + destruct (List.length run0 <=? List.length run1);
        [exact Htop | exact H].
Qed.

Lemma MergeForceCollapse_Stack (read : list A) :
  forall fuel pendingRuns minGallop,
    Stack comparefn read pendingRuns ->
    List.length pendingRuns <= S fuel ->
    Stack comparefn read
      (fst (TimSort.MergeForceCollapse comparefn fuel pendingRuns minGallop))
    /\
    List.length
      (fst (TimSort.MergeForceCollapse comparefn fuel pendingRuns minGallop))
    <= 1.
Proof.
  induction fuel as [|fuel IH]; intros runs mg H L.
  { split; [exact H | exact L]. }
  cbn [TimSort.MergeForceCollapse].
  destruct runs as [|run1 [|run0 rest]];
    [split; [exact H | simpl; lia] | split; [exact H | simpl; lia] |].
  destruct rest as [|runM rest'].
  - apply IH; [apply Stack_merge_top; exact H | simpl in *; lia].
  - destruct (List.length runM <? List.length run1).
    + apply IH; [apply Stack_merge_second; exact H | simpl in *; lia].
    + apply IH; [apply Stack_merge_top; exact H | simpl in *; lia].
Qed.

Lemma Stack_push (read seg run : list A) (pendingRuns : list (list A)) :
  Stack comparefn read pendingRuns -> Arr seg run -> seg <> [] ->
  Stack comparefn (read ++ seg) (run :: pendingRuns).
Proof.
  intros [segs [H2 [Hc Hne]]] Ha Hs. exists (seg :: segs). split; [|split].
  - constructor; assumption.
  - simpl. rewrite concat_app, Hc. simpl. rewrite app_nil_r. reflexivity.
  - constructor; assumption.
Qed.

Lemma runs_loop_Stack (minRunLength : nat) :
  forall fuel remaining read pendingRuns minGallop,
    Stack comparefn read pendingRuns ->
    List.length remaining <= fuel ->
    Stack comparefn (read ++ remaining)
      (fst (TimSort.runs_loop comparefn fuel minRunLength remaining
              pendingRuns minGallop)).
Proof.
  induction fuel as [|fuel IH]; intros remaining read runs mg H L.
  { destruct remaining; [|simpl in L; lia].
    rewrite app_nil_r. exact H. }
  cbn [TimSort.runs_loop].
  destruct remaining as [|x remaining'] eqn:Er.
  { rewrite app_nil_r. exact H. }
  rewrite <- Er in *.
  assert (Hne : remaining <> []) by (rewrite Er; discriminate).
  clear Er x remaining'.
  destruct (CountAndMakeRun_Arr comparefn remaining Hne)
    as [seg [Hsplit [Harr Hseg]]].
  destruct (TimSort.CountAndMakeRun comparefn remaining) as [run rest].
  cbn [fst snd] in Hsplit, Harr. cbv zeta.
  assert (Hgo : forall seg' run' rest',
             remaining = seg' ++ rest' -> Arr seg' run' -> seg' <> [] ->
             Stack comparefn (read ++ remaining)
               (fst (TimSort.runs_loop comparefn fuel minRunLength rest'
                       (fst (TimSort.MergeCollapse comparefn
                               (S (List.length runs)) (run' :: runs) mg))
                       (snd (TimSort.MergeCollapse comparefn
                               (S (List.length runs)) (run' :: runs) mg))))).
  { intros seg' run' rest' E Ha Hs. rewrite E, app_assoc.
    apply IH.
    - apply MergeCollapse_Stack. apply Stack_push; assumption.
    - rewrite E, length_app in L.
      destruct seg'; [contradiction | simpl in L; lia]. }
  destruct (List.length run <? minRunLength).
  - set (extra := Nat.min minRunLength (List.length remaining)
                  - List.length run).
    apply (Hgo (seg ++ firstn extra rest)).
    + rewrite <- app_assoc, firstn_skipn. exact Hsplit.
    + apply BinaryInsertionSort_Arr. exact Harr.
    + intros E. apply app_eq_nil in E. destruct E as [E _]. contradiction.
  - apply (Hgo seg); assumption.
Qed.

(** What [sort] returns arranges its input by justified merges. *)
Theorem ArrayTimSortImpl_Arr (l : list A) :
  Arr l (TimSort.ArrayTimSortImpl comparefn l).
Proof.
  unfold TimSort.ArrayTimSortImpl.
  destruct (List.length l <? 2) eqn:E.
  - apply Nat.ltb_lt in E.
    destruct l as [|x [|y l]]; [constructor | constructor | simpl in E; lia].
  - cbv zeta.
    set (r := TimSort.runs_loop comparefn (List.length l)
                (TimSort.ComputeMinRunLength (List.length l)) l []
                TimSort.kMinGallopWins).
    assert (H : Stack comparefn l (fst r)).
    { apply (runs_loop_Stack _ (List.length l) l [] []); [|lia].
      exists []. repeat split; constructor. }
    destruct (MergeForceCollapse_Stack l (List.length (fst r)) (fst r)
                (snd r) H ltac:(lia)) as [[segs [H2 [Hc Hne]]] Hlen].
    destruct (fst (TimSort.MergeForceCollapse comparefn
                     (List.length (fst r)) (fst r) (snd r)))
      as [|run [|run' rest]]; [| |simpl in Hlen; lia].
    + inversion H2; subst. simpl. constructor.
    + inversion H2 as [|s ? segs' ? Ha H2' E1 E2]; subst.
      inversion H2'; subst. simpl. rewrite !app_nil_r. exact Ha.
Qed.

End Impl.

(** *** What holds for every comparator *)

Section Results.
Context {A : Type} (comparefn : A -> A -> num).
Local Abbreviation less := (TimSort.less comparefn).
Local Abbreviation more := (backwards comparefn).
Local Abbreviation neighbours := (neighbours comparefn).
Local Abbreviation Arr := (Arr comparefn).
Local Abbreviation Merged := (Merged comparefn).

Lemma Merged_perm (a b out : list A) :
  Merged a b out -> Permutation out (a ++ b).
Proof.
  intros [H|H].
  - apply (JM_perm _ _ _ _ _ H).
  - apply JM_perm in H.
    apply perm_trans with (rev out); [apply Permutation_rev|].
    apply perm_trans with (rev b ++ rev a); [exact H|].
    rewrite <- rev_app_distr. apply Permutation_sym, Permutation_rev.
Qed.

Lemma Arr_perm (s r : list A) : Arr s r -> Permutation r s.
Proof.
  induction 1 as [|x|sa sb a b out _ IHa _ IHb Hm].
  - apply perm_nil.
  - apply Permutation_refl.
  - apply perm_trans with (a ++ b); [apply Merged_perm; exact Hm|].
    apply Permutation_app; assumption.
Qed.

Lemma Merged_chain (a b out : list A) :
  Merged a b out ->
  chain neighbours a -> chain neighbours b -> chain neighbours out.
Proof.
  intros [H|H] Ha Hb.
  - apply (JM_chain less neighbours) with (p := None) (a := a) (b := b)
                                          (la := []) (lb := []);
      try assumption; try exact I.
    + intros x y E. right. exact E.
    + intros x y E. left. exact E.
  - rewrite <- (rev_involutive out).
    apply (chain_rev (fun x y => neighbours y x)).
    apply (JM_chain more (fun x y => neighbours y x))
      with (p := None) (a := rev b) (b := rev a) (la := []) (lb := []).
    + intros x y E. right. exact E.
    + intros x y E. left. exact E.
    + exact H.
    + apply chain_rev. exact Hb.
    + apply chain_rev. exact Ha.
    + exact I.
Qed.

Lemma Arr_chain (s r : list A) : Arr s r -> chain neighbours r.
Proof.
  induction 1 as [|x|sa sb a b out _ IHa _ IHb Hm]; try exact I.
  apply (Merged_chain a b); assumption.
Qed.

Theorem ArrayTimSortImpl_perm (l : list A) :
  Permutation (TimSort.ArrayTimSortImpl comparefn l) l.
Proof. apply Arr_perm, ArrayTimSortImpl_Arr. Qed.

(** Sorting keeps a two-block partition the comparator decides on. *)
Section Blocks.

Variable P : A -> bool.
Hypothesis P_behind :
  forall x y, P x = true -> P y = false ->
              less x y = false /\ less y x = true.

Theorem ArrayTimSortImpl_blocks (l : list A) :
  StronglySorted (fun a b => P a = true -> P b = true)
    (TimSort.ArrayTimSortImpl comparefn l).
Proof.
  apply chain_sorted.
  - intros x y z _ _ _ Hxy Hyz Hx. apply Hyz, Hxy, Hx.
  - apply chain_impl with (R := neighbours).
    + intros x y _ _ Hn Px. destruct (P y) eqn:Py; [reflexivity|].
      destruct (P_behind x y Px Py) as [H1 H2].
      destruct Hn as [Hn|Hn]; congruence.
    + apply (Arr_chain l). apply ArrayTimSortImpl_Arr.
Qed.

End Blocks.

End Results.

(** *** Justified merges of sorted runs, for a consistent order *)
Section Stable.
Context {A : Type} (lt : A -> A -> bool).

Variable Q : A -> Prop.
Hypothesis lt_asym :
  forall x y, Q x -> Q y -> lt x y = true -> lt y x = false.
Hypothesis lt_ntrans :
  forall x y z, Q x -> Q y -> Q z ->
    lt x y = false -> lt y z = false -> lt x z = false.

Lemma JM_right_first (p : written) (a b out : list A) :
  JM lt p a b out ->
  forall y,
    p = Some (false, y) -> Q y -> Forall Q a -> Forall Q b ->
    StronglySorted (not_behind lt) a -> StronglySorted (not_behind lt) (y :: b) ->
    forall x, In x a -> lt y x = true.
Proof.
  induction 1 as [p|p x0 a b out Hj _ IH|p y1 a b out Hj _ IH];
    intros y Hp Qy Qa Qb Sa Sb x Hx.
  - destruct Hx.
  - subst p. cbn [junction fst snd] in Hj.
    destruct Hx as [<-|Hx]; [exact Hj|].
    apply Forall_cons_iff in Qa. destruct Qa as [Qx0 Qa].
    apply StronglySorted_inv in Sa. destruct Sa as [_ Sa].
    rewrite Forall_forall in Sa, Qa.
    destruct (lt y x) eqn:E; [reflexivity|].
    rewrite (lt_ntrans y x x0 Qy (Qa x Hx) Qx0 E (Sa x Hx)) in Hj.
    discriminate.
  - apply Forall_cons_iff in Qb. destruct Qb as [Qy1 Qb].
    apply StronglySorted_inv in Sb. destruct Sb as [Sb Hy].
    apply Forall_inv in Hy.
    assert (H1 : lt y1 x = true)
      by (apply (IH y1 eq_refl Qy1 Qa Qb Sa Sb x Hx)).
    destruct (lt y x) eqn:E; [reflexivity|].
    rewrite Forall_forall in Qa.
    rewrite (lt_ntrans y1 y x Qy1 Qy (Qa x Hx) Hy E) in H1. discriminate.
Qed.

(** In a justified merge of two sorted runs the elements that tie stand
    as in the first run followed by the second. *)
Lemma JM_stable (p : written) (a b out : list A) :
  JM lt p a b out ->
  Forall Q a -> Forall Q b ->
  StronglySorted (not_behind lt) a -> StronglySorted (not_behind lt) b ->
  forall u, Q u ->
    List.filter (tied_by lt u) out
    = List.filter (tied_by lt u) a ++ List.filter (tied_by lt u) b.
Proof.
  induction 1 as [p|p x a b out Hj _ IH|p y a b out Hj H IH];
    intros Qa Qb Sa Sb u Qu.
  - reflexivity.
  - apply Forall_cons_iff in Qa. destruct Qa as [Qx Qa].
    apply StronglySorted_inv in Sa. destruct Sa as [Sa _].
    cbn [List.filter]. rewrite (IH Qa Qb Sa Sb u Qu).
    destruct (tied_by lt u x); reflexivity.
  - pose proof Qb as Qb'. apply Forall_cons_iff in Qb'.
    destruct Qb' as [Qy Qb'].
    pose proof Sb as Sb'. apply StronglySorted_inv in Sb'.
    destruct Sb' as [Sb' _].
    cbn [List.filter]. rewrite (IH Qa Qb' Sa Sb' u Qu).
    destruct (tied_by lt u y) eqn:T; [|reflexivity].
    assert (Hnone : List.filter (tied_by lt u) a = []).
    { apply filter_none. intros x Hx.
      pose proof (JM_right_first _ _ _ _ H y eq_refl Qy Qa Qb' Sa Sb x Hx)
        as Hyx.
      unfold tied_by in *. apply andb_true_iff in T. destruct T as [T1 T2].
      apply negb_true_iff in T1, T2.
      rewrite Forall_forall in Qa.
      destruct (lt u x) eqn:E1; [reflexivity|].
      rewrite (lt_ntrans y u x Qy Qu (Qa x Hx) T2 E1) in Hyx.
      discriminate. }
    rewrite Hnone. reflexivity.
Qed.

End Stable.

Section SortedImpl.
Context {A : Type}.

Lemma StronglySorted_impl_in (R R' : A -> A -> Prop) (l : list A) :
  (forall x y, In x l -> In y l -> R x y -> R' x y) ->
  StronglySorted R l -> StronglySorted R' l.
Proof.
  induction l as [|x l IH]; intros H S; [constructor|].
  apply StronglySorted_inv in S. destruct S as [Sl Hx].
  constructor.
  - apply IH; [|exact Sl]. intros u v Hu Hv. apply H; right; assumption.
  - rewrite Forall_forall in *. intros y Hy.
    apply H; [left; reflexivity | right; exact Hy | apply Hx; exact Hy].
Qed.

Lemma StronglySorted_snoc (R : A -> A -> Prop) (l : list A) (x : A) :
  StronglySorted R l -> Forall (fun y => R y x) l ->
  StronglySorted R (l ++ [x]).
Proof.
  induction l as [|y l IH]; intros S H; simpl.
  - constructor; constructor.
  - apply StronglySorted_inv in S. destruct S as [Sl Hy].
    apply Forall_cons_iff in H. destruct H as [Hyx H].
    constructor; [apply IH; assumption|].
    apply Forall_app. split; [exact Hy | constructor; [exact Hyx|constructor]].
Qed.

Lemma StronglySorted_rev (R : A -> A -> Prop) (l : list A) :
  StronglySorted R l -> StronglySorted (fun x y => R y x) (rev l).
Proof.
  induction l as [|x l IH]; intros S; [constructor|].
  apply StronglySorted_inv in S. destruct S as [Sl Hx]. simpl.
  apply StronglySorted_snoc; [apply IH; exact Sl|].
  apply Forall_rev. exact Hx.
Qed.

End SortedImpl.

(** *** For a consistent comparator [sort] returns the prescribed array *)
Section Prescribed.
Context {A : Type} (comparefn : A -> A -> num).

Variable Q : A -> Prop.
Hypothesis after_asym :
  forall x y, Q x -> Q y ->
    positive (comparefn x y) = true -> positive (comparefn y x) = false.
Hypothesis not_after_trans :
  forall x y z, Q x -> Q y -> Q z ->
    positive (comparefn x y) = false -> positive (comparefn y z) = false ->
    positive (comparefn x z) = false.
Hypothesis opposite :
  forall x y, Q x -> Q y ->
    negative (comparefn x y) = positive (comparefn y x).

Lemma less_asym (x y : A) :
  Q x -> Q y ->
  TimSort.less comparefn x y = true -> TimSort.less comparefn y x = false.
Proof.
  unfold TimSort.less. intros Qx Qy H.
  rewrite (opposite x y Qx Qy) in H. rewrite (opposite y x Qy Qx).
  apply (after_asym y x Qy Qx H).
Qed.

Lemma less_ntrans (x y z : A) :
  Q x -> Q y -> Q z ->
  TimSort.less comparefn x y = false -> TimSort.less comparefn y z = false ->
  TimSort.less comparefn x z = false.
Proof.
  unfold TimSort.less. intros Qx Qy Qz H1 H2.
  rewrite (opposite x y Qx Qy) in H1. rewrite (opposite y z Qy Qz) in H2.
  rewrite (opposite x z Qx Qz).
  apply (not_after_trans z y x Qz Qy Qx H2 H1).
Qed.

Lemma more_asym (x y : A) :
  Q x -> Q y ->
  backwards comparefn x y = true -> backwards comparefn y x = false.
Proof. unfold backwards. intros Qx Qy. apply less_asym; assumption. Qed.

Lemma more_ntrans (x y z : A) :
  Q x -> Q y -> Q z ->
  backwards comparefn x y = false -> backwards comparefn y z = false ->
  backwards comparefn x z = false.
Proof.
  unfold backwards. intros Qx Qy Qz H1 H2.
  apply (less_ntrans z y x Qz Qy Qx H2 H1).
Qed.

Lemma neighbours_not_after (x y : A) :
  Q x -> Q y -> neighbours comparefn x y ->
  positive (comparefn x y) = false.
Proof.
  intros Qx Qy [H|H].
  - apply (less_asym x y Qx Qy) in H. unfold TimSort.less in H.
    rewrite (opposite y x Qy Qx) in H. exact H.
  - unfold TimSort.less in H. rewrite (opposite y x Qy Qx) in H. exact H.
Qed.

Lemma Arr_Q (s r : list A) : Arr comparefn s r -> Forall Q s -> Forall Q r.
Proof.
  intros H HQ. rewrite Forall_forall in *. intros x Hx. apply HQ.
  apply (Permutation_in _ (Arr_perm comparefn s r H)). exact Hx.
Qed.

Lemma Arr_sorted (s r : list A) :
  Arr comparefn s r -> Forall Q s ->
  StronglySorted (fun a b => positive (comparefn a b) = false) r.
Proof.
  intros H HQ. pose proof (Arr_Q s r H HQ) as HQr.
  rewrite Forall_forall in HQr.
  apply chain_sorted.
  - intros x y z Hx Hy Hz. apply not_after_trans; auto.
  - apply chain_impl with (R := neighbours comparefn).
    + intros x y Hx Hy. apply neighbours_not_after; auto.
    + apply (Arr_chain comparefn s). exact H.
Qed.

Lemma tied_less (u : A) (l : list A) :
  Q u -> Forall Q l ->
  List.filter (tied_by (TimSort.less comparefn) u) l
  = List.filter
      (fun y => negb (positive (comparefn u y))
                && negb (positive (comparefn y u))) l.
Proof.
  intros Qu HQ. rewrite Forall_forall in HQ.
  apply filter_ext_in. intros y Hy.
  unfold tied_by, TimSort.less.
  rewrite (opposite u y Qu (HQ y Hy)), (opposite y u (HQ y Hy) Qu).
  apply andb_comm.
Qed.

Lemma tied_more (u : A) (l : list A) :
  Q u -> Forall Q l ->
  List.filter (tied_by (backwards comparefn) u) l
  = List.filter
      (fun y => negb (positive (comparefn u y))
                && negb (positive (comparefn y u))) l.
Proof.
  intros Qu HQ. rewrite Forall_forall in HQ.
  apply filter_ext_in. intros y Hy.
  unfold tied_by, backwards, TimSort.less.
  rewrite (opposite u y Qu (HQ y Hy)), (opposite y u (HQ y Hy) Qu).
  reflexivity.
Qed.

Lemma Merged_stable (a b out : list A) :
  Merged comparefn a b out ->
  Forall Q a -> Forall Q b ->
  StronglySorted (fun x y => positive (comparefn x y) = false) a ->
  StronglySorted (fun x y => positive (comparefn x y) = false) b ->
  forall u, Q u ->
    List.filter
      (fun y => negb (positive (comparefn u y))
                && negb (positive (comparefn y u))) out
    = List.filter
        (fun y => negb (positive (comparefn u y))
                  && negb (positive (comparefn y u))) (a ++ b).
Proof.
  intros Hm Qa Qb Sa Sb u Qu.
  assert (Qout : Forall Q out).
  { rewrite Forall_forall. intros x Hx.
    apply (Permutation_in _ (Merged_perm comparefn a b out Hm)) in Hx.
    apply in_app_or in Hx. rewrite Forall_forall in Qa, Qb.
    destruct Hx; auto. }
  rewrite filter_app.
  rewrite <- (tied_less u out Qu Qout), <- (tied_less u a Qu Qa),
          <- (tied_less u b Qu Qb).
  pose proof Qa as Qa'. pose proof Qb as Qb'.
  rewrite Forall_forall in Qa', Qb'.
  destruct Hm as [H|H].
  - apply (JM_stable (TimSort.less comparefn) Q less_ntrans None a b out H
             Qa Qb); [| |exact Qu].
    + apply StronglySorted_impl_in with (2 := Sa).
      intros x y Hx Hy E. unfold not_behind, TimSort.less.
      rewrite (opposite y x (Qa' y Hy) (Qa' x Hx)). exact E.
    + apply StronglySorted_impl_in with (2 := Sb).
      intros x y Hx Hy E. unfold not_behind, TimSort.less.
      rewrite (opposite y x (Qb' y Hy) (Qb' x Hx)). exact E.
  - rewrite (tied_less u out Qu Qout), (tied_less u a Qu Qa),
            (tied_less u b Qu Qb).
    rewrite <- (tied_more u out Qu Qout), <- (tied_more u a Qu Qa),
            <- (tied_more u b Qu Qb).
    pose proof (JM_stable (backwards comparefn) Q more_ntrans None (rev b) (rev a)
                  (rev out) H (Forall_rev Qb) (Forall_rev Qa)) as Hs.
    assert (Sb' : StronglySorted (not_behind (backwards comparefn)) (rev b)).
    { apply StronglySorted_rev in Sb.
      apply StronglySorted_impl_in with (2 := Sb).
      intros x y Hx Hy E. apply in_rev in Hx, Hy.
      unfold not_behind, backwards, TimSort.less.
      rewrite (opposite x y (Qb' x Hx) (Qb' y Hy)). exact E. }
    assert (Sa' : StronglySorted (not_behind (backwards comparefn)) (rev a)).
    { apply StronglySorted_rev in Sa.
      apply StronglySorted_impl_in with (2 := Sa).
      intros x y Hx Hy E. apply in_rev in Hx, Hy.
      unfold not_behind, backwards, TimSort.less.
      rewrite (opposite x y (Qa' x Hx) (Qa' y Hy)). exact E. }
    specialize (Hs Sb' Sa' u Qu).
    rewrite !filter_rev, <- rev_app_distr in Hs.
    apply (f_equal (@rev A)) in Hs. rewrite !rev_involutive in Hs.
    exact Hs.
Qed.

Lemma Arr_stable (s r : list A) :
  Arr comparefn s r -> Forall Q s ->
  forall u, Q u ->
    List.filter
      (fun y => negb (positive (comparefn u y))
                && negb (positive (comparefn y u))) r
    = List.filter
        (fun y => negb (positive (comparefn u y))
                  && negb (positive (comparefn y u))) s.
Proof.
  induction 1 as [|x|sa sb a b out Ha IHa Hb IHb Hm]; intros HQ u Qu;
    try reflexivity.
  apply Forall_app in HQ. destruct HQ as [Qsa Qsb].
  rewrite (Merged_stable a b out Hm (Arr_Q sa a Ha Qsa) (Arr_Q sb b Hb Qsb)
             (Arr_sorted sa a Ha Qsa) (Arr_sorted sb b Hb Qsb) u Qu).
  rewrite !filter_app, (IHa Qsa u Qu), (IHb Qsb u Qu). reflexivity.
Qed.

(** On elements the comparator is consistent on, [sort] returns the array
    the language prescribes. *)
Theorem ArrayTimSortImpl_prescribed (l : list A) :
  Forall Q l ->
  TimSort.ArrayTimSortImpl comparefn l = stable_sort comparefn l.
Proof.
  intros HQ.
  pose proof (ArrayTimSortImpl_Arr comparefn l) as H.
  apply (stable_sort_unique comparefn Q after_asym not_after_trans).
  - exact HQ.
  - apply Permutation_sym, (Arr_perm comparefn l). exact H.
  - apply (Arr_sorted l); assumption.
  - intros u Qu. apply (Arr_stable l); assumption.
Qed.

End Prescribed.

End V8Sort.

(** ** [Array.prototype.sort] *)

Section ArraySort.

Context {A : Type} (comparefn : A -> A -> num).

(** Whatever the comparator answers, [sort] returns a permutation of the
    array. *)
Lemma Array_sort_perm (l : list A) : Permutation (Array_sort comparefn l) l.
Proof. apply ArrayTimSortImpl_perm. Qed.

Lemma Array_sort_In (l : list A) (x : A) :
  In x (Array_sort comparefn l) <-> In x l.
Proof.
  split; apply Permutation_in;
    [apply Array_sort_perm | apply Permutation_sym, Array_sort_perm].
Qed.

(** When the comparator puts every [P]-element behind every other
    element, the [P]-elements end up behind the others, whatever the
    comparator answers inside a block. *)
Lemma Array_sort_blocks (P : A -> bool) :
  (forall x y, P x = true -> P y = false ->
               negative (comparefn x y) = false /\
               negative (comparefn y x) = true) ->
  forall l,
    StronglySorted (fun a b => P a = true -> P b = true)
      (Array_sort comparefn l).
Proof. intros H l. apply ArrayTimSortImpl_blocks. exact H. Qed.

(** For a comparator that is consistent on the elements of the array,
    [sort] returns the prescribed array. *)
Lemma Array_sort_prescribed (Q : A -> Prop) :
  (forall x y, Q x -> Q y ->
     positive (comparefn x y) = true -> positive (comparefn y x) = false) ->
  (forall x y z, Q x -> Q y -> Q z ->
     positive (comparefn x y) = false -> positive (comparefn y z) = false ->
     positive (comparefn x z) = false) ->
  (forall x y, Q x -> Q y ->
     negative (comparefn x y) = positive (comparefn y x)) ->
  forall l, Forall Q l -> Array_sort comparefn l = stable_sort comparefn l.
Proof.
  intros H1 H2 H3 l. apply (ArrayTimSortImpl_prescribed comparefn Q H1 H2 H3).
Qed.

End ArraySort.

(** ** Strings *)

Lemma prefix_app (sub s : string) :
  String.prefix sub s = true <-> exists post, s = (sub ++ post)%string.
Proof.
  revert s. induction sub as [|c sub IH]; intros s.
  - split; [intros _; exists s; reflexivity | destruct s; reflexivity].
  - destruct s as [|d s]; simpl.
    + split; [discriminate | intros [post H]; discriminate].
    + destruct (ascii_dec c d) as [E|N].
      * subst d. rewrite IH. split; intros [post H]; exists post.
        -- rewrite H; reflexivity.
        -- inversion H; reflexivity.
      * split; [discriminate|]. intros [post H].
        injection H as Hd Hs. congruence.
Qed.

Lemma includes_contains (s sub : string) :
  includes s sub = true <->
  exists pre post : string, s = (pre ++ sub ++ post)%string.
Proof.
  induction s as [|c s IH]; cbn [includes].
  - rewrite orb_false_r, prefix_app. split.
    + intros [post H]. exists EmptyString, post. exact H.
    + intros [[|p pre] [post H]]; [exists post; exact H | discriminate].
  - rewrite orb_true_iff, IH, prefix_app. split.
    + intros [[post H] | [pre [post H]]].
      * exists EmptyString, post. exact H.
      * exists (String c pre), post. simpl. rewrite H. reflexivity.
    + intros [[|p pre] [post H]].
      * left. exists post. exact H.
      * right. exists pre, post. simpl in H. injection H as _ H. exact H.
Qed.

(** ** The derived view *)

Lemma filter_filter {A : Type} (p q : A -> bool) (l : list A) :
  List.filter p (List.filter q l) = List.filter (fun x => q x && p x) l.
Proof.
  induction l as [|a l IH]; simpl; [reflexivity|].
  destruct (q a); simpl; [destruct (p a)|]; rewrite IH; reflexivity.
Qed.

Lemma filter_true {A : Type} (l : list A) :
  List.filter (fun _ => true) l = l.
Proof. induction l as [|a l IH]; simpl; [|rewrite IH]; reflexivity. Qed.

Lemma filter_if {A : Type} (c : bool) (p : A -> bool) (l : list A) :
  (if c then List.filter p l else l)
  = List.filter (fun x => if c then p x else true) l.
Proof. destruct c; [reflexivity | symmetry; apply filter_true]. Qed.

Lemma StronglySorted_nth {A : Type} (R : A -> A -> Prop) (l : list A) :
  StronglySorted R l ->
  forall i j a b, i < j -> nth_error l i = Some a -> nth_error l j = Some b ->
                  R a b.
Proof.
  induction 1 as [|x l Hl IH Hx]; intros i j a b Hij Ha Hb.
  - destruct i; discriminate.
  - destruct j as [|j]; [lia|]. simpl in Hb. destruct i as [|i]; simpl in Ha.
    + inversion Ha; subst x. rewrite Forall_forall in Hx. apply Hx.
      apply nth_error_In with j. assumption.
    + apply (IH i j); [lia|assumption|assumption].
Qed.

Section ViewFacts.

Variable toLowerCase : string -> string.
Variable Date_getTime : string -> num.

Lemma filtered_keeps (state : TodoState.t) :
  filtered toLowerCase state
  = List.filter (keeps toLowerCase (TodoState.filter state))
      (TodoState.todos state).
Proof.
  unfold filtered, keeps. cbv zeta.
  set (f := TodoState.filter state). set (l := TodoState.todos state).
  rewrite (filter_if (truthy (TodoFilter.searchText f))).
  rewrite (filter_if (truthy_opt (TodoFilter.category f))).
  rewrite (filter_if (negb (TodoFilter.showCompleted f))).
  destruct (TodoFilter.priority f) as [p|].
  - repeat rewrite filter_filter. apply filter_ext. intros a.
    rewrite <- ?andb_assoc. reflexivity.
  - repeat rewrite filter_filter. apply filter_ext. intros a.
    rewrite andb_true_r, <- ?andb_assoc. reflexivity.
Qed.

Lemma truthy_true (s : string) : truthy s = true <-> s <> "".
Proof.
  unfold truthy. rewrite negb_true_iff. apply String.eqb_neq.
Qed.

Lemma truthy_false (s : string) : truthy s = false <-> s = "".
Proof.
  unfold truthy. rewrite negb_false_iff. apply String.eqb_eq.
Qed.

Lemma search_stage (f : TodoFilter.t) (todo : Todo.t) :
  (if truthy (TodoFilter.searchText f)
   then search_callback toLowerCase (toLowerCase (TodoFilter.searchText f)) todo
   else true) = true <->
  (TodoFilter.searchText f <> "" ->
   contains (toLowerCase (Todo.title todo))
            (toLowerCase (TodoFilter.searchText f)) \/
   exists d, Todo.description todo = Some d /\
             contains (toLowerCase d) (toLowerCase (TodoFilter.searchText f))).
Proof.
  destruct (truthy (TodoFilter.searchText f)) eqn:E.
  - apply truthy_true in E. unfold search_callback, contains.
    rewrite orb_true_iff, includes_contains. split.
    + intros [H|H] _; [left; exact H|right].
      destruct (Todo.description todo) as [d|]; [|discriminate].
      exists d. split; [reflexivity|]. apply includes_contains. exact H.
    + intros H. destruct (H E) as [H1|[d [Hd H1]]]; [left; exact H1|right].
      rewrite Hd. apply includes_contains. exact H1.
  - apply truthy_false in E. split; [intros _ H; contradiction | reflexivity].
Qed.

Lemma category_stage (f : TodoFilter.t) (todo : Todo.t) :
  (if truthy_opt (TodoFilter.category f)
   then strict_eq (Todo.category todo) (TodoFilter.category f)
   else true) = true <->
  (forall c, TodoFilter.category f = Some c -> c <> "" ->
             Todo.category todo = Some c).
Proof.
  destruct (TodoFilter.category f) as [c|]; simpl.
  - destruct (truthy c) eqn:E.
    + apply truthy_true in E. split.
      * intros H c' Hc _. injection Hc as <-.
        destruct (Todo.category todo) as [c'|]; [|discriminate].
        simpl in H. apply String.eqb_eq in H. rewrite H. reflexivity.
      * intros H. rewrite (H c eq_refl E). simpl. apply String.eqb_refl.
    + apply truthy_false in E. split; [|reflexivity].
      intros _ c' Hc Hne. injection Hc as <-. contradiction.
  - split; [intros _ c Hc; discriminate | reflexivity].
Qed.

Lemma Priority_eqb_eq (p q : Priority) : Priority_eqb p q = true <-> p = q.
Proof. destruct p, q; simpl; split; intros H; congruence. Qed.

Lemma priority_stage (f : TodoFilter.t) (todo : Todo.t) :
  match TodoFilter.priority f with
  | Some p => Priority_eqb (Todo.priority todo) p
  | None => true
  end = true <->
  (forall p, TodoFilter.priority f = Some p -> Todo.priority todo = p).
Proof.
  destruct (TodoFilter.priority f) as [p|].
  - rewrite Priority_eqb_eq. split.
    + intros H p' Hp. injection Hp as <-. exact H.
    + intros H. apply H. reflexivity.
  - split; [intros _ p Hp; discriminate | reflexivity].
Qed.

Lemma completion_stage (f : TodoFilter.t) (todo : Todo.t) :
  (if negb (TodoFilter.showCompleted f)
   then negb (Todo.completed todo)
   else true) = true <->
  (TodoFilter.showCompleted f = false -> Todo.completed todo = false).
Proof.
  destruct (TodoFilter.showCompleted f); simpl.
  - split; [intros _ H; discriminate | reflexivity].
  - rewrite negb_true_iff. split; [intros H _; exact H | intros H; apply H; reflexivity].
Qed.

Lemma keeps_satisfies (f : TodoFilter.t) (todo : Todo.t) :
  keeps toLowerCase f todo = true <-> satisfies toLowerCase f todo.
Proof.
  unfold keeps, satisfies.
  rewrite !andb_true_iff, search_stage, category_stage, priority_stage,
    completion_stage.
  tauto.
Qed.

(** C3. Filter composition: the todos of the derived view are exactly
    the todos of the state that satisfy every criterion that is set: the
    search text, when it is not empty, occurs in the title or in the
    description, both lower-cased (a todo without a description can only
    match on its title); the category is the filter's, when one is set;
    the priority is the filter's, when one is set; the todo is not
    completed, when [showCompleted] is false. *)
Theorem view_is_conjunction_of_filters (state : TodoState.t) (todo : Todo.t) :
  In todo (filteredAndSortedTodos toLowerCase Date_getTime state) <->
  In todo (TodoState.todos state) /\
  satisfies toLowerCase (TodoState.filter state) todo.
Proof.
  unfold filteredAndSortedTodos.
  rewrite Array_sort_In, filtered_keeps, filter_In, keeps_satisfies.
  reflexivity.
Qed.

(** *** The comparator and completion *)

Lemma completed_goes_behind (sortBy : SortBy.t) (a b : Todo.t) :
  Todo.completed a = true -> Todo.completed b = false ->
  positive (compareTodos Date_getTime sortBy a b) = true.
Proof.
  intros Ha Hb. unfold compareTodos. rewrite Ha, Hb. reflexivity.
Qed.

Lemma incomplete_stays_ahead (sortBy : SortBy.t) (a b : Todo.t) :
  Todo.completed a = false -> Todo.completed b = true ->
  positive (compareTodos Date_getTime sortBy a b) = false.
Proof.
  intros Ha Hb. unfold compareTodos. rewrite Ha, Hb. reflexivity.
Qed.

(** Between a completed todo and one that is not, the comparator answers
    before it looks at a sort key, and never [NaN]. *)
Lemma completed_is_behind (sortBy : SortBy.t) (a b : Todo.t) :
  Todo.completed a = true -> Todo.completed b = false ->
  negative (compareTodos Date_getTime sortBy a b) = false /\
  negative (compareTodos Date_getTime sortBy b a) = true.
Proof.
  intros Ha Hb. unfold compareTodos. rewrite Ha, Hb. split; reflexivity.
Qed.

(** C2. Partition law: in the derived view, for every state and every
    filter setting, a completed todo stands after every todo that is not
    completed; no sort key changes that, and no date that does not
    parse. *)
Theorem completed_after_incomplete (state : TodoState.t) (i j : nat)
    (a b : Todo.t) :
  nth_error (filteredAndSortedTodos toLowerCase Date_getTime state) i = Some a ->
  nth_error (filteredAndSortedTodos toLowerCase Date_getTime state) j = Some b ->
  Todo.completed a = true ->
  Todo.completed b = false ->
  j < i.
Proof.
  intros Ha Hb Ca Cb. unfold filteredAndSortedTodos in Ha, Hb.
  set (sortBy := TodoFilter.sortBy (TodoState.filter state)) in *.
  pose proof (Array_sort_blocks (compareTodos Date_getTime sortBy)
                Todo.completed
                (completed_is_behind sortBy)
                (filtered toLowerCase state)) as Hblocks.
  destruct (Nat.lt_trichotomy i j) as [Hlt|[Heq|Hgt]].
  - pose proof (StronglySorted_nth _ _ Hblocks i j a b Hlt Ha Hb Ca) as Hc.
    congruence.
  - subst j. congruence.
  - exact Hgt.
Qed.

(** *** The comparator under [sortBy = dueDate] *)

Ltac due_cases :=
  unfold same_due_rank, compareTodos, valid_dueDate, has_dueDate;
  repeat match goal with
         | |- context [Todo.completed ?t] =>
             destruct (Todo.completed t); simpl
         | |- context [truthy_opt (Todo.dueDate ?t)] =>
             destruct (truthy_opt (Todo.dueDate t)); simpl
         | |- context [getTime_opt Date_getTime (Todo.dueDate ?t)] =>
             destruct (getTime_opt Date_getTime (Todo.dueDate t)); simpl
         end;
  intros;
  repeat match goal with
         | H : ?x = ?x -> _ <> _ |- _ => specialize (H eq_refl)
         | H : None <> None |- _ => contradiction H; reflexivity
         | H : (_ <? _)%Z = true |- _ => apply Z.ltb_lt in H
         | H : (_ <? _)%Z = false |- _ => apply Z.ltb_ge in H
         | H : (_ =? _)%Z = true |- _ => apply Z.eqb_eq in H
         | |- (_ <? _)%Z = false => apply Z.ltb_ge
         end;
  try discriminate; try reflexivity; try lia.

Lemma due_after_asym (a b : Todo.t) :
  valid_dueDate Date_getTime a -> valid_dueDate Date_getTime b ->
  positive (compareTodos Date_getTime SortBy.dueDate a b) = true ->
  positive (compareTodos Date_getTime SortBy.dueDate b a) = false.
Proof. due_cases. Qed.

Lemma due_not_after_trans (a b c : Todo.t) :
  valid_dueDate Date_getTime a -> valid_dueDate Date_getTime b ->
  valid_dueDate Date_getTime c ->
  positive (compareTodos Date_getTime SortBy.dueDate a b) = false ->
  positive (compareTodos Date_getTime SortBy.dueDate b c) = false ->
  positive (compareTodos Date_getTime SortBy.dueDate a c) = false.
Proof. due_cases. Qed.

Lemma due_not_after (a b : Todo.t) :
  valid_dueDate Date_getTime a -> valid_dueDate Date_getTime b ->
  positive (compareTodos Date_getTime SortBy.dueDate a b) = false ->
  Todo.completed a = Todo.completed b ->
  has_dueDate b = true ->
  has_dueDate a = true /\
  exists ta tb,
    getTime_opt Date_getTime (Todo.dueDate a) = Some ta /\
    getTime_opt Date_getTime (Todo.dueDate b) = Some tb /\
    (ta <= tb)%Z.
Proof.
  due_cases; (split; [reflexivity|]); do 2 eexists;
    (split; [reflexivity|]); (split; [reflexivity|]); lia.
Qed.

Lemma same_due_rank_not_after (x a b : Todo.t) :
  same_due_rank Date_getTime x a = true ->
  same_due_rank Date_getTime x b = true ->
  positive (compareTodos Date_getTime SortBy.dueDate a b) = false.
Proof. due_cases. Qed.

Lemma due_opposite (a b : Todo.t) :
  valid_dueDate Date_getTime a -> valid_dueDate Date_getTime b ->
  negative (compareTodos Date_getTime SortBy.dueDate a b)
  = positive (compareTodos Date_getTime SortBy.dueDate b a).
Proof.
  due_cases;
    repeat match goal with
           | |- context [(?x <? ?y)%Z] => destruct (Z.ltb_spec x y)
           end;
    try reflexivity; lia.
Qed.

(** Where the due dates parse, the comparator is consistent and [sort]
    returns the prescribed array. *)
Lemma dueDate_sort_prescribed (l : list Todo.t) :
  Forall (valid_dueDate Date_getTime) l ->
  Array_sort (compareTodos Date_getTime SortBy.dueDate) l
  = stable_sort (compareTodos Date_getTime SortBy.dueDate) l.
Proof.
  apply (Array_sort_prescribed (compareTodos Date_getTime SortBy.dueDate)
           (valid_dueDate Date_getTime)
           due_after_asym due_not_after_trans due_opposite).
Qed.

Lemma filtered_valid (state : TodoState.t) :
  Forall (valid_dueDate Date_getTime) (TodoState.todos state) ->
  Forall (valid_dueDate Date_getTime) (filtered toLowerCase state).
Proof.
  rewrite filtered_keeps, !Forall_forall. intros H t Ht.
  apply filter_In in Ht. apply H. tauto.
Qed.

(** *** The due date, as the specification words it and as the
    comparator reads it *)

Lemma dated_has (todo : Todo.t) (d : string) :
  dated todo d ->
  has_dueDate todo = true /\
  getTime_opt Date_getTime (Todo.dueDate todo) = Date_getTime d.
Proof.
  intros [Hd Hne]. unfold has_dueDate. rewrite Hd. simpl.
  split; [apply truthy_true; exact Hne | reflexivity].
Qed.

Lemma has_dated (todo : Todo.t) :
  has_dueDate todo = true -> exists d, dated todo d.
Proof.
  unfold has_dueDate, dated.
  destruct (Todo.dueDate todo) as [d|]; simpl; [|discriminate].
  intros H. exists d. split; [reflexivity | apply truthy_true; exact H].
Qed.

Lemma dueDate_parses_valid (todo : Todo.t) :
  dueDate_parses Date_getTime todo <-> valid_dueDate Date_getTime todo.
Proof.
  unfold dueDate_parses, valid_dueDate. split.
  - intros H Hhas. destruct (has_dated todo Hhas) as [d Hd].
    rewrite (proj2 (dated_has todo d Hd)). apply H. exact Hd.
  - intros H d Hd. destruct (dated_has todo d Hd) as [Hhas E].
    rewrite <- E. apply H. exact Hhas.
Qed.

Lemma due_key_reads (todo : Todo.t) :
  due_key Date_getTime todo
  = if has_dueDate todo
    then due_at (getTime_opt Date_getTime (Todo.dueDate todo))
    else undated.
Proof.
  unfold due_key, has_dueDate.
  destruct (Todo.dueDate todo) as [d|]; simpl; [|reflexivity].
  destruct (string_dec d EmptyString) as [E|N].
  - apply truthy_false in E. rewrite E. reflexivity.
  - apply truthy_true in N. rewrite N. reflexivity.
Qed.

Lemma equal_due_key_rank (a b : Todo.t) :
  equal_due_key Date_getTime a b = same_due_rank Date_getTime a b.
Proof.
  unfold equal_due_key, same_due_rank. rewrite !due_key_reads.
  destruct (has_dueDate a), (has_dueDate b); try reflexivity.
  destruct (getTime_opt Date_getTime (Todo.dueDate a)),
    (getTime_opt Date_getTime (Todo.dueDate b)); reflexivity.
Qed.

(** C4. Order under [sortBy = dueDate], for a state in which the due
    dates of the listed todos parse as dates.  Of two todos of the same
    completion partition, the one the view lists later has a due date
    only if the earlier one has one too, and then is due no earlier: the
    dated todos come in ascending order of due date, before all undated
    ones.  And the sort is stable: the todos of one key (same partition,
    and both undated or both due at the same time) are listed in the
    order they have in the state's sequence of todos. *)
Theorem dueDate_order (state : TodoState.t) :
  TodoFilter.sortBy (TodoState.filter state) = SortBy.dueDate ->
  Forall (dueDate_parses Date_getTime)
    (filteredAndSortedTodos toLowerCase Date_getTime state) ->
  due_ascending Date_getTime
    (filteredAndSortedTodos toLowerCase Date_getTime state) /\
  (forall x,
      List.filter (equal_due_key Date_getTime x)
        (filteredAndSortedTodos toLowerCase Date_getTime state)
      = List.filter (equal_due_key Date_getTime x)
          (List.filter (keeps toLowerCase (TodoState.filter state))
             (TodoState.todos state))).
Proof.
  intros HsortBy Hparse.
  assert (Hfv : Forall (valid_dueDate Date_getTime)
                  (filtered toLowerCase state)).
  { rewrite Forall_forall in *. intros t Ht.
    apply dueDate_parses_valid, Hparse.
    unfold filteredAndSortedTodos. apply Array_sort_In. exact Ht. }
  clear Hparse. unfold filteredAndSortedTodos. rewrite HsortBy.
  rewrite (dueDate_sort_prescribed _ Hfv).
  split.
  - intros i j a b db Hij Ha Hb Hc Hdb.
    pose proof (stable_sort_sorted
                  (compareTodos Date_getTime SortBy.dueDate)
                  (valid_dueDate Date_getTime)
                  due_after_asym due_not_after_trans
                  (filtered toLowerCase state) Hfv) as Hsorted.
    pose proof (StronglySorted_nth _ _ Hsorted i j a b Hij Ha Hb) as Hab.
    assert (Hin : forall n t,
               nth_error (stable_sort (compareTodos Date_getTime SortBy.dueDate)
                            (filtered toLowerCase state)) n = Some t ->
               valid_dueDate Date_getTime t).
    { intros n t Hn. apply nth_error_In in Hn. apply stable_sort_In in Hn.
      rewrite Forall_forall in Hfv. apply Hfv; assumption. }
    destruct (dated_has b db Hdb) as [Hhas Eb].
    destruct (due_not_after a b (Hin i a Ha) (Hin j b Hb) Hab Hc Hhas)
      as [Hhasa [ta [tb [Hta [Htb Hle]]]]].
    destruct (has_dated a Hhasa) as [da Hda].
    exists da, ta, tb. split; [exact Hda|].
    rewrite <- (proj2 (dated_has a da Hda)), <- Eb. auto.
  - intros x. rewrite <- filtered_keeps.
    rewrite !(filter_ext _ _ (equal_due_key_rank x)).
    apply stable_sort_stable.
    intros a b _ _. apply same_due_rank_not_after.
Qed.

(** Under [sortBy = dueDate] and due dates that parse the comparator is
    consistent, so the view is the one array the language allows: any
    permutation of the filtered todos that is sorted by the comparator
    and keeps tied todos in their order is the view. *)
Lemma dueDate_view_is_prescribed (state : TodoState.t) (l' : list Todo.t) :
  TodoFilter.sortBy (TodoState.filter state) = SortBy.dueDate ->
  Forall (valid_dueDate Date_getTime) (TodoState.todos state) ->
  Permutation (filtered toLowerCase state) l' ->
  StronglySorted
    (fun a b =>
       positive (compareTodos Date_getTime SortBy.dueDate a b) = false) l' ->
  (forall x,
      valid_dueDate Date_getTime x ->
      List.filter
        (fun y =>
           negb (positive (compareTodos Date_getTime SortBy.dueDate x y)) &&
           negb (positive (compareTodos Date_getTime SortBy.dueDate y x))) l'
      = List.filter
          (fun y =>
             negb (positive (compareTodos Date_getTime SortBy.dueDate x y)) &&
             negb (positive (compareTodos Date_getTime SortBy.dueDate y x)))
          (filtered toLowerCase state)) ->
  l' = filteredAndSortedTodos toLowerCase Date_getTime state.
Proof.
  intros HsortBy Hvalid Hp Hs Hst. unfold filteredAndSortedTodos.
  rewrite HsortBy.
  rewrite (dueDate_sort_prescribed _ (filtered_valid state Hvalid)).
  apply (stable_sort_unique (compareTodos Date_getTime SortBy.dueDate)
           (valid_dueDate Date_getTime) due_after_asym due_not_after_trans);
    try assumption.
  apply filtered_valid; assumption.
Qed.

End ViewFacts.

(** The list tests' expectations, on the concrete host. *)
Example sort_by_createdAt :
  List.map Todo.title (view (listed PartialFilter.empty))
  = ["Medium Priority Todo"; "High Priority Todo"; "Low Priority Todo"].
Proof. reflexivity. Qed.

Example sort_by_dueDate :
  List.map Todo.title (view (listed sortBy_dueDate))
  = ["Medium Priority Todo"; "High Priority Todo"; "Low Priority Todo"].
Proof. reflexivity. Qed.

(** What the engine lists when a creation time does not parse: the
    comparator answers [NaN] for a pair with todo 4, and the todos 5, 3
    and 1 are not in the order of their creation times. *)
Example sort_with_unparseable_createdAt :
  List.map Todo.id (view unparseable_createdAt) = ["3"; "1"; "4"; "5"; "2"].
Proof. reflexivity. Qed.

Lemma completed_after_incomplete_witness :
  (nth_error (view unparseable_createdAt) 4
     = Some (todo_of "2" true None "2025-01-03") /\
   nth_error (view unparseable_createdAt) 3
     = Some (todo_of "5" false None "2025-01-04") /\
   Todo.completed (todo_of "2" true None "2025-01-03") = true /\
   Todo.completed (todo_of "5" false None "2025-01-04") = false) /\
  3 < 4.
Proof.
  split.
  - repeat split; reflexivity.
  - apply (completed_after_incomplete ascii_toLowerCase iso_getTime
             unparseable_createdAt 4 3
             (todo_of "2" true None "2025-01-03")
             (todo_of "5" false None "2025-01-04"));
      reflexivity.
Defined.

Lemma mockTodos_valid : Forall (valid_dueDate iso_getTime) mockTodos.
Proof.
  repeat constructor; unfold valid_dueDate; simpl; intros; discriminate.
Qed.

Lemma dueDate_order_witness :
  (TodoFilter.sortBy (TodoState.filter (listed sortBy_dueDate))
     = SortBy.dueDate /\
   Forall (dueDate_parses iso_getTime) (view (listed sortBy_dueDate))) /\
  List.map Todo.title (view (listed sortBy_dueDate))
  = ["Medium Priority Todo"; "High Priority Todo"; "Low Priority Todo"] /\
  due_ascending iso_getTime (view (listed sortBy_dueDate)) /\
  (forall x,
      List.filter (equal_due_key iso_getTime x) (view (listed sortBy_dueDate))
      = List.filter (equal_due_key iso_getTime x)
          (List.filter
             (keeps ascii_toLowerCase (TodoState.filter (listed sortBy_dueDate)))
             (TodoState.todos (listed sortBy_dueDate)))).
Proof.
  assert (H1 : TodoFilter.sortBy (TodoState.filter (listed sortBy_dueDate))
               = SortBy.dueDate) by reflexivity.
  assert (H2 : Forall (dueDate_parses iso_getTime)
                 (view (listed sortBy_dueDate))).
  { repeat constructor; intros d [Hd _]; simpl in Hd;
      try discriminate; injection Hd as <-; discriminate. }
  split.
  - split; assumption.
  - split; [reflexivity|].
    exact (dueDate_order ascii_toLowerCase iso_getTime
             (listed sortBy_dueDate) H1 H2).
Defined.

(** C4 as the specification states it, for every state, fails: when a
    due date does not parse, the comparator answers [NaN] for each pair
    with that todo, and the engine leaves the three todos where they are.
    The todo due on March 2 is listed before the one due on March 1. *)
Lemma dueDate_order_fails_on_unparseable_date :
  TodoFilter.sortBy (TodoState.filter unparseable_dueDate) = SortBy.dueDate /\
  view unparseable_dueDate
  = [ todo_of "A" false (Some "2025-03-02") "2025-01-01";
      todo_of "B" false (Some "invalid") "2025-01-01";
      todo_of "C" false (Some "2025-03-01") "2025-01-01" ] /\
  (exists a c ta tc,
      nth_error (view unparseable_dueDate) 0 = Some a /\
      nth_error (view unparseable_dueDate) 2 = Some c /\
      Todo.completed a = Todo.completed c /\
      dated a "2025-03-02" /\ dated c "2025-03-01" /\
      iso_getTime "2025-03-02" = Some ta /\
      iso_getTime "2025-03-01" = Some tc /\
      (tc < ta)%Z) /\
  ~ due_ascending iso_getTime (view unparseable_dueDate).
Proof.
  split; [reflexivity|]. split; [reflexivity|]. split.
  - do 4 eexists. repeat split; try reflexivity; discriminate.
  - intros H.
    destruct (H 0 2 (todo_of "A" false (Some "2025-03-02") "2025-01-01")
                (todo_of "C" false (Some "2025-03-01") "2025-01-01")
                "2025-03-01" ltac:(lia) eq_refl eq_refl eq_refl)
      as [da [ta [tb [[Hda _] [Hta [Htb Hle]]]]]].
    + split; [reflexivity | discriminate].
    + simpl in Hda. injection Hda as <-.
      vm_compute in Hta, Htb. injection Hta as <-. injection Htb as <-.
      apply Hle. reflexivity.
Qed.

(** ** The facade *)

Section Facade.

Import TodoProvider.

Variable clock : Clock.

(** After initialization every commit saves the state it rendered. *)
Lemma after_calls_save (r : Render) (cs : list Call) (k : nat) :
  isInitialized r = true ->
  Forall (fun c => isInitialized (render c) = true /\
                   calls c = [saveToLocalStorage (state (render c))])
    (fst (after_calls clock r cs k)).
Proof.
  revert r k. induction cs as [|c cs IH]; intros r k Hr; simpl.
  - constructor.
  - unfold bind.
    destruct (todoReducer clock (state r) (dispatched c) k) as [s' k1].
    specialize (IH (mkRender s' (isInitialized r)) k1 Hr).
    destruct (after_calls clock (mkRender s' (isInitialized r)) cs k1)
      as [rest k2].
    simpl in *. constructor; [|exact IH].
    simpl. unfold save_effect. simpl. rewrite Hr. split; reflexivity.
Qed.

Lemma saving_trace (l : list Commit) :
  Forall (fun c => isInitialized (render c) = true /\
                   calls c = [saveToLocalStorage (state (render c))]) l ->
  List.concat (List.map calls l)
  = List.map (fun c => saveToLocalStorage (state (render c))) l.
Proof.
  induction 1 as [|c l [_ Hc] _ IH]; [reflexivity|].
  cbn [List.map List.concat]. rewrite Hc, IH. reflexivity.
Qed.

(** C6. Startup ordering of the facade.  In every run (whatever Load
    returned, whatever the user then does, whatever the clock shows) the
    first commit renders the default state with initialization not yet
    marked, and its effects call Load and nothing else: that state is
    not saved.  The next commit renders the loaded state (the default one
    when Load returned no value) with initialization marked, and from
    then on each commit saves the state it renders.  So a Save happens
    only in a commit that sees initialization complete, Load comes before
    every Save, and the first state saved is the loaded one when there is
    one. *)
Theorem first_state_is_not_saved (savedState : option TodoState.t)
    (cs : list Call) (k : nat) :
  exists second rest,
    fst (run clock savedState cs k)
      = mkCommit (mkRender initialState false) [loadFromLocalStorage]
          :: second :: rest /\
    render second
      = mkRender (match savedState with
                  | Some s => s
                  | None => initialState
                  end) true /\
    Forall (fun c => isInitialized (render c) = true /\
                     calls c = [saveToLocalStorage (state (render c))])
      (second :: rest) /\
    Forall (fun c => forall s, In (saveToLocalStorage s) (calls c) ->
                               isInitialized (render c) = true /\
                               s = state (render c))
      (fst (run clock savedState cs k)) /\
    trace (fst (run clock savedState cs k))
      = loadFromLocalStorage
          :: List.map (fun c => saveToLocalStorage (state (render c)))
               (second :: rest).
Proof.
  set (s1 := match savedState with Some s => s | None => initialState end).
  assert (Hrun : fst (run clock savedState cs k)
                 = mkCommit (mkRender initialState false) [loadFromLocalStorage]
                     :: mkCommit (mkRender s1 true)
                          [saveToLocalStorage s1]
                     :: fst (after_calls clock (mkRender s1 true) cs k)).
  { unfold run, load_effect, s1. destruct savedState as [s|]; simpl;
      unfold bind, ret; simpl;
      destruct (after_calls clock _ cs k) as [rest k']; reflexivity. }
  pose proof (after_calls_save (mkRender s1 true) cs k eq_refl) as Hrest.
  assert (Hlater : Forall (fun c => isInitialized (render c) = true /\
                       calls c = [saveToLocalStorage (state (render c))])
                     (mkCommit (mkRender s1 true) [saveToLocalStorage s1]
                        :: fst (after_calls clock (mkRender s1 true) cs k))).
  { constructor; [split; reflexivity | exact Hrest]. }
  exists (mkCommit (mkRender s1 true) [saveToLocalStorage s1]),
         (fst (after_calls clock (mkRender s1 true) cs k)).
  split; [exact Hrun|]. split; [reflexivity|]. split; [exact Hlater|].
  rewrite Hrun. split.
  - constructor.
    + simpl. intros s [H|[]]. discriminate.
    + eapply Forall_impl; [|exact Hlater]. simpl.
      intros c [Hi Hc] s Hs. rewrite Hc in Hs. destruct Hs as [E|[]].
      injection E as <-. split; [exact Hi | reflexivity].
  - unfold trace. cbn [List.map calls List.concat app]. f_equal.
    apply (saving_trace _ Hlater).
Qed.

End Facade.

(** ** The persistence adapter *)

Section AdapterFacts.

Import LocalStorage.

Variable Value : Type.
Variable JSON_parse : string -> Completion Value.

(** C7. Load degrades gracefully.  It returns "no value" when the slot
    is absent, when the slot's text fails to parse, and when the read
    itself raises; the two failures are logged.  In no case does Load
    raise. *)
Theorem load_degrades_gracefully
    (getItem : string -> Completion (option string)) :
  (getItem STORAGE_KEY = Normal None ->
   loadFromLocalStorage Value JSON_parse getItem = (Normal None, [])) /\
  (forall text e,
      getItem STORAGE_KEY = Normal (Some text) ->
      JSON_parse text = Throw e ->
      loadFromLocalStorage Value JSON_parse getItem = (Normal None, [e])) /\
  (forall e,
      getItem STORAGE_KEY = Throw e ->
      loadFromLocalStorage Value JSON_parse getItem = (Normal None, [e])) /\
  (exists v log,
      loadFromLocalStorage Value JSON_parse getItem = (Normal v, log)).
Proof.
  unfold loadFromLocalStorage, try_catch, console_error.
  repeat split.
  - intros H. rewrite H. reflexivity.
  - intros text e H He. rewrite H, He. reflexivity.
  - intros e H. rewrite H. reflexivity.
  - destruct (getItem STORAGE_KEY) as [[text|]|e].
    + destruct (JSON_parse text) as [v|e]; do 2 eexists; reflexivity.
    + do 2 eexists; reflexivity.
    + do 2 eexists; reflexivity.
Qed.

End AdapterFacts.

(** The adapter tests' expectations, on the concrete host. *)
Example load_when_no_data_exists :
  load (storage_holding None) = (LocalStorage.Normal None, []).
Proof. reflexivity. Qed.

Example load_when_data_is_corrupted :
  load (storage_holding (Some "invalid json"))
  = (LocalStorage.Normal None, ["SyntaxError"]).
Proof. reflexivity. Qed.

Example load_when_getItem_raises :
  load failing_storage = (LocalStorage.Normal None, ["Storage error"]).
Proof. reflexivity. Qed.

Example load_when_data_parses :
  load (storage_holding (Some "[1, true, null]"))
  = (LocalStorage.Normal
       (Some (JSON.JArray [JSON.JNumber "1"; JSON.JBool true; JSON.JNull])),
     []).
Proof. reflexivity. Qed.

(** ** The reducer on the heap *)

Section HeapFacts.

Variable clock : Clock.

Lemma nth_error_old {A : Type} (h fresh : list A) (r : nat) (o : A) :
  nth_error h r = Some o -> nth_error (h ++ fresh) r = Some o.
Proof.
  intros H. rewrite nth_error_app1; [exact H|].
  apply nth_error_Some. rewrite H. discriminate.
Qed.

Lemma nth_error_new {A : Type} (h : list A) (o : A) :
  nth_error (h ++ [o]) (List.length h) = Some o.
Proof.
  rewrite nth_error_app2 by lia. rewrite Nat.sub_diag. reflexivity.
Qed.

(** Reading through a reference is not affected by allocation. *)
Lemma read_todo_old (h fresh : Heap.heap) (r : Heap.ref) (t : Todo.t) :
  Heap.read_todo h r = Some t -> Heap.read_todo (h ++ fresh) r = Some t.
Proof.
  unfold Heap.read_todo. intros H.
  destruct (nth_error h r) as [o|] eqn:E; [|discriminate].
  rewrite (nth_error_old h fresh r o E). exact H.
Qed.

Lemma read_category_old (h fresh : Heap.heap) (r : Heap.ref)
    (c : Category.t) :
  Heap.read_category h r = Some c ->
  Heap.read_category (h ++ fresh) r = Some c.
Proof.
  unfold Heap.read_category. intros H.
  destruct (nth_error h r) as [o|] eqn:E; [|discriminate].
  rewrite (nth_error_old h fresh r o E). exact H.
Qed.

Lemma read_filter_old (h fresh : Heap.heap) (r : Heap.ref)
    (f : TodoFilter.t) :
  Heap.read_filter h r = Some f -> Heap.read_filter (h ++ fresh) r = Some f.
Proof.
  unfold Heap.read_filter. intros H.
  destruct (nth_error h r) as [o|] eqn:E; [|discriminate].
  rewrite (nth_error_old h fresh r o E). exact H.
Qed.

Lemma read_all_old {A : Type} (read read' : Heap.ref -> option A)
    (l : list Heap.ref) (vs : list A) :
  (forall r v, read r = Some v -> read' r = Some v) ->
  Heap.read_all read l = Some vs -> Heap.read_all read' l = Some vs.
Proof.
  intros Hold. revert vs. induction l as [|r l IH]; intros vs H; simpl in *.
  - exact H.
  - destruct (read r) as [v|] eqn:Er; [|discriminate].
    destruct (Heap.read_all read l) as [rest|] eqn:El; [|discriminate].
    rewrite (Hold r v Er), (IH rest eq_refl). exact H.
Qed.

Lemma read_all_app {A : Type} (read : Heap.ref -> option A)
    (l : list Heap.ref) (vs : list A) (r : Heap.ref) (v : A) :
  Heap.read_all read l = Some vs -> read r = Some v ->
  Heap.read_all read (l ++ [r]) = Some (vs ++ [v]).
Proof.
  revert vs. induction l as [|x l IH]; intros vs Hl Hr; simpl in *.
  - injection Hl as <-. rewrite Hr. reflexivity.
  - destruct (read x) as [a|]; [|discriminate].
    destruct (Heap.read_all read l) as [rest|]; [|discriminate].
    injection Hl as <-. rewrite (IH rest eq_refl Hr). reflexivity.
Qed.

Lemma read_array_old {A : Type} (read read' : Heap.ref -> option A)
    (h fresh : Heap.heap) (r : Heap.ref) (vs : list A) :
  (forall r v, read r = Some v -> read' r = Some v) ->
  Heap.read_array read h r = Some vs ->
  Heap.read_array read' (h ++ fresh) r = Some vs.
Proof.
  unfold Heap.read_array. intros Hold H.
  destruct (nth_error h r) as [o|] eqn:E; [|discriminate].
  rewrite (nth_error_old h fresh r o E).
  destruct o; try discriminate. eapply read_all_old; eassumption.
Qed.

Lemma read_state_old (h fresh : Heap.heap) (r : Heap.ref)
    (s : TodoState.t) :
  Heap.read_state h r = Some s -> Heap.read_state (h ++ fresh) r = Some s.
Proof.
  unfold Heap.read_state. intros H.
  destruct (nth_error h r) as [o|] eqn:E; [|discriminate].
  rewrite (nth_error_old h fresh r o E).
  destruct o as [| | | |t c f]; try discriminate.
  destruct (Heap.read_array (Heap.read_todo h) h t) as [ts|] eqn:Et;
    [|discriminate].
  destruct (Heap.read_array (Heap.read_category h) h c) as [cs|] eqn:Ec;
    [|discriminate].
  destruct (Heap.read_filter h f) as [fl|] eqn:Ef; [|discriminate].
  rewrite (read_array_old _ (Heap.read_todo (h ++ fresh)) h fresh t ts
             (fun r v => read_todo_old h fresh r v) Et).
  rewrite (read_array_old _ (Heap.read_category (h ++ fresh)) h fresh c cs
             (fun r v => read_category_old h fresh r v) Ec).
  rewrite (read_filter_old h fresh f fl Ef). exact H.
Qed.

Lemma read_action_old (h fresh : Heap.heap)
    (a : Action Heap.ref Heap.ref Heap.ref) (A : TodoAction) :
  Heap.read_action h a = Some A -> Heap.read_action (h ++ fresh) a = Some A.
Proof.
  destruct a; simpl; intros H; try exact H.
  - destruct (Heap.read_todo h payload) as [t|] eqn:E; [|discriminate].
    rewrite (read_todo_old h fresh payload t E). exact H.
  - destruct (Heap.read_category h payload) as [c|] eqn:E; [|discriminate].
    rewrite (read_category_old h fresh payload c E). exact H.
  - destruct (Heap.read_state h payload) as [s|] eqn:E; [|discriminate].
    rewrite (read_state_old h fresh payload s E). exact H.
Qed.

Lemma get_todo_read (h : Heap.heap) (k : nat) (r : Heap.ref) (t : Todo.t) :
  Heap.read_todo h r = Some t -> Heap.get_todo r h k = Some (t, h, k).
Proof.
  unfold Heap.read_todo, Heap.get_todo, Heap.bind, Heap.get. intros H.
  destruct (nth_error h r) as [[]|]; try discriminate.
  injection H as <-. reflexivity.
Qed.

Lemma get_category_read (h : Heap.heap) (k : nat) (r : Heap.ref)
    (c : Category.t) :
  Heap.read_category h r = Some c -> Heap.get_category r h k = Some (c, h, k).
Proof.
  unfold Heap.read_category, Heap.get_category, Heap.bind, Heap.get. intros H.
  destruct (nth_error h r) as [[]|]; try discriminate.
  injection H as <-. reflexivity.
Qed.

Lemma get_filter_read (h : Heap.heap) (k : nat) (r : Heap.ref)
    (f : TodoFilter.t) :
  Heap.read_filter h r = Some f -> Heap.get_filter r h k = Some (f, h, k).
Proof.
  unfold Heap.read_filter, Heap.get_filter, Heap.bind, Heap.get. intros H.
  destruct (nth_error h r) as [[]|]; try discriminate.
  injection H as <-. reflexivity.
Qed.

Lemma get_array_read (h : Heap.heap) (k : nat) (r : Heap.ref)
    (l : list Heap.ref) :
  nth_error h r = Some (Heap.ArrayObject l) ->
  Heap.get_array r h k = Some (l, h, k).
Proof.
  unfold Heap.get_array, Heap.bind, Heap.get. intros H. rewrite H. reflexivity.
Qed.

Lemma get_state_read (h : Heap.heap) (k : nat) (r t c f : Heap.ref) :
  nth_error h r = Some (Heap.StateObject t c f) ->
  Heap.get_state r h k = Some ((t, c, f), h, k).
Proof.
  unfold Heap.get_state, Heap.bind, Heap.get. intros H. rewrite H. reflexivity.
Qed.

Lemma read_array_inv {A : Type} (read : Heap.ref -> option A) (h : Heap.heap)
    (r : Heap.ref) (vs : list A) :
  Heap.read_array read h r = Some vs ->
  exists l, nth_error h r = Some (Heap.ArrayObject l) /\
            Heap.read_all read l = Some vs.
Proof.
  unfold Heap.read_array. intros H.
  destruct (nth_error h r) as [[]|]; try discriminate.
  eexists. split; [reflexivity | exact H].
Qed.

Lemma read_state_inv (h : Heap.heap) (r : Heap.ref) (s : TodoState.t) :
  Heap.read_state h r = Some s ->
  exists t c f,
    nth_error h r = Some (Heap.StateObject t c f) /\
    Heap.read_array (Heap.read_todo h) h t = Some (TodoState.todos s) /\
    Heap.read_array (Heap.read_category h) h c
      = Some (TodoState.categories s) /\
    Heap.read_filter h f = Some (TodoState.filter s).
Proof.
  unfold Heap.read_state. intros H.
  destruct (nth_error h r) as [[| | | |t c f]|]; try discriminate.
  destruct (Heap.read_array (Heap.read_todo h) h t) as [ts|] eqn:Et;
    [|discriminate].
  destruct (Heap.read_array (Heap.read_category h) h c) as [cs|] eqn:Ec;
    [|discriminate].
  destruct (Heap.read_filter h f) as [fl|] eqn:Ef; [|discriminate].
  injection H as <-. exists t, c, f. simpl. repeat split; assumption.
Qed.

(** A state object read right after its allocation. *)
Lemma read_state_new (h : Heap.heap) (t c f : Heap.ref)
    (ts : list Todo.t) (cs : list Category.t) (fl : TodoFilter.t) :
  Heap.read_array (Heap.read_todo h) h t = Some ts ->
  Heap.read_array (Heap.read_category h) h c = Some cs ->
  Heap.read_filter h f = Some fl ->
  Heap.read_state (h ++ [Heap.StateObject t c f]) (List.length h)
  = Some (TodoState.mk ts cs fl).
Proof.
  intros Ht Hc Hf. unfold Heap.read_state. rewrite nth_error_new.
  rewrite (read_array_old _ (Heap.read_todo (h ++ _)) h _ t ts
             (fun r v => read_todo_old h _ r v) Ht).
  rewrite (read_array_old _ (Heap.read_category (h ++ _)) h _ c cs
             (fun r v => read_category_old h _ r v) Hc).
  rewrite (read_filter_old h _ f fl Hf). reflexivity.
Qed.

(** An array object read right after its allocation. *)
Lemma read_array_new {A : Type} (read read' : Heap.ref -> option A)
    (h : Heap.heap) (l : list Heap.ref) (vs : list A) :
  (forall r v, read r = Some v -> read' r = Some v) ->
  Heap.read_all read l = Some vs ->
  Heap.read_array read' (h ++ [Heap.ArrayObject l]) (List.length h) = Some vs.
Proof.
  intros Hold H. unfold Heap.read_array. rewrite nth_error_new.
  eapply read_all_old; eassumption.
Qed.

(** [map] on the heap computes [map] on the values. *)
Lemma map_refines (fh : Heap.ref -> Heap.M Heap.ref)
    (f : Todo.t -> Eff Todo.t) :
  (forall h k r t,
      Heap.read_todo h r = Some t ->
      exists r' fresh,
        fh r h k = Some (r', h ++ fresh, snd (f t k)) /\
        Heap.read_todo (h ++ fresh) r' = Some (fst (f t k))) ->
  forall l h k ts,
    Heap.read_all (Heap.read_todo h) l = Some ts ->
    exists l' fresh,
      Heap.Array_map fh l h k
        = Some (l', h ++ fresh, snd (Array_map f ts k)) /\
      Heap.read_all (Heap.read_todo (h ++ fresh)) l'
        = Some (fst (Array_map f ts k)).
Proof.
  intros Hf. induction l as [|r l IH]; intros h k ts Hl; simpl in Hl.
  - injection Hl as <-. exists [], []. rewrite app_nil_r. split; reflexivity.
  - destruct (Heap.read_todo h r) as [t|] eqn:Er; [|discriminate].
    destruct (Heap.read_all (Heap.read_todo h) l) as [ts'|] eqn:El;
      [|discriminate].
    injection Hl as <-.
    destruct (Hf h k r t Er) as [r' [f1 [Hr' Hread']]].
    assert (El' : Heap.read_all (Heap.read_todo (h ++ f1)) l = Some ts').
    { eapply read_all_old; [|exact El]. intros; apply read_todo_old; assumption. }
    destruct (IH (h ++ f1) (snd (f t k)) ts' El') as [l' [f2 [Hl' Hreadl]]].
    exists (r' :: l'), (f1 ++ f2). rewrite app_assoc.
    simpl. unfold Heap.bind, bind. rewrite Hr', Hl'.
    destruct (f t k) as [y k1]. simpl in *.
    destruct (Array_map f ts' k1) as [ys k2]. simpl in *.
    split; [reflexivity|].
    rewrite (read_todo_old (h ++ f1) f2 r' y Hread'), Hreadl. reflexivity.
Qed.

Lemma Array_filter_cons (cb : Heap.ref -> Heap.M bool) (r : Heap.ref)
    (l : list Heap.ref) (h : Heap.heap) (k : nat) :
  Heap.Array_filter cb (r :: l) h k
  = match cb r h k with
    | Some (keep, h', k') =>
        match Heap.Array_filter cb l h' k' with
        | Some (ys, h'', k'') => Some (if keep then r :: ys else ys, h'', k'')
        | None => None
        end
    | None => None
    end.
Proof.
  simpl. unfold Heap.bind. destruct (cb r h k) as [[[keep h'] k']|];
    [|reflexivity].
  destruct (Heap.Array_filter cb l h' k') as [[[ys h''] k'']|]; reflexivity.
Qed.

(** [filter] on the heap computes [filter] on the values, and allocates
    no element. *)
Lemma filter_refines {X : Type} (getX : Heap.ref -> Heap.M X)
    (readX : Heap.ref -> option X) (p : X -> bool) (h : Heap.heap) (k : nat) :
  (forall r x, readX r = Some x -> getX r h k = Some (x, h, k)) ->
  forall l xs,
    Heap.read_all readX l = Some xs ->
    exists l',
      Heap.Array_filter
        (fun r => Heap.bind (getX r) (fun x => Heap.ret (p x))) l h k
        = Some (l', h, k) /\
      Heap.read_all readX l' = Some (List.filter p xs).
Proof.
  intros Hget. induction l as [|r l IH]; intros xs Hl; simpl in Hl.
  - injection Hl as <-. exists []. split; reflexivity.
  - destruct (readX r) as [x|] eqn:Er; [|discriminate].
    destruct (Heap.read_all readX l) as [xs'|] eqn:El; [|discriminate].
    injection Hl as <-.
    destruct (IH xs' eq_refl) as [l' [Hl' Hread]].
    exists (if p x then r :: l' else l').
    rewrite Array_filter_cons.
    assert (Hcb : Heap.bind (getX r) (fun x => Heap.ret (p x)) h k
                  = Some (p x, h, k)).
    { unfold Heap.bind. rewrite (Hget r x Er). reflexivity. }
    rewrite Hcb, Hl'. split; [reflexivity|].
    cbn [List.filter].
    destruct (p x); simpl; [rewrite Er, Hread|]; [reflexivity|exact Hread].
Qed.

Lemma update_callback_refines (i : string) (u : PartialTodo.t)
    (h : Heap.heap) (k : nat) (r : Heap.ref) (t : Todo.t) :
  Heap.read_todo h r = Some t ->
  exists r' fresh,
    Heap.update_callback clock i u r h k
      = Some (r', h ++ fresh, snd (update_callback clock i u t k)) /\
    Heap.read_todo (h ++ fresh) r' = Some (fst (update_callback clock i u t k)).
Proof.
  intros Hr. unfold Heap.update_callback, update_callback, Heap.bind.
  rewrite (get_todo_read h k r t Hr).
  destruct (Todo.id t =? i)%string.
  - eexists. eexists. split; [reflexivity|].
    unfold Heap.read_todo. rewrite nth_error_new. reflexivity.
  - exists r, []. rewrite app_nil_r. split; [reflexivity|exact Hr].
Qed.

Lemma toggle_callback_refines (i : string) (h : Heap.heap) (k : nat)
    (r : Heap.ref) (t : Todo.t) :
  Heap.read_todo h r = Some t ->
  exists r' fresh,
    Heap.toggle_callback clock i r h k
      = Some (r', h ++ fresh, snd (toggle_callback clock i t k)) /\
    Heap.read_todo (h ++ fresh) r' = Some (fst (toggle_callback clock i t k)).
Proof.
  intros Hr. unfold Heap.toggle_callback, toggle_callback, Heap.bind.
  rewrite (get_todo_read h k r t Hr).
  destruct (Todo.id t =? i)%string.
  - eexists. eexists. split; [reflexivity|].
    unfold Heap.read_todo. rewrite nth_error_new. reflexivity.
  - exists r, []. rewrite app_nil_r. split; [reflexivity|exact Hr].
Qed.

(** The last two steps of a case of the reducer: the new array, then the
    new state object around it. *)
Lemma new_todos_state (h : Heap.heap) (k : nat) (l : list Heap.ref)
    (c f : Heap.ref) (ts : list Todo.t) (cs : list Category.t)
    (fl : TodoFilter.t) :
  Heap.read_all (Heap.read_todo h) l = Some ts ->
  Heap.read_array (Heap.read_category h) h c = Some cs ->
  Heap.read_filter h f = Some fl ->
  exists r fresh,
    Heap.bind (Heap.alloc (Heap.ArrayObject l))
      (fun a => Heap.alloc (Heap.StateObject a c f)) h k
      = Some (r, h ++ fresh, k) /\
    Heap.read_state (h ++ fresh) r = Some (TodoState.mk ts cs fl).
Proof.
  intros Hl Hc Hf.
  exists (List.length (h ++ [Heap.ArrayObject l])),
         [Heap.ArrayObject l; Heap.StateObject (List.length h) c f].
  split.
  - unfold Heap.bind, Heap.alloc. rewrite <- app_assoc. reflexivity.
  - change (h ++ [Heap.ArrayObject l; Heap.StateObject (List.length h) c f])
      with (h ++ [Heap.ArrayObject l] ++ [Heap.StateObject (List.length h) c f]).
    rewrite app_assoc. apply read_state_new.
    + eapply read_array_new; [|exact Hl].
      intros r v. apply read_todo_old.
    + eapply read_array_old; [|exact Hc].
      intros r v. apply read_category_old.
    + apply read_filter_old. exact Hf.
Qed.

Lemma new_categories_state (h : Heap.heap) (k : nat) (l : list Heap.ref)
    (t f : Heap.ref) (ts : list Todo.t) (cs : list Category.t)
    (fl : TodoFilter.t) :
  Heap.read_array (Heap.read_todo h) h t = Some ts ->
  Heap.read_all (Heap.read_category h) l = Some cs ->
  Heap.read_filter h f = Some fl ->
  exists r fresh,
    Heap.bind (Heap.alloc (Heap.ArrayObject l))
      (fun a => Heap.alloc (Heap.StateObject t a f)) h k
      = Some (r, h ++ fresh, k) /\
    Heap.read_state (h ++ fresh) r = Some (TodoState.mk ts cs fl).
Proof.
  intros Ht Hl Hf.
  exists (List.length (h ++ [Heap.ArrayObject l])),
         [Heap.ArrayObject l; Heap.StateObject t (List.length h) f].
  split.
  - unfold Heap.bind, Heap.alloc. rewrite <- app_assoc. reflexivity.
  - change (h ++ [Heap.ArrayObject l; Heap.StateObject t (List.length h) f])
      with (h ++ [Heap.ArrayObject l] ++ [Heap.StateObject t (List.length h) f]).
    rewrite app_assoc. apply read_state_new.
    + eapply read_array_old; [|exact Ht].
      intros r v. apply read_todo_old.
    + eapply read_array_new; [|exact Hl].
      intros r v. apply read_category_old.
    + apply read_filter_old. exact Hf.
Qed.

Lemma new_filter_state (h : Heap.heap) (k : nat) (t c : Heap.ref)
    (ts : list Todo.t) (cs : list Category.t) (fl : TodoFilter.t) :
  Heap.read_array (Heap.read_todo h) h t = Some ts ->
  Heap.read_array (Heap.read_category h) h c = Some cs ->
  exists r fresh,
    Heap.bind (Heap.alloc (Heap.FilterObject fl))
      (fun a => Heap.alloc (Heap.StateObject t c a)) h k
      = Some (r, h ++ fresh, k) /\
    Heap.read_state (h ++ fresh) r = Some (TodoState.mk ts cs fl).
Proof.
  intros Ht Hc.
  exists (List.length (h ++ [Heap.FilterObject fl])),
         [Heap.FilterObject fl; Heap.StateObject t c (List.length h)].
  split.
  - unfold Heap.bind, Heap.alloc. rewrite <- app_assoc. reflexivity.
  - change (h ++ [Heap.FilterObject fl; Heap.StateObject t c (List.length h)])
      with (h ++ [Heap.FilterObject fl]
              ++ [Heap.StateObject t c (List.length h)]).
    rewrite app_assoc. apply read_state_new.
    + eapply read_array_old; [|exact Ht].
      intros r v. apply read_todo_old.
    + eapply read_array_old; [|exact Hc].
      intros r v. apply read_category_old.
    + unfold Heap.read_filter. rewrite nth_error_new. reflexivity.
Qed.

(** The reducer on the heap computes the reducer on the values: it
    returns (it follows no dangling or ill-kinded reference), it only
    allocates, it reads the clock as often, and its result stands for the
    state the reducer on values returns. *)
Lemma todoReducer_refines (h : Heap.heap) (state : Heap.ref)
    (action : Action Heap.ref Heap.ref Heap.ref) (k : nat)
    (S : TodoState.t) (A : TodoAction) :
  Heap.read_state h state = Some S ->
  Heap.read_action h action = Some A ->
  exists r fresh,
    Heap.todoReducer clock state action h k
      = Some (r, h ++ fresh, snd (todoReducer clock S A k)) /\
    Heap.read_state (h ++ fresh) r = Some (fst (todoReducer clock S A k)).
Proof.
  intros HS HA.
  destruct (read_state_inv h state S HS) as [t [c [f [Hst [Ht [Hc Hf]]]]]].
  destruct (read_array_inv _ h t _ Ht) as [lt [Hlt Hts]].
  destruct (read_array_inv _ h c _ Hc) as [lc [Hlc Hcs]].
  destruct action as [payload|i u|payload|payload|payload|payload|payload
                      |payload|type]; simpl in HA.
  - destruct (Heap.read_todo h payload) as [todo|] eqn:Ep; [|discriminate].
    injection HA as <-. cbn [todoReducer Heap.todoReducer ret fst snd].
    unfold Heap.bind at 1. rewrite (get_state_read h k state t c f Hst).
    unfold Heap.bind at 1. rewrite (get_array_read h k t lt Hlt).
    apply new_todos_state; try assumption.
    apply read_all_app; assumption.
  - injection HA as <-. cbn [todoReducer Heap.todoReducer].
    unfold Heap.bind at 1. rewrite (get_state_read h k state t c f Hst).
    unfold Heap.bind at 1. rewrite (get_array_read h k t lt Hlt).
    destruct (map_refines _ _ (update_callback_refines i u) lt h k _ Hts)
      as [l' [f1 [Hmap Hread]]].
    unfold Heap.bind at 1. rewrite Hmap.
    unfold bind.
    destruct (Array_map (update_callback clock i u) (TodoState.todos S) k)
      as [ts' k'] eqn:E. simpl in Hmap, Hread. simpl.
    destruct (new_todos_state (h ++ f1) k' l' c f ts'
                (TodoState.categories S) (TodoState.filter S) Hread)
      as [r [f2 [Hnew Hstate]]].
    + eapply read_array_old; [|exact Hc]. intros r v. apply read_category_old.
    + apply read_filter_old. exact Hf.
    + exists r, (f1 ++ f2). rewrite app_assoc. split; assumption.
  - injection HA as <-. cbn [todoReducer Heap.todoReducer ret fst snd].
    unfold Heap.bind at 1. rewrite (get_state_read h k state t c f Hst).
    unfold Heap.bind at 1. rewrite (get_array_read h k t lt Hlt).
    destruct (filter_refines Heap.get_todo (Heap.read_todo h)
                (fun todo => negb (Todo.id todo =? payload)%string) h k
                (fun r x => get_todo_read h k r x) lt _ Hts)
      as [l' [Hfilter Hread]].
    unfold Heap.bind at 1.
    rewrite Hfilter.
    apply new_todos_state; assumption.
  - injection HA as <-. cbn [todoReducer Heap.todoReducer].
    unfold Heap.bind at 1. rewrite (get_state_read h k state t c f Hst).
    unfold Heap.bind at 1. rewrite (get_array_read h k t lt Hlt).
    destruct (map_refines _ _ (toggle_callback_refines payload) lt h k _ Hts)
      as [l' [f1 [Hmap Hread]]].
    unfold Heap.bind at 1. rewrite Hmap.
    unfold bind.
    destruct (Array_map (toggle_callback clock payload) (TodoState.todos S) k)
      as [ts' k'] eqn:E. simpl in Hmap, Hread. simpl.
    destruct (new_todos_state (h ++ f1) k' l' c f ts'
                (TodoState.categories S) (TodoState.filter S) Hread)
      as [r [f2 [Hnew Hstate]]].
    + eapply read_array_old; [|exact Hc]. intros r v. apply read_category_old.
    + apply read_filter_old. exact Hf.
    + exists r, (f1 ++ f2). rewrite app_assoc. split; assumption.
  - destruct (Heap.read_category h payload) as [cat|] eqn:Ep; [|discriminate].
    injection HA as <-. cbn [todoReducer Heap.todoReducer ret fst snd].
    unfold Heap.bind at 1. rewrite (get_state_read h k state t c f Hst).
    unfold Heap.bind at 1. rewrite (get_array_read h k c lc Hlc).
    apply new_categories_state; try assumption.
    apply read_all_app; assumption.
  - injection HA as <-. cbn [todoReducer Heap.todoReducer ret fst snd].
    unfold Heap.bind at 1. rewrite (get_state_read h k state t c f Hst).
    unfold Heap.bind at 1. rewrite (get_array_read h k c lc Hlc).
    destruct (filter_refines Heap.get_category (Heap.read_category h)
                (fun cat => negb (Category.id cat =? payload)%string) h k
                (fun r x => get_category_read h k r x) lc _ Hcs)
      as [l' [Hfilter Hread]].
    unfold Heap.bind at 1.
    rewrite Hfilter.
    apply new_categories_state; assumption.
  - injection HA as <-. cbn [todoReducer Heap.todoReducer ret fst snd].
    unfold Heap.bind at 1. rewrite (get_state_read h k state t c f Hst).
    unfold Heap.bind at 1.
    rewrite (get_filter_read h k f (TodoState.filter S) Hf).
    apply new_filter_state; assumption.
  - destruct (Heap.read_state h payload) as [s|] eqn:Ep; [|discriminate].
    injection HA as <-. exists payload, []. rewrite app_nil_r.
    split; [reflexivity|exact Ep].
  - injection HA as <-. exists state, []. rewrite app_nil_r.
    split; [reflexivity|exact HS].
Qed.

End HeapFacts.

(** ** The reducer and the clock *)

(** What a [map] of the reducer returns depends on the clock only
    through the readings it takes. *)
Lemma Array_map_same_readings (clock clock' : Clock)
    (g : Todo.t -> string -> Todo.t) (i : string) (l : list Todo.t) :
  forall k k',
    (forall n, clock' (k' + n) = clock (k + n)) ->
    fst (Array_map
           (fun t : Todo.t =>
              if (Todo.id t =? i)%string
              then now <- Date_now_toISOString clock' ;; ret (g t now)
              else ret t) l k')
    = fst (Array_map
             (fun t : Todo.t =>
                if (Todo.id t =? i)%string
                then now <- Date_now_toISOString clock ;; ret (g t now)
                else ret t) l k).
Proof.
  set (f' := fun t : Todo.t =>
               if (Todo.id t =? i)%string
               then now <- Date_now_toISOString clock' ;; ret (g t now)
               else ret t).
  set (f := fun t : Todo.t =>
              if (Todo.id t =? i)%string
              then now <- Date_now_toISOString clock ;; ret (g t now)
              else ret t).
  induction l as [|t l IH]; intros k k' Hsame; [reflexivity|].
  cbn [Array_map]. unfold bind.
  destruct (Todo.id t =? i)%string eqn:E.
  - assert (Ef' : f' t k' = (g t (clock' k'), S k'))
      by (unfold f'; rewrite E; reflexivity).
    assert (Ef : f t k = (g t (clock k), S k))
      by (unfold f; rewrite E; reflexivity).
    rewrite Ef', Ef.
    assert (Hnext : forall n, clock' (S k' + n) = clock (S k + n)).
    { intros n. specialize (Hsame (S n)).
      rewrite !Nat.add_succ_r in Hsame. exact Hsame. }
    specialize (IH (S k) (S k') Hnext).
    destruct (Array_map f' l (S k')) as [ys' k1'].
    destruct (Array_map f l (S k)) as [ys k1].
    simpl in *. rewrite IH.
    pose proof (Hsame 0) as H0. rewrite !Nat.add_0_r in H0.
    rewrite H0. reflexivity.
  - assert (Ef' : f' t k' = (t, k')) by (unfold f'; rewrite E; reflexivity).
    assert (Ef : f t k = (t, k)) by (unfold f; rewrite E; reflexivity).
    rewrite Ef', Ef. specialize (IH k k' Hsame).
    destruct (Array_map f' l k') as [ys' k1'].
    destruct (Array_map f l k) as [ys k1].
    simpl in *. rewrite IH. reflexivity.
Qed.

Lemma todos_of_update (clock : Clock) (s : TodoState.t) (i : string)
    (u : PartialTodo.t) (k : nat) :
  reduced clock s (UPDATE_TODO i u) k
  = {| TodoState.todos :=
         fst (Array_map (update_callback clock i u) (TodoState.todos s) k);
       TodoState.categories := TodoState.categories s;
       TodoState.filter := TodoState.filter s |}.
Proof.
  unfold reduced. cbn [todoReducer]. unfold bind.
  destruct (Array_map (update_callback clock i u) (TodoState.todos s) k).
  reflexivity.
Qed.

Lemma todos_of_toggle (clock : Clock) (s : TodoState.t) (i : string)
    (k : nat) :
  reduced clock s (TOGGLE_TODO i) k
  = {| TodoState.todos :=
         fst (Array_map (toggle_callback clock i) (TodoState.todos s) k);
       TodoState.categories := TodoState.categories s;
       TodoState.filter := TodoState.filter s |}.
Proof.
  unfold reduced. cbn [todoReducer]. unfold bind.
  destruct (Array_map (toggle_callback clock i) (TodoState.todos s) k).
  reflexivity.
Qed.

Lemma reduced_same_readings (clock clock' : Clock) (s : TodoState.t)
    (a : TodoAction) (k k' : nat) :
  (forall n, clock' (k' + n) = clock (k + n)) ->
  reduced clock' s a k' = reduced clock s a k.
Proof.
  intros Hsame. destruct a; try reflexivity.
  - rewrite !todos_of_update. f_equal.
    exact (Array_map_same_readings clock clock'
             (fun t now => with_updatedAt (spread_todo t updates) now)
             id (TodoState.todos s) k k' Hsame).
  - rewrite !todos_of_toggle. f_equal.
    exact (Array_map_same_readings clock clock'
             (fun t now =>
                with_updatedAt
                  (with_completed t (negb (Todo.completed t))) now)
             payload (TodoState.todos s) k k' Hsame).
Qed.

(** C1 (amended). Reducer purity, given the clock.  Run on a heap in
    which [state] stands for the state [S] and [action] for the action
    [A], the reducer returns; every object that was on the heap is still
    there unchanged, so [state] still stands for [S] and [action] for
    [A]; and the result stands for the state the reducer on values
    computes from [S], [A] and the readings of the clock.  A second
    invocation with the same [state] and [action], on the heap the first
    one left, returns an equal state whenever the clock shows it the
    readings it showed the first. *)
Theorem reducer_is_pure_given_the_clock (clock : Clock) (h : Heap.heap)
    (state : Heap.ref) (action : Action Heap.ref Heap.ref Heap.ref)
    (k : nat) (S : TodoState.t) (A : TodoAction) :
  Heap.read_state h state = Some S ->
  Heap.read_action h action = Some A ->
  exists r1 fresh1 k1,
    Heap.todoReducer clock state action h k = Some (r1, h ++ fresh1, k1) /\
    (forall r o, nth_error h r = Some o ->
                 nth_error (h ++ fresh1) r = Some o) /\
    Heap.read_state (h ++ fresh1) state = Some S /\
    Heap.read_action (h ++ fresh1) action = Some A /\
    Heap.read_state (h ++ fresh1) r1 = Some (reduced clock S A k) /\
    forall clock' k',
      (forall n, clock' (k' + n) = clock (k + n)) ->
      exists r2 fresh2 k2,
        Heap.todoReducer clock' state action (h ++ fresh1) k'
          = Some (r2, (h ++ fresh1) ++ fresh2, k2) /\
        Heap.read_state ((h ++ fresh1) ++ fresh2) r2
          = Some (reduced clock S A k).
Proof.
  intros HS HA.
  destruct (todoReducer_refines clock h state action k S A HS HA)
    as [r1 [fresh1 [Hrun Hread]]].
  exists r1, fresh1, (snd (todoReducer clock S A k)).
  split; [exact Hrun|].
  split; [intros r o; apply nth_error_old|].
  split; [apply read_state_old; exact HS|].
  split; [apply read_action_old; exact HA|].
  split; [exact Hread|].
  intros clock' k' Hsame.
  destruct (todoReducer_refines clock' (h ++ fresh1) state action k' S A
              (read_state_old h fresh1 state S HS)
              (read_action_old h fresh1 action A HA))
    as [r2 [fresh2 [Hrun2 Hread2]]].
  exists r2, fresh2, (snd (todoReducer clock' S A k')).
  split; [exact Hrun2|].
  rewrite Hread2. f_equal.
  apply (reduced_same_readings clock clock' S A k k' Hsame).
Qed.

Lemma reducer_is_pure_given_the_clock_witness :
  (Heap.read_state mock_heap 4 = Some (with_todos [mockTodo]) /\
   Heap.read_action mock_heap (TOGGLE_TODO "1") = Some (TOGGLE_TODO "1")) /\
  exists r1 fresh1 k1,
    Heap.todoReducer frozen_clock 4 (TOGGLE_TODO "1") mock_heap 0
      = Some (r1, mock_heap ++ fresh1, k1) /\
    (forall r o, nth_error mock_heap r = Some o ->
                 nth_error (mock_heap ++ fresh1) r = Some o) /\
    Heap.read_state (mock_heap ++ fresh1) 4 = Some (with_todos [mockTodo]) /\
    Heap.read_action (mock_heap ++ fresh1) (TOGGLE_TODO "1")
      = Some (TOGGLE_TODO "1") /\
    Heap.read_state (mock_heap ++ fresh1) r1
      = Some (reduced frozen_clock (with_todos [mockTodo])
                (TOGGLE_TODO "1") 0) /\
    forall clock' k',
      (forall n, clock' (k' + n) = frozen_clock (0 + n)) ->
      exists r2 fresh2 k2,
        Heap.todoReducer clock' 4 (TOGGLE_TODO "1") (mock_heap ++ fresh1) k'
          = Some (r2, (mock_heap ++ fresh1) ++ fresh2, k2) /\
        Heap.read_state ((mock_heap ++ fresh1) ++ fresh2) r2
          = Some (reduced frozen_clock (with_todos [mockTodo])
                    (TOGGLE_TODO "1") 0).
Proof.
  split.
  - split; reflexivity.
  - exact (reducer_is_pure_given_the_clock frozen_clock mock_heap 4
             (TOGGLE_TODO "1") 0 (with_todos [mockTodo]) (TOGGLE_TODO "1")
             eq_refl eq_refl).
Defined.

(** C1, as stated, fails: the reducer reads the clock itself, so a second
    invocation with the same state and the same action, made after the
    clock has moved on, returns another state. *)
Lemma second_invocation_differs :
  snd (todoReducer running_clock (with_todos [mockTodo]) (TOGGLE_TODO "1") 0)
    = 1 /\
  reduced running_clock (with_todos [mockTodo]) (TOGGLE_TODO "1") 0
    <> reduced running_clock (with_todos [mockTodo]) (TOGGLE_TODO "1") 1.
Proof.
  split; [reflexivity|]. intros H. vm_compute in H. discriminate H.
Qed.

(** The reducer tests' expectations. *)
Example toggle_from_incomplete :
  List.map (fun t => (Todo.completed t, Todo.updatedAt t))
    (TodoState.todos
       (reduced frozen_clock (with_todos [mockTodo]) (TOGGLE_TODO "1") 0))
  = [(true, "2025-01-15T12:00:00.000Z")].
Proof. reflexivity. Qed.

Example update_title :
  List.map (fun t => (Todo.title t, Todo.updatedAt t))
    (TodoState.todos
       (reduced frozen_clock (with_todos [mockTodo])
          (UPDATE_TODO "1" retitling_updates) 0))
  = [("Updated Title", "2025-01-15T12:00:00.000Z")].
Proof. reflexivity. Qed.

Example initial_state_is_listed_empty : view initialState = [].
Proof. reflexivity. Qed.

Example delete_removes_every_match :
  TodoState.todos
    (reduced frozen_clock (with_todos [mockTodo; mockTodo])
       (DELETE_TODO "1") 0) = [].
Proof. reflexivity. Qed.

Example toggle_stamps_every_match :
  List.map (fun t => (Todo.completed t, Todo.updatedAt t))
    (TodoState.todos
       (reduced running_clock (with_todos [mockTodo; mockTodo])
          (TOGGLE_TODO "1") 0))
  = [(true, "2025-01-15T12:00:00.000Z"); (true, "2025-01-15T12:00:01.000Z")].
Proof. reflexivity. Qed.


(** ** More on the state store *)

Section ReducerLaws.

Variable clock : Clock.

(** What a [map] callback guarantees of each element, the result of the
    [map] has position by position. *)
Lemma Array_map_pointwise {A B : Type} (f : A -> Eff B) (R : A -> B -> Prop) :
  (forall a k, R a (fst (f a k))) ->
  forall l k, Forall2 R l (fst (Array_map f l k)).
Proof.
  intros Hf. induction l as [|a l IH]; intros k; simpl.
  - constructor.
  - unfold bind. specialize (Hf a k). destruct (f a k) as [b k1].
    specialize (IH k1). destruct (Array_map f l k1) as [bs k2].
    simpl in *. constructor; assumption.
Qed.

Lemma Forall2_map_eq {A B C : Type} (g : A -> C) (h : B -> C)
    (l : list A) (l' : list B) :
  Forall2 (fun a b => h b = g a) l l' -> List.map h l' = List.map g l.
Proof.
  induction 1 as [|a b l l' Hab _ IH]; simpl; [reflexivity|].
  rewrite Hab, IH. reflexivity.
Qed.

Lemma update_callback_id (i : string) (u : PartialTodo.t) (t : Todo.t)
    (k : nat) :
  PartialTodo.id u = None ->
  Todo.id (fst (update_callback clock i u t k)) = Todo.id t.
Proof.
  intros Hu. unfold update_callback.
  destruct (Todo.id t =? i)%string; [|reflexivity].
  simpl. rewrite Hu. reflexivity.
Qed.

Lemma toggle_callback_id (i : string) (t : Todo.t) (k : nat) :
  Todo.id (fst (toggle_callback clock i t k)) = Todo.id t.
Proof.
  unfold toggle_callback. destruct (Todo.id t =? i)%string; reflexivity.
Qed.

Lemma ids_of_update (s : TodoState.t) (i : string) (u : PartialTodo.t)
    (k : nat) :
  PartialTodo.id u = None ->
  ids (reduced clock s (UPDATE_TODO i u) k) = ids s.
Proof.
  intros Hu. rewrite todos_of_update. unfold ids. simpl.
  apply Forall2_map_eq. apply Array_map_pointwise.
  intros a k'. apply update_callback_id. exact Hu.
Qed.

Lemma ids_of_toggle (s : TodoState.t) (i : string) (k : nat) :
  ids (reduced clock s (TOGGLE_TODO i) k) = ids s.
Proof.
  rewrite todos_of_toggle. unfold ids. simpl.
  apply Forall2_map_eq. apply Array_map_pointwise.
  intros a k'. apply toggle_callback_id.
Qed.

Lemma NoDup_map_filter {A B : Type} (g : A -> B) (p : A -> bool)
    (l : list A) :
  NoDup (List.map g l) -> NoDup (List.map g (List.filter p l)).
Proof.
  induction l as [|a l IH]; intros H; simpl.
  - constructor.
  - inversion H as [|x xs Hnot Hrest]; subst.
    destruct (p a); simpl; [|apply IH; assumption].
    constructor; [|apply IH; assumption].
    intros Hin. apply Hnot. apply in_map_iff in Hin.
    destruct Hin as [y [Hy Hin]]. apply filter_In in Hin.
    apply in_map_iff. exists y. tauto.
Qed.

(** X1. The ids of the todos stay pairwise distinct under every action
    that brings what [keeps_ids_distinct] asks of it: a fresh id for a
    new todo, no id in an update, distinct ids in a loaded state.
    Toggle, delete, the category actions, the filter action and an
    unknown action keep them distinct unconditionally. *)
Theorem distinct_ids_are_kept (s : TodoState.t) (a : TodoAction) (k : nat) :
  NoDup (ids s) ->
  keeps_ids_distinct s a ->
  NoDup (ids (reduced clock s a k)).
Proof.
  intros Hs Ha. destruct a; simpl in Ha.
  - unfold reduced, ids. simpl. rewrite List.map_app. simpl.
    apply Permutation_NoDup with (Todo.id payload :: ids s).
    + apply Permutation_cons_append.
    + constructor; assumption.
  - rewrite ids_of_update; assumption.
  - unfold reduced, ids. simpl. apply NoDup_map_filter. exact Hs.
  - rewrite ids_of_toggle. exact Hs.
  - exact Hs.
  - exact Hs.
  - exact Hs.
  - exact Ha.
  - exact Hs.
Qed.

(** X2. Adding todos one after the other appends them to the sequence
    in the order of the calls, whatever the state, and leaves the
    categories and the filter alone; no clock is read. *)
Theorem added_todos_keep_insertion_order (s : TodoState.t)
    (added : list Todo.t) (k : nat) :
  TodoProvider.apply_queued clock s
    (List.map (fun todo => ADD_TODO todo : TodoAction) added) k
  = ({| TodoState.todos := TodoState.todos s ++ added;
        TodoState.categories := TodoState.categories s;
        TodoState.filter := TodoState.filter s |}, k).
Proof.
  revert s. induction added as [|t added IH]; intros s; simpl.
  - rewrite app_nil_r, state_eta. reflexivity.
  - unfold bind, ret. simpl. rewrite IH. simpl.
    rewrite <- app_assoc. reflexivity.
Qed.

(** X3. Adding a todo under a fresh id and deleting that id gives the
    state back. *)
Theorem add_then_delete_restores (s : TodoState.t) (todo : Todo.t)
    (k k' : nat) :
  ~ In (Todo.id todo) (ids s) ->
  reduced clock (reduced clock s (ADD_TODO todo) k)
    (DELETE_TODO (Todo.id todo)) k' = s.
Proof.
  intros Hfresh. unfold reduced. simpl. rewrite filter_app. simpl.
  rewrite String.eqb_refl. simpl. rewrite app_nil_r.
  rewrite filter_all; [apply state_eta|].
  intros t Ht. apply negb_true_iff, String.eqb_neq. intros E.
  apply Hfresh. unfold ids. apply in_map_iff. exists t. tauto.
Qed.

(** X4. Deleting is idempotent, and a deleted id is gone for the other
    operations: after Delete Todo, a second Delete, a Toggle and an
    Update with the same id change nothing, and none reads the clock. *)
Theorem deleted_id_is_gone (s : TodoState.t) (i : string)
    (updates : PartialTodo.t) (k k' : nat) :
  let s' := reduced clock s (DELETE_TODO i) k in
  ~ In i (ids s') /\
  todoReducer clock s' (DELETE_TODO i) k' = (s', k') /\
  todoReducer clock s' (TOGGLE_TODO i) k' = (s', k') /\
  todoReducer clock s' (UPDATE_TODO i updates) k' = (s', k').
Proof.
  intros s'.
  assert (Hgone : forall t, In t (TodoState.todos s') ->
                            (Todo.id t =? i)%string = false).
  { intros t Ht. unfold s', reduced in Ht. simpl in Ht.
    apply filter_In in Ht. destruct Ht as [_ Ht].
    apply negb_true_iff in Ht. exact Ht. }
  clearbody s'.
  split; [|split; [|split]].
  - unfold ids. intros Hin. apply in_map_iff in Hin.
    destruct Hin as [t [Hid Ht]]. apply Hgone in Ht.
    apply String.eqb_neq in Ht. contradiction.
  - simpl. unfold ret. f_equal. rewrite filter_all.
    + apply state_eta.
    + intros t Ht. rewrite (Hgone t Ht). reflexivity.
  - simpl. unfold bind. rewrite Array_map_untouched.
    + unfold ret. f_equal. apply state_eta.
    + intros t j Ht. unfold toggle_callback. rewrite (Hgone t Ht).
      reflexivity.
  - simpl. unfold bind. rewrite Array_map_untouched.
    + unfold ret. f_equal. apply state_eta.
    + intros t j Ht. unfold update_callback. rewrite (Hgone t Ht).
      reflexivity.
Qed.

(** X5. Toggling twice gives every todo back but for its timestamp: at
    each position the todo has its former fields, [completed] included,
    once [updatedAt] is set back; a todo with another id is the very
    same. *)
Theorem toggle_twice_restores (s : TodoState.t) (i : string) (k k' n : nat)
    (todo : Todo.t) :
  nth_error (TodoState.todos s) n = Some todo ->
  exists todo'',
    nth_error
      (TodoState.todos
         (reduced clock (reduced clock s (TOGGLE_TODO i) k) (TOGGLE_TODO i) k'))
      n = Some todo'' /\
    with_updatedAt todo'' (Todo.updatedAt todo) = todo /\
    (Todo.id todo <> i -> todo'' = todo).
Proof.
  intros Hn.
  pose proof (toggle_nth clock i s k n todo Hn) as H1.
  pose proof (toggle_nth clock i _ k' n _ H1) as H2.
  rewrite H2. eexists. split; [reflexivity|].
  destruct (Todo.id todo =? i)%string eqn:E.
  - simpl. rewrite E. split.
    + destruct todo. unfold with_updatedAt, with_completed. simpl.
      rewrite negb_involutive. reflexivity.
    + intros Hne. apply String.eqb_eq in E. contradiction.
  - rewrite E. split; [destruct todo; reflexivity | reflexivity].
Qed.

(** X6. What each action leaves alone.  The todo actions leave the
    categories and the filter; the category actions leave the todos,
    also those that name a deleted category, and the filter; the filter
    action leaves the todos and the categories. *)
Theorem actions_leave_the_rest (s : TodoState.t) (a : TodoAction) (k : nat) :
  match a with
  | ADD_TODO _ | UPDATE_TODO _ _ | DELETE_TODO _ | TOGGLE_TODO _ =>
      TodoState.categories (reduced clock s a k) = TodoState.categories s /\
      TodoState.filter (reduced clock s a k) = TodoState.filter s
  | ADD_CATEGORY _ | DELETE_CATEGORY _ =>
      TodoState.todos (reduced clock s a k) = TodoState.todos s /\
      TodoState.filter (reduced clock s a k) = TodoState.filter s
  | SET_FILTER _ =>
      TodoState.todos (reduced clock s a k) = TodoState.todos s /\
      TodoState.categories (reduced clock s a k) = TodoState.categories s
  | LOAD_STATE payload => reduced clock s a k = payload
  | UNKNOWN_ACTION _ => reduced clock s a k = s
  end.
Proof.
  destruct a; try (split; reflexivity); try reflexivity.
  - rewrite todos_of_update. split; reflexivity.
  - rewrite todos_of_toggle. split; reflexivity.
Qed.

(** X7. Update and Toggle keep the number of todos and leave every todo
    with another id where it is, unchanged. *)
Theorem other_todos_stay_in_place (s : TodoState.t) (i : string)
    (updates : PartialTodo.t) (k : nat) :
  List.length (TodoState.todos (reduced clock s (UPDATE_TODO i updates) k))
    = List.length (TodoState.todos s) /\
  List.length (TodoState.todos (reduced clock s (TOGGLE_TODO i) k))
    = List.length (TodoState.todos s) /\
  forall n todo,
    nth_error (TodoState.todos s) n = Some todo ->
    Todo.id todo <> i ->
    nth_error (TodoState.todos (reduced clock s (UPDATE_TODO i updates) k)) n
      = Some todo /\
    nth_error (TodoState.todos (reduced clock s (TOGGLE_TODO i) k)) n
      = Some todo.
Proof.
  split; [|split].
  - rewrite todos_of_update. simpl. symmetry.
    apply (Forall2_length
             (Array_map_pointwise _ (fun _ _ => True)
                (fun _ _ => I) (TodoState.todos s) k)).
  - rewrite todos_of_toggle. simpl. symmetry.
    apply (Forall2_length
             (Array_map_pointwise _ (fun _ _ => True)
                (fun _ _ => I) (TodoState.todos s) k)).
  - intros n todo Hn Hne. apply String.eqb_neq in Hne.
    rewrite (update_nth clock i updates s k n todo Hn).
    rewrite (toggle_nth clock i s k n todo Hn).
    rewrite Hne. split; reflexivity.
Qed.

(** X8. The reducer reads the clock once for each todo that carries the
    id of an Update or a Toggle, and never for another action. *)
Theorem clock_reads_of_the_reducer (s : TodoState.t) (a : TodoAction)
    (k : nat) :
  snd (todoReducer clock s a k)
  = k + match a with
        | UPDATE_TODO i _ | TOGGLE_TODO i => matches i (TodoState.todos s)
        | _ => 0
        end.
Proof.
  destruct a; simpl; try (rewrite Nat.add_0_r; reflexivity).
  - unfold bind.
    pose proof (Array_map_matching clock
                  (fun t now => with_updatedAt (spread_todo t updates) now)
                  id (TodoState.todos s) k) as [Hk _].
    fold (update_callback clock id updates) in Hk.
    destruct (Array_map (update_callback clock id updates)
                (TodoState.todos s) k) as [ts k'].
    simpl in *. exact Hk.
  - unfold bind.
    pose proof (Array_map_matching clock
                  (fun t now =>
                     with_updatedAt
                       (with_completed t (negb (Todo.completed t))) now)
                  payload (TodoState.todos s) k) as [Hk _].
    fold (toggle_callback clock payload) in Hk.
    destruct (Array_map (toggle_callback clock payload)
                (TodoState.todos s) k) as [ts k'].
    simpl in *. exact Hk.
Qed.

End ReducerLaws.

Lemma distinct_ids_are_kept_witness :
  (NoDup (ids (with_todos mockTodos)) /\
   keeps_ids_distinct (with_todos mockTodos) (TOGGLE_TODO "2")) /\
  NoDup (ids (reduced running_clock (with_todos mockTodos) (TOGGLE_TODO "2") 0)).
Proof.
  assert (H : NoDup (ids (with_todos mockTodos))).
  { unfold ids. simpl. repeat constructor; simpl; intuition discriminate. }
  split.
  - split; [exact H | exact I].
  - exact (distinct_ids_are_kept running_clock (with_todos mockTodos)
             (TOGGLE_TODO "2") 0 H I).
Defined.

Lemma add_then_delete_restores_witness :
  ~ In (Todo.id newTodo) (ids (with_todos [mockTodo])) /\
  TodoState.todos
    (reduced frozen_clock (with_todos [mockTodo]) (ADD_TODO newTodo) 0)
  = [mockTodo; newTodo] /\
  reduced frozen_clock
    (reduced frozen_clock (with_todos [mockTodo]) (ADD_TODO newTodo) 0)
    (DELETE_TODO (Todo.id newTodo)) 0 = with_todos [mockTodo].
Proof.
  assert (H : ~ In (Todo.id newTodo) (ids (with_todos [mockTodo]))).
  { simpl. intros [E|[]]. discriminate. }
  split; [exact H|]. split; [reflexivity|].
  exact (add_then_delete_restores frozen_clock (with_todos [mockTodo])
           newTodo 0 0 H).
Defined.

Lemma toggle_twice_restores_witness :
  nth_error (TodoState.todos (with_todos [mockTodo])) 0 = Some mockTodo /\
  exists todo'',
    nth_error
      (TodoState.todos
         (reduced running_clock
            (reduced running_clock (with_todos [mockTodo]) (TOGGLE_TODO "1") 0)
            (TOGGLE_TODO "1") 1))
      0 = Some todo'' /\
    with_updatedAt todo'' (Todo.updatedAt mockTodo) = mockTodo /\
    (Todo.id mockTodo <> "1" -> todo'' = mockTodo).
Proof.
  split.
  - reflexivity.
  - exact (toggle_twice_restores running_clock (with_todos [mockTodo]) "1"
             0 1 0 mockTodo eq_refl).
Defined.

(** ** More on the prescribed sort *)

Section SortAndFilter.

Context {A : Type} (comparefn : A -> A -> num).

(** Sorting commutes with dropping the back block of a two-block
    comparator: when no element outside [P] is ever moved behind one of
    [P], removing the [P]-elements before the sort or after it gives the
    same array. *)
Variable P : A -> bool.
Hypothesis P_behind :
  forall x y, P x = true -> P y = false -> positive (comparefn x y) = true.
Hypothesis others_ahead :
  forall x y, P x = false -> P y = true -> positive (comparefn x y) = false.

Lemma insert_front_block (x : A) (l : list A) :
  P x = false ->
  StronglySorted (fun a b => P a = true -> P b = true) l ->
  List.filter (fun y => negb (P y)) (insert comparefn x l)
  = insert comparefn x (List.filter (fun y => negb (P y)) l).
Proof.
  intros Px. induction l as [|y l IH]; intros Hl; simpl.
  - rewrite Px. reflexivity.
  - apply StronglySorted_inv in Hl. destruct Hl as [Hl Hy].
    destruct (P y) eqn:Py; simpl.
    + rewrite (others_ahead x y Px Py). simpl. rewrite Px, Py. simpl.
      rewrite filter_none; [reflexivity|].
      intros z Hz. rewrite Forall_forall in Hy.
      rewrite (Hy z Hz eq_refl). reflexivity.
    + destruct (positive (comparefn x y)); simpl.
      * rewrite Py. simpl. rewrite IH by assumption. reflexivity.
      * rewrite Px, Py. reflexivity.
Qed.

Lemma stable_sort_front_block (l : list A) :
  List.filter (fun y => negb (P y)) (stable_sort comparefn l)
  = stable_sort comparefn (List.filter (fun y => negb (P y)) l).
Proof.
  induction l as [|x l IH]; simpl; [reflexivity|].
  destruct (P x) eqn:Px; simpl.
  - rewrite insert_filter.
    + simpl. rewrite Px. simpl. exact IH.
    + rewrite Px. discriminate.
  - rewrite insert_front_block.
    + rewrite IH. reflexivity.
    + exact Px.
    + apply stable_sort_blocks; assumption.
Qed.

End SortAndFilter.

(** ** More on the derived view *)

Section ViewLaws.

Variable toLowerCase : string -> string.
Variable Date_getTime : string -> num.

(** X9. The view lists each todo that passes the filter exactly once:
    it is a permutation of the todos the four stages keep.  So it is no
    longer than the sequence of todos, and when the ids of the state are
    pairwise distinct so are the keys of the list. *)
Theorem view_lists_each_kept_todo_once (state : TodoState.t) :
  Permutation (filteredAndSortedTodos toLowerCase Date_getTime state)
    (List.filter (keeps toLowerCase (TodoState.filter state))
       (TodoState.todos state)) /\
  List.length (filteredAndSortedTodos toLowerCase Date_getTime state)
    <= List.length (TodoState.todos state) /\
  (NoDup (ids state) ->
   NoDup (List.map Todo.id
            (filteredAndSortedTodos toLowerCase Date_getTime state))).
Proof.
  assert (Hp : Permutation
                 (filteredAndSortedTodos toLowerCase Date_getTime state)
                 (List.filter (keeps toLowerCase (TodoState.filter state))
                    (TodoState.todos state))).
  { unfold filteredAndSortedTodos. rewrite <- filtered_keeps.
    apply Array_sort_perm. }
  split; [exact Hp|]. split.
  - rewrite (Permutation_length Hp). apply filter_length_le.
  - intros Hids.
    apply Permutation_NoDup
      with (List.map Todo.id
              (List.filter (keeps toLowerCase (TodoState.filter state))
                 (TodoState.todos state))).
    + apply Permutation_map, Permutation_sym, Hp.
    + apply NoDup_map_filter. exact Hids.
Qed.

(** *** The comparator under [sortBy = priority] *)

Ltac priority_cases :=
  unfold same_priority_rank, compareTodos;
  repeat match goal with
         | |- context [Todo.completed ?t] =>
             destruct (Todo.completed t); simpl
         | |- context [Todo.priority ?t] =>
             destruct (Todo.priority t); simpl
         end;
  intros; try discriminate; try reflexivity; try tauto.

Lemma priority_after_asym (a b : Todo.t) :
  True -> True ->
  positive (compareTodos Date_getTime SortBy.priority a b) = true ->
  positive (compareTodos Date_getTime SortBy.priority b a) = false.
Proof. priority_cases. Qed.

Lemma priority_not_after_trans (a b c : Todo.t) :
  True -> True -> True ->
  positive (compareTodos Date_getTime SortBy.priority a b) = false ->
  positive (compareTodos Date_getTime SortBy.priority b c) = false ->
  positive (compareTodos Date_getTime SortBy.priority a c) = false.
Proof. priority_cases. Qed.

Lemma priority_not_after (a b : Todo.t) :
  positive (compareTodos Date_getTime SortBy.priority a b) = false ->
  Todo.completed a = Todo.completed b ->
  (Todo.priority b = high -> Todo.priority a = high) /\
  (Todo.priority a = low -> Todo.priority b = low).
Proof. priority_cases; split; intros; try discriminate; reflexivity. Qed.

Lemma same_priority_rank_not_after (x a b : Todo.t) :
  same_priority_rank x a = true ->
  same_priority_rank x b = true ->
  positive (compareTodos Date_getTime SortBy.priority a b) = false.
Proof. priority_cases. Qed.

Lemma priority_opposite (a b : Todo.t) :
  True -> True ->
  negative (compareTodos Date_getTime SortBy.priority a b)
  = positive (compareTodos Date_getTime SortBy.priority b a).
Proof. priority_cases. Qed.

(** The comparator of the priorities is consistent on all todos: [sort]
    returns the prescribed array. *)
Lemma priority_sort_prescribed (l : list Todo.t) :
  Array_sort (compareTodos Date_getTime SortBy.priority) l
  = stable_sort (compareTodos Date_getTime SortBy.priority) l.
Proof.
  apply (Array_sort_prescribed (compareTodos Date_getTime SortBy.priority)
           (fun _ => True)
           priority_after_asym priority_not_after_trans priority_opposite).
  apply Forall_forall. intros; exact I.
Qed.

(** X10. Order under [sortBy = priority].  Of two todos of the same
    completion partition, the one listed later is of high priority only
    if the earlier one is, and the earlier one is of low priority only
    if the later one is: high comes before medium before low.  The sort
    is stable: the todos of one partition and one priority are listed in
    the order they have in the state. *)
Theorem priority_order (state : TodoState.t) :
  TodoFilter.sortBy (TodoState.filter state) = SortBy.priority ->
  (forall i j a b,
      i < j ->
      nth_error (filteredAndSortedTodos toLowerCase Date_getTime state) i
        = Some a ->
      nth_error (filteredAndSortedTodos toLowerCase Date_getTime state) j
        = Some b ->
      Todo.completed a = Todo.completed b ->
      (Todo.priority b = high -> Todo.priority a = high) /\
      (Todo.priority a = low -> Todo.priority b = low)) /\
  (forall x,
      List.filter (same_priority_rank x)
        (filteredAndSortedTodos toLowerCase Date_getTime state)
      = List.filter (same_priority_rank x)
          (List.filter (keeps toLowerCase (TodoState.filter state))
             (TodoState.todos state))).
Proof.
  intros HsortBy. unfold filteredAndSortedTodos. rewrite HsortBy.
  rewrite priority_sort_prescribed. split.
  - intros i j a b Hij Ha Hb Hc.
    pose proof (stable_sort_sorted
                  (compareTodos Date_getTime SortBy.priority)
                  (fun _ => True)
                  priority_after_asym priority_not_after_trans
                  (filtered toLowerCase state)) as Hsorted.
    assert (Hall : Forall (fun _ : Todo.t => True) (filtered toLowerCase state))
      by (apply Forall_forall; intros; exact I).
    apply priority_not_after; [|exact Hc].
    apply (StronglySorted_nth _ _ (Hsorted Hall) i j a b Hij Ha Hb).
  - intros x. rewrite <- filtered_keeps. apply stable_sort_stable.
    intros a b _ _. apply same_priority_rank_not_after.
Qed.

(** *** The comparator under [sortBy = createdAt] *)

Ltac created_cases :=
  unfold same_created_rank, valid_createdAt, compareTodos;
  repeat match goal with
         | |- context [Todo.completed ?t] =>
             destruct (Todo.completed t); simpl
         | |- context [Date_getTime (Todo.createdAt ?t)] =>
             destruct (Date_getTime (Todo.createdAt t)); simpl
         end;
  intros;
  repeat match goal with
         | H : None <> None |- _ => contradiction H; reflexivity
         | H : (_ <? _)%Z = true |- _ => apply Z.ltb_lt in H
         | H : (_ <? _)%Z = false |- _ => apply Z.ltb_ge in H
         | H : (_ =? _)%Z = true |- _ => apply Z.eqb_eq in H
         | |- (_ <? _)%Z = false => apply Z.ltb_ge
         end;
  try discriminate; try reflexivity; try lia.

Lemma created_after_asym (a b : Todo.t) :
  valid_createdAt Date_getTime a -> valid_createdAt Date_getTime b ->
  positive (compareTodos Date_getTime SortBy.createdAt a b) = true ->
  positive (compareTodos Date_getTime SortBy.createdAt b a) = false.
Proof. created_cases. Qed.

Lemma created_not_after_trans (a b c : Todo.t) :
  valid_createdAt Date_getTime a -> valid_createdAt Date_getTime b ->
  valid_createdAt Date_getTime c ->
  positive (compareTodos Date_getTime SortBy.createdAt a b) = false ->
  positive (compareTodos Date_getTime SortBy.createdAt b c) = false ->
  positive (compareTodos Date_getTime SortBy.createdAt a c) = false.
Proof. created_cases. Qed.

Lemma created_not_after (a b : Todo.t) :
  valid_createdAt Date_getTime a -> valid_createdAt Date_getTime b ->
  positive (compareTodos Date_getTime SortBy.createdAt a b) = false ->
  Todo.completed a = Todo.completed b ->
  exists ta tb,
    Date_getTime (Todo.createdAt a) = Some ta /\
    Date_getTime (Todo.createdAt b) = Some tb /\
    (tb <= ta)%Z.
Proof.
  created_cases; do 2 eexists;
    (split; [reflexivity|]); (split; [reflexivity|]); lia.
Qed.

Lemma same_created_rank_not_after (x a b : Todo.t) :
  same_created_rank Date_getTime x a = true ->
  same_created_rank Date_getTime x b = true ->
  positive (compareTodos Date_getTime SortBy.createdAt a b) = false.
Proof. created_cases. Qed.

Lemma created_opposite (a b : Todo.t) :
  valid_createdAt Date_getTime a -> valid_createdAt Date_getTime b ->
  negative (compareTodos Date_getTime SortBy.createdAt a b)
  = positive (compareTodos Date_getTime SortBy.createdAt b a).
Proof.
  created_cases;
    repeat match goal with
           | |- context [(?x <? ?y)%Z] => destruct (Z.ltb_spec x y)
           end;
    try reflexivity; lia.
Qed.

(** Where the creation times parse, the comparator is consistent and
    [sort] returns the prescribed array. *)
Lemma createdAt_sort_prescribed (l : list Todo.t) :
  Forall (valid_createdAt Date_getTime) l ->
  Array_sort (compareTodos Date_getTime SortBy.createdAt) l
  = stable_sort (compareTodos Date_getTime SortBy.createdAt) l.
Proof.
  apply (Array_sort_prescribed (compareTodos Date_getTime SortBy.createdAt)
           (valid_createdAt Date_getTime)
           created_after_asym created_not_after_trans created_opposite).
Qed.

(** X11. Order under [sortBy = createdAt], for a state whose creation
    times are instants.  Of two todos of the same completion partition
    the one listed earlier was created no earlier: newest first.  The
    sort is stable: todos of one partition created at the same instant
    are listed in the order they have in the state. *)
Theorem createdAt_order (state : TodoState.t) :
  TodoFilter.sortBy (TodoState.filter state) = SortBy.createdAt ->
  Forall (valid_createdAt Date_getTime) (TodoState.todos state) ->
  (forall i j a b,
      i < j ->
      nth_error (filteredAndSortedTodos toLowerCase Date_getTime state) i
        = Some a ->
      nth_error (filteredAndSortedTodos toLowerCase Date_getTime state) j
        = Some b ->
      Todo.completed a = Todo.completed b ->
      exists ta tb,
        Date_getTime (Todo.createdAt a) = Some ta /\
        Date_getTime (Todo.createdAt b) = Some tb /\
        (tb <= ta)%Z) /\
  (forall x,
      List.filter (same_created_rank Date_getTime x)
        (filteredAndSortedTodos toLowerCase Date_getTime state)
      = List.filter (same_created_rank Date_getTime x)
          (List.filter (keeps toLowerCase (TodoState.filter state))
             (TodoState.todos state))).
Proof.
  intros HsortBy Hvalid. unfold filteredAndSortedTodos. rewrite HsortBy.
  assert (Hfv : Forall (valid_createdAt Date_getTime)
                  (filtered toLowerCase state)).
  { rewrite filtered_keeps, !Forall_forall in *. intros t Ht.
    apply filter_In in Ht. apply Hvalid. tauto. }
  rewrite (createdAt_sort_prescribed _ Hfv).
  split.
  - intros i j a b Hij Ha Hb Hc.
    pose proof (stable_sort_sorted
                  (compareTodos Date_getTime SortBy.createdAt)
                  (valid_createdAt Date_getTime)
                  created_after_asym created_not_after_trans
                  (filtered toLowerCase state) Hfv) as Hsorted.
    assert (Hin : forall n t,
               nth_error (stable_sort
                            (compareTodos Date_getTime SortBy.createdAt)
                            (filtered toLowerCase state)) n = Some t ->
               valid_createdAt Date_getTime t).
    { intros n t Hn. apply nth_error_In in Hn.
      apply (proj1 (stable_sort_In _ _ _)) in Hn.
      rewrite Forall_forall in Hfv. apply Hfv; assumption. }
    apply created_not_after; eauto.
    apply (StronglySorted_nth _ _ Hsorted i j a b Hij Ha Hb).
  - intros x. rewrite <- filtered_keeps. apply stable_sort_stable.
    intros a b _ _. apply same_created_rank_not_after.
Qed.

(** On todos whose dates the sort key reads parse, [sort] returns the
    prescribed array, whatever the sort key. *)
Lemma comparable_sort_prescribed (sortBy : SortBy.t) (l : list Todo.t) :
  Forall (comparable Date_getTime sortBy) l ->
  Array_sort (compareTodos Date_getTime sortBy) l
  = stable_sort (compareTodos Date_getTime sortBy) l.
Proof.
  destruct sortBy; simpl; intros H.
  - apply dueDate_sort_prescribed.
    rewrite Forall_forall in *. intros t Ht.
    apply dueDate_parses_valid, H, Ht.
  - apply priority_sort_prescribed.
  - apply createdAt_sort_prescribed. exact H.
Qed.

End ViewLaws.

(** ** The filter panel, the store and the view together *)

Section PanelLaws.

Variable clock : Clock.
Variable toLowerCase : string -> string.
Variable Date_getTime : string -> num.

Lemma keeps_hidden (f : TodoFilter.t) (checked : bool) (todo : Todo.t) :
  keeps toLowerCase
    (spread_filter f
       (FilterPanel.payload (FilterPanel.ShowCompletedChange checked))) todo
  = keeps toLowerCase
      (spread_filter f
         (FilterPanel.payload (FilterPanel.ShowCompletedChange true))) todo
    && (if checked then true else negb (Todo.completed todo)).
Proof.
  unfold keeps. simpl. destruct checked; simpl.
  - rewrite !andb_true_r. reflexivity.
  - rewrite !andb_true_r. reflexivity.
Qed.

(** X12. Hiding the completed todos removes them from the list and
    leaves the others in the order they had: where the dates the sort key
    reads parse, the view after unticking "show completed" is the view
    after ticking it, without its completed todos.  This holds for every
    sort key and host. *)
Theorem hiding_completed_keeps_the_order (s : TodoState.t) :
  Forall (comparable Date_getTime (TodoFilter.sortBy (TodoState.filter s)))
    (filteredAndSortedTodos toLowerCase Date_getTime
       (after_event clock s (FilterPanel.ShowCompletedChange true))) ->
  filteredAndSortedTodos toLowerCase Date_getTime
    (after_event clock s (FilterPanel.ShowCompletedChange false))
  = List.filter (fun todo => negb (Todo.completed todo))
      (filteredAndSortedTodos toLowerCase Date_getTime
         (after_event clock s (FilterPanel.ShowCompletedChange true))).
Proof.
  unfold filteredAndSortedTodos. rewrite !filtered_keeps.
  unfold after_event, reduced. simpl. intros Hc.
  set (sortBy := TodoFilter.sortBy (TodoState.filter s)) in *.
  match goal with
  | |- _ = List.filter _ (Array_sort _ ?l) => set (shown := l) in *
  end.
  assert (Hshown : Forall (comparable Date_getTime sortBy) shown).
  { rewrite Forall_forall in *. intros t Ht. apply Hc.
    apply Array_sort_In. exact Ht. }
  match goal with
  | |- Array_sort _ ?h = _ =>
      assert (Hhidden :
                h = List.filter (fun todo => negb (Todo.completed todo)) shown)
  end.
  { unfold shown. rewrite filter_filter. apply filter_ext. intros todo.
    apply (keeps_hidden (TodoState.filter s) false todo). }
  rewrite Hhidden.
  rewrite (comparable_sort_prescribed Date_getTime sortBy shown Hshown).
  rewrite (comparable_sort_prescribed Date_getTime sortBy).
  - symmetry.
    apply (stable_sort_front_block _ Todo.completed
             (completed_goes_behind Date_getTime _)
             (incomplete_stays_ahead Date_getTime _)).
  - rewrite Forall_forall in *. intros t Ht. apply filter_In in Ht.
    apply Hshown. tauto.
Qed.

(** X13. Clearing the filters brings the filter back to the initial one
    whatever it was, and the list then shows every todo of the state,
    each once. *)
Theorem clearing_the_filters_lists_every_todo (s : TodoState.t) :
  TodoState.filter (after_event clock s FilterPanel.ClearFilters)
    = TodoState.filter initialState /\
  TodoState.todos (after_event clock s FilterPanel.ClearFilters)
    = TodoState.todos s /\
  Permutation
    (filteredAndSortedTodos toLowerCase Date_getTime
       (after_event clock s FilterPanel.ClearFilters))
    (TodoState.todos s).
Proof.
  split; [reflexivity|]. split; [reflexivity|].
  unfold filteredAndSortedTodos.
  apply perm_trans
    with (filtered toLowerCase (after_event clock s FilterPanel.ClearFilters)).
  - apply Array_sort_perm.
  - rewrite filtered_keeps. unfold after_event, reduced. simpl.
    rewrite (filter_ext _ (fun _ => true)) by reflexivity.
    rewrite filter_true. apply Permutation_refl.
Qed.

Lemma or_undefined_not_empty (value : string) :
  or_undefined value <> Some EmptyString.
Proof.
  unfold or_undefined. destruct (truthy value) eqn:E; [|discriminate].
  apply truthy_true in E. congruence.
Qed.

Lemma panel_call_keeps_category (s : TodoState.t) (c : TodoProvider.Call)
    (k : nat) :
  TodoFilter.category (TodoState.filter s) <> Some EmptyString ->
  from_the_panel c ->
  TodoFilter.category
    (TodoState.filter (reduced clock s (TodoProvider.dispatched c) k))
  <> Some EmptyString.
Proof.
  intros Hs Hc. destruct c; simpl in *; try exact Hs.
  - rewrite todos_of_update. exact Hs.
  - rewrite todos_of_toggle. exact Hs.
  - destruct Hc as [e ->]. unfold reduced. simpl.
    destruct e; simpl; try exact Hs; try discriminate.
    apply or_undefined_not_empty.
Qed.

(** X14. The category criterion is never the empty text.  From a state
    where it is not (the initial state is one), whatever calls the
    components then make, with the filter set through the handlers of
    the panel, the criterion is absent or a non-empty text: the panel
    stores its "all" choice as [undefined]. *)
Theorem category_criterion_is_never_empty (s : TodoState.t)
    (calls : list TodoProvider.Call) (k : nat) :
  TodoFilter.category (TodoState.filter s) <> Some EmptyString ->
  Forall from_the_panel calls ->
  TodoFilter.category
    (TodoState.filter
       (fst (TodoProvider.apply_queued clock s
               (List.map TodoProvider.dispatched calls) k)))
  <> Some EmptyString.
Proof.
  revert s k. induction calls as [|c calls IH]; intros s k Hs Hcalls; simpl.
  - exact Hs.
  - apply Forall_cons_iff in Hcalls. destruct Hcalls as [Hc Hcalls].
    unfold bind.
    pose proof (panel_call_keeps_category s c k Hs Hc) as Hnext.
    unfold reduced in Hnext.
    destruct (todoReducer clock s (TodoProvider.dispatched c) k) as [s' k'].
    simpl in Hnext. apply IH; assumption.
Qed.

(** X15. The search does not look at the case of the query, for a
    lower-casing that is idempotent and maps only the empty text to the
    empty text: searching for a text and for its lower-cased form list
    the same todos in the same order. *)
Theorem search_ignores_the_case_of_the_query (s : TodoState.t) (q : string) :
  (forall x, toLowerCase (toLowerCase x) = toLowerCase x) ->
  (forall x, toLowerCase x = EmptyString <-> x = EmptyString) ->
  filteredAndSortedTodos toLowerCase Date_getTime
    (after_event clock s (FilterPanel.SearchChange (toLowerCase q)))
  = filteredAndSortedTodos toLowerCase Date_getTime
      (after_event clock s (FilterPanel.SearchChange q)).
Proof.
  intros Hidem Hempty. unfold filteredAndSortedTodos.
  rewrite !filtered_keeps. unfold after_event, reduced. simpl.
  f_equal. apply filter_ext. intros todo. unfold keeps. simpl.
  rewrite Hidem.
  assert (Ht : truthy (toLowerCase q) = truthy q).
  { destruct (truthy q) eqn:E.
    - apply truthy_true. apply truthy_true in E. rewrite Hempty. exact E.
    - apply truthy_false. apply truthy_false in E. apply Hempty. exact E. }
  rewrite Ht. reflexivity.
Qed.

End PanelLaws.

Lemma ascii_lower_idem (c : ascii) : ascii_lower (ascii_lower c) = ascii_lower c.
Proof. destruct c as [[] [] [] [] [] [] [] []]; reflexivity. Qed.

Lemma ascii_toLowerCase_idem (x : string) :
  ascii_toLowerCase (ascii_toLowerCase x) = ascii_toLowerCase x.
Proof.
  induction x as [|c x IH]; simpl; [reflexivity|].
  rewrite ascii_lower_idem, IH. reflexivity.
Qed.

Lemma ascii_toLowerCase_empty (x : string) :
  ascii_toLowerCase x = EmptyString <-> x = EmptyString.
Proof. destruct x; simpl; split; intros H; congruence. Qed.

Lemma mockTodos_created : Forall (valid_createdAt iso_getTime) mockTodos.
Proof.
  repeat constructor; unfold valid_createdAt; simpl; discriminate.
Qed.

Lemma hiding_completed_keeps_the_order_witness :
  Forall
    (comparable iso_getTime
       (TodoFilter.sortBy (TodoState.filter (listed PartialFilter.empty))))
    (view (after_event frozen_clock (listed PartialFilter.empty)
             (FilterPanel.ShowCompletedChange true))) /\
  List.map Todo.title
    (view (after_event frozen_clock (listed PartialFilter.empty)
             (FilterPanel.ShowCompletedChange false)))
  = ["Medium Priority Todo"; "High Priority Todo"] /\
  view (after_event frozen_clock (listed PartialFilter.empty)
          (FilterPanel.ShowCompletedChange false))
  = List.filter (fun todo => negb (Todo.completed todo))
      (view (after_event frozen_clock (listed PartialFilter.empty)
               (FilterPanel.ShowCompletedChange true))).
Proof.
  assert (H : Forall
                (comparable iso_getTime
                   (TodoFilter.sortBy
                      (TodoState.filter (listed PartialFilter.empty))))
                (view (after_event frozen_clock (listed PartialFilter.empty)
                         (FilterPanel.ShowCompletedChange true)))).
  { repeat constructor; discriminate. }
  split; [exact H|]. split; [reflexivity|].
  exact (hiding_completed_keeps_the_order frozen_clock ascii_toLowerCase
           iso_getTime (listed PartialFilter.empty) H).
Defined.

(** Where a creation time does not parse, hiding the completed todos
    can change the order of the others: todo 5 is listed behind the
    todos 3, 1 and 4 while the completed todo 2 is shown, and in front of
    them once it is hidden. *)
Example hiding_completed_reorders_unparseable_createdAt :
  List.map Todo.id
    (view (after_event frozen_clock unparseable_createdAt
             (FilterPanel.ShowCompletedChange true)))
  = ["3"; "1"; "4"; "5"; "2"] /\
  List.map Todo.id
    (view (after_event frozen_clock unparseable_createdAt
             (FilterPanel.ShowCompletedChange false)))
  = ["5"; "3"; "1"; "4"].
Proof. split; reflexivity. Qed.

Lemma priority_order_witness :
  TodoFilter.sortBy
    (TodoState.filter
       (after_event frozen_clock (listed PartialFilter.empty)
          sortBy_priority_event)) = SortBy.priority /\
  List.map Todo.title
    (view (after_event frozen_clock (listed PartialFilter.empty)
             sortBy_priority_event))
  = ["High Priority Todo"; "Medium Priority Todo"; "Low Priority Todo"] /\
  forall x,
    List.filter (same_priority_rank x)
      (view (after_event frozen_clock (listed PartialFilter.empty)
               sortBy_priority_event))
    = List.filter (same_priority_rank x)
        (List.filter
           (keeps ascii_toLowerCase
              (TodoState.filter
                 (after_event frozen_clock (listed PartialFilter.empty)
                    sortBy_priority_event)))
           (TodoState.todos
              (after_event frozen_clock (listed PartialFilter.empty)
                 sortBy_priority_event))).
Proof.
  split; [reflexivity|]. split; [reflexivity|].
  exact (proj2 (priority_order ascii_toLowerCase iso_getTime
                  (after_event frozen_clock (listed PartialFilter.empty)
                     sortBy_priority_event) eq_refl)).
Defined.

Lemma createdAt_order_witness :
  (TodoFilter.sortBy (TodoState.filter (listed PartialFilter.empty))
     = SortBy.createdAt /\
   Forall (valid_createdAt iso_getTime)
     (TodoState.todos (listed PartialFilter.empty))) /\
  forall x,
    List.filter (same_created_rank iso_getTime x)
      (view (listed PartialFilter.empty))
    = List.filter (same_created_rank iso_getTime x)
        (List.filter
           (keeps ascii_toLowerCase
              (TodoState.filter (listed PartialFilter.empty)))
           (TodoState.todos (listed PartialFilter.empty))).
Proof.
  split.
  - split; [reflexivity | exact mockTodos_created].
  - exact (proj2 (createdAt_order ascii_toLowerCase iso_getTime
                    (listed PartialFilter.empty) eq_refl mockTodos_created)).
Defined.

Lemma category_criterion_is_never_empty_witness :
  (TodoFilter.category (TodoState.filter initialState) <> Some EmptyString /\
   Forall from_the_panel
     [TodoProvider.addTodo mockTodo;
      FilterPanel.handle (FilterPanel.CategoryChange "Work");
      FilterPanel.handle (FilterPanel.CategoryChange "")]) /\
  TodoFilter.category
    (TodoState.filter
       (fst (TodoProvider.apply_queued frozen_clock initialState
               (List.map TodoProvider.dispatched
                  [TodoProvider.addTodo mockTodo;
                   FilterPanel.handle (FilterPanel.CategoryChange "Work");
                   FilterPanel.handle (FilterPanel.CategoryChange "")]) 0)))
  <> Some EmptyString.
Proof.
  assert (H1 : TodoFilter.category (TodoState.filter initialState)
               <> Some EmptyString) by discriminate.
  assert (H2 : Forall from_the_panel
                 [TodoProvider.addTodo mockTodo;
                  FilterPanel.handle (FilterPanel.CategoryChange "Work");
                  FilterPanel.handle (FilterPanel.CategoryChange "")]).
  { constructor; [exact I|].
    constructor; [eexists; reflexivity|].
    constructor; [eexists; reflexivity|]. constructor. }
  split.
  - split; assumption.
  - exact (category_criterion_is_never_empty frozen_clock initialState _ 0
             H1 H2).
Defined.

Lemma search_ignores_the_case_of_the_query_witness :
  List.map Todo.title
    (view (after_event frozen_clock (listed PartialFilter.empty)
             (FilterPanel.SearchChange (ascii_toLowerCase "HIGH"))))
  = ["High Priority Todo"] /\
  view (after_event frozen_clock (listed PartialFilter.empty)
          (FilterPanel.SearchChange (ascii_toLowerCase "HIGH")))
  = view (after_event frozen_clock (listed PartialFilter.empty)
            (FilterPanel.SearchChange "HIGH")).
Proof.
  split; [reflexivity|].
  exact (search_ignores_the_case_of_the_query frozen_clock ascii_toLowerCase
           iso_getTime (listed PartialFilter.empty) "HIGH"
           ascii_toLowerCase_idem ascii_toLowerCase_empty).
Defined.

(** ** More on the facade *)

Section FacadeLaws.

Import TodoProvider.

Variable clock : Clock.







End FacadeLaws.

(** ** [trim], [split] and [join] *)

Lemma trimEnd_idem (s : string) : trimEnd (trimEnd s) = trimEnd s.
Proof.
  induction s as [|c s IH]; [reflexivity|].
  cbn [trimEnd]. destruct (trimEnd s) as [|d r] eqn:E.
  - destruct (isWhiteSpace c) eqn:Ec; [reflexivity|].
    cbn [trimEnd]. rewrite Ec. reflexivity.
  - cbn [trimEnd] in *. rewrite IH. reflexivity.
Qed.

Lemma trimStart_begins_clean (s : string) : begins_clean (trimStart s).
Proof.
  induction s as [|c s IH]; simpl; [exact I|].
  destruct (isWhiteSpace c) eqn:E; [exact IH | exact E].
Qed.

Lemma trimEnd_begins_clean (s : string) :
  begins_clean s -> begins_clean (trimEnd s).
Proof.
  destruct s as [|c s]; [intros _; exact I|].
  cbn [begins_clean trimEnd]. intros Hc.
  destruct (trimEnd s); [rewrite Hc|]; exact Hc.
Qed.

Lemma trimStart_clean (s : string) : begins_clean s -> trimStart s = s.
Proof. destruct s as [|c s]; simpl; [reflexivity | intros ->; reflexivity]. Qed.

Lemma trim_idem (s : string) : trim (trim s) = trim s.
Proof.
  unfold trim.
  rewrite (trimStart_clean (trimEnd (trimStart s))).
  - apply trimEnd_idem.
  - apply trimEnd_begins_clean, trimStart_begins_clean.
Qed.

Lemma occurs_trimStart (c : ascii) (s : string) :
  occurs c s = false -> occurs c (trimStart s) = false.
Proof.
  induction s as [|d s IH]; simpl; [reflexivity|].
  intros H. apply orb_false_iff in H. destruct H as [Hd Hs].
  destruct (isWhiteSpace d); [apply IH; exact Hs|].
  simpl. rewrite Hd, Hs. reflexivity.
Qed.

Lemma occurs_trimEnd (c : ascii) (s : string) :
  occurs c s = false -> occurs c (trimEnd s) = false.
Proof.
  induction s as [|d s IH]; [reflexivity|].
  cbn [occurs trimEnd]. intros H.
  apply orb_false_iff in H. destruct H as [Hd Hs].
  specialize (IH Hs). destruct (trimEnd s) as [|e r].
  - destruct (isWhiteSpace d); [reflexivity|].
    simpl. rewrite Hd. reflexivity.
  - cbn [occurs] in *. rewrite Hd, IH. reflexivity.
Qed.

Lemma occurs_trim (c : ascii) (s : string) :
  occurs c s = false -> occurs c (trim s) = false.
Proof. intros H. apply occurs_trimEnd, occurs_trimStart, H. Qed.

Lemma split_not_nil (sep : ascii) (s : string) : split sep s <> [].
Proof.
  induction s as [|c s IH]; simpl; [discriminate|].
  destruct (Ascii.eqb c sep); [discriminate|].
  destruct (split sep s); [contradiction IH; reflexivity | discriminate].
Qed.

(** No piece of a split holds the separator. *)
Lemma split_pieces (sep : ascii) (s : string) :
  Forall (fun piece => occurs sep piece = false) (split sep s).
Proof.
  induction s as [|c s IH]; simpl.
  - repeat constructor.
  - destruct (Ascii.eqb c sep) eqn:E.
    + constructor; [reflexivity | exact IH].
    + destruct (split sep s) as [|head rest].
      * repeat constructor. simpl. rewrite E. reflexivity.
      * apply Forall_cons_iff in IH. destruct IH as [Hh Hr].
        constructor; [|exact Hr]. simpl. rewrite E, Hh. reflexivity.
Qed.

Lemma split_without_separator (sep : ascii) (s : string) :
  occurs sep s = false -> split sep s = [s].
Proof.
  induction s as [|c s IH]; simpl; [reflexivity|].
  intros H. apply orb_false_iff in H. destruct H as [Hc Hs].
  rewrite Hc, (IH Hs). reflexivity.
Qed.

Lemma split_at_separator (sep : ascii) (s rest : string) :
  occurs sep s = false ->
  split sep (s ++ String sep rest) = s :: split sep rest.
Proof.
  induction s as [|c s IH]; simpl.
  - rewrite Ascii.eqb_refl. reflexivity.
  - intros H. apply orb_false_iff in H. destruct H as [Hc Hs].
    rewrite Hc, (IH Hs). reflexivity.
Qed.

Lemma trim_after_space (s : string) : trim (String " " s) = trim s.
Proof. reflexivity. Qed.

Lemma length_positive (s : string) :
  (0 <? String.length s)%nat = true <-> s <> EmptyString.
Proof.
  destruct s; simpl; split; intros H; try congruence; try reflexivity.
  discriminate.
Qed.

(** The pieces of the joined tags, trimmed, are the tags: the second and
    later pieces begin with the space of the separator. *)
Lemma trimmed_pieces_of_join (tags : list string) :
  Forall TodoForm.tidy_tag tags ->
  tags <> [] ->
  List.map trim (split "," (join ", " tags)) = tags /\
  List.map trim (split "," (String " " (join ", " tags))) = tags.
Proof.
  induction tags as [|t tags IH]; intros Htidy Hne; [contradiction|].
  apply Forall_cons_iff in Htidy. destruct Htidy as [[_ [Ht Hc]] Htidy].
  destruct tags as [|t2 tags].
  - cbn [join]. rewrite (split_without_separator "," t Hc).
    assert (Hc' : occurs "," (String " " t) = false) by (simpl; exact Hc).
    rewrite (split_without_separator "," _ Hc'). cbn [List.map].
    rewrite trim_after_space, Ht. split; reflexivity.
  - destruct (IH Htidy) as [_ IH2]; [discriminate|].
    change (join ", " (t :: t2 :: tags))
      with (t ++ String "," (String " " (join ", " (t2 :: tags))))%string.
    split.
    + rewrite (split_at_separator "," t _ Hc). cbn [List.map].
      rewrite Ht, IH2. reflexivity.
    + change (String " " (t ++ String "," (String " " (join ", " (t2 :: tags)))))
        with (String " " t ++ String "," (String " " (join ", " (t2 :: tags))))%string.
      rewrite (split_at_separator "," (String " " t) _)
        by (simpl; exact Hc).
      cbn [List.map]. rewrite trim_after_space, Ht, IH2. reflexivity.
Qed.

Lemma tagArray_join (tags : list string) :
  Forall TodoForm.tidy_tag tags ->
  TodoForm.tagArray (join ", " tags) = tags.
Proof.
  intros Htidy. unfold TodoForm.tagArray.
  destruct tags as [|t tags]; [reflexivity|].
  destruct (trimmed_pieces_of_join (t :: tags) Htidy) as [H _];
    [discriminate|].
  rewrite H. apply filter_all.
  intros x Hx. rewrite Forall_forall in Htidy.
  apply length_positive. apply (Htidy x Hx).
Qed.

Lemma tagArray_tidy (field : string) :
  Forall TodoForm.tidy_tag (TodoForm.tagArray field).
Proof.
  unfold TodoForm.tagArray. apply Forall_forall. intros tag Hin.
  apply filter_In in Hin. destruct Hin as [Hin Hlen].
  apply in_map_iff in Hin. destruct Hin as [piece [<- Hpiece]].
  pose proof (split_pieces "," field) as Hpieces.
  rewrite Forall_forall in Hpieces.
  split; [|split].
  - apply length_positive. exact Hlen.
  - apply trim_idem.
  - apply occurs_trim. apply Hpieces. exact Hpiece.
Qed.

(** X17. The tags field.  Whatever is typed into it, the tags the form
    reads from it are tidy: none is empty, none begins or ends with white
    space, none holds a comma.  And tidy tags survive the editor: joined
    with ", " for the field and read back, they are the same tags in the
    same order (no tags give the empty field, which reads as no tags). *)
Theorem tags_field_round_trip :
  (forall field, Forall TodoForm.tidy_tag (TodoForm.tagArray field)) /\
  (forall tags,
      Forall TodoForm.tidy_tag tags ->
      TodoForm.tagArray (join ", " tags) = tags).
Proof.
  split; [exact tagArray_tidy | exact tagArray_join].
Qed.

(** ** The todo form *)

Lemma or_undefined_some (s d : string) :
  or_undefined s = Some d -> d = s /\ s <> EmptyString.
Proof.
  unfold or_undefined. destruct (truthy s) eqn:E; [|discriminate].
  intros H. injection H as <-. split; [reflexivity|].
  apply truthy_true. exact E.
Qed.

Lemma or_undefined_of_or_empty (o : option string) :
  o <> Some EmptyString -> or_undefined (or_empty o) = o.
Proof.
  destruct o as [d|]; simpl; [|reflexivity].
  intros H. unfold or_undefined. destruct (truthy d) eqn:E; [reflexivity|].
  apply truthy_false in E. congruence.
Qed.

Lemma written_fields_tidy (f : TodoForm.Fields) (todo : Todo.t) :
  truthy (trim (TodoForm.title f)) = true ->
  Todo.title todo = trim (TodoForm.title f) ->
  Todo.description todo = or_undefined (trim (TodoForm.description f)) ->
  Todo.dueDate todo = or_undefined (TodoForm.dueDate f) ->
  Todo.category todo = or_undefined (TodoForm.category f) ->
  Todo.tags todo = TodoForm.tagArray (TodoForm.tags f) ->
  TodoForm.tidy todo.
Proof.
  intros Ht Htitle Hdesc Hdue Hcat Htags. unfold TodoForm.tidy.
  rewrite Htitle, Hdesc, Hdue, Hcat, Htags.
  split; [apply truthy_true; exact Ht|].
  split; [apply trim_idem|].
  split.
  { intros d Hd. apply or_undefined_some in Hd. destruct Hd as [-> Hne].
    split; [exact Hne | apply trim_idem]. }
  split; [apply or_undefined_not_empty|].
  split; [apply or_undefined_not_empty|].
  apply tagArray_tidy.
Qed.

(** X18. Every todo the form writes is tidy, whatever was typed: a
    submission that is not refused either adds a todo whose title is not
    empty and trimmed, whose description, due date and category are
    absent rather than empty, and whose tags are tidy; or updates a todo
    with a payload that makes any todo it is merged into so. *)
Theorem the_form_writes_tidy_todos (clock : Clock) (uuidv4 : string)
    (editingTodo : option Todo.t) (f : TodoForm.Fields) (k k' : nat)
    (call : TodoProvider.Call) :
  TodoForm.handleSubmit clock uuidv4 editingTodo f k
    = (TodoForm.submitted call, k') ->
  match call with
  | TodoProvider.addTodo todo => TodoForm.tidy todo
  | TodoProvider.updateTodo _ updates =>
      forall todo, TodoForm.tidy (spread_todo todo updates)
  | _ => False
  end.
Proof.
  unfold TodoForm.handleSubmit.
  destruct (truthy (trim (TodoForm.title f))) eqn:Ht; simpl;
    [|discriminate].
  destruct editingTodo as [editing|]; intros H.
  - injection H as <- _. intros todo.
    apply (written_fields_tidy f); try reflexivity. exact Ht.
  - injection H as <- _.
    apply (written_fields_tidy f); try reflexivity. exact Ht.
Qed.

(** X19. Submitting a new todo.  A title that is blank once trimmed is
    refused with an alert: nothing is dispatched and no clock is read.
    Otherwise the form adds one todo: not completed, under the id the
    generator returned, with the trimmed title, and with [createdAt] and
    [updatedAt] taken from two successive readings of the clock. *)
Theorem submitting_a_new_todo (clock : Clock) (uuidv4 : string)
    (f : TodoForm.Fields) (k : nat) :
  (trim (TodoForm.title f) = EmptyString ->
   TodoForm.handleSubmit clock uuidv4 None f k
     = (TodoForm.alert_title_required, k)) /\
  (trim (TodoForm.title f) <> EmptyString ->
   exists todo,
     TodoForm.handleSubmit clock uuidv4 None f k
       = (TodoForm.submitted (TodoProvider.addTodo todo), S (S k)) /\
     Todo.id todo = uuidv4 /\
     Todo.completed todo = false /\
     Todo.title todo = trim (TodoForm.title f) /\
     Todo.priority todo = TodoForm.priority f /\
     Todo.createdAt todo = clock k /\
     Todo.updatedAt todo = clock (S k)).
Proof.
  unfold TodoForm.handleSubmit. split.
  - intros H. apply truthy_false in H. rewrite H. reflexivity.
  - intros H. apply truthy_true in H. rewrite H. simpl.
    eexists. split; [reflexivity|]. repeat split.
Qed.

(** X20. Opening a tidy todo in the editor and submitting the form as it
    is shown changes no field of the todo: the payload of the update
    merges into the todo as the todo itself, so only [updatedAt] will
    move. *)
Theorem editing_without_change (clock : Clock) (uuidv4 : string)
    (editing : Todo.t) (k : nat) :
  TodoForm.tidy editing ->
  exists updates,
    TodoForm.handleSubmit clock uuidv4 (Some editing)
      (TodoForm.shown (Some editing)) k
      = (TodoForm.submitted
           (TodoProvider.updateTodo (Todo.id editing) updates), k) /\
    spread_todo editing updates = editing.
Proof.
  intros [Hne [Htrim [Hdesc [Hdue [Hcat Htags]]]]].
  unfold TodoForm.handleSubmit. simpl.
  rewrite Htrim. apply truthy_true in Hne. rewrite Hne. simpl.
  eexists. split; [reflexivity|].
  unfold spread_todo. simpl.
  rewrite (tagArray_join (Todo.tags editing) Htags).
  rewrite (or_undefined_of_or_empty _ Hdue).
  rewrite (or_undefined_of_or_empty _ Hcat).
  assert (Hd : or_undefined (trim (or_empty (Todo.description editing)))
               = Todo.description editing).
  { destruct (Todo.description editing) as [d|] eqn:Ed; simpl.
    - destruct (Hdesc d eq_refl) as [Hdne Hdtrim]. rewrite Hdtrim.
      unfold or_undefined. apply truthy_true in Hdne. rewrite Hdne.
      reflexivity.
    - reflexivity. }
  rewrite Hd. destruct editing; reflexivity.
Qed.

(** X21. Editing through the form keeps what the form does not show.
    Whatever is typed, when the submission is not refused the todo under
    edit has, in the state after the update, its former id, completion
    and creation time, and the trimmed title of the form. *)
Theorem editing_keeps_identity (clock : Clock) (uuidv4 : string)
    (s : TodoState.t) (editing : Todo.t) (f : TodoForm.Fields)
    (k n : nat) (todo : Todo.t) :
  nth_error (TodoState.todos s) n = Some todo ->
  Todo.id todo = Todo.id editing ->
  trim (TodoForm.title f) <> EmptyString ->
  exists call todo',
    TodoForm.handleSubmit clock uuidv4 (Some editing) f k
      = (TodoForm.submitted call, k) /\
    nth_error
      (TodoState.todos (fst (after_call clock s (Some call) k))) n
      = Some todo' /\
    Todo.id todo' = Todo.id todo /\
    Todo.completed todo' = Todo.completed todo /\
    Todo.createdAt todo' = Todo.createdAt todo /\
    Todo.title todo' = trim (TodoForm.title f).
Proof.
  intros Hn Hid Hne. unfold TodoForm.handleSubmit.
  apply truthy_true in Hne. rewrite Hne. simpl.
  eexists. eexists. split; [reflexivity|].
  unfold after_call. simpl TodoProvider.dispatched.
  change (fst (todoReducer clock s ?a k)) with (reduced clock s a k).
  rewrite (update_nth clock _ _ s k n todo Hn).
  apply String.eqb_eq in Hid. rewrite Hid.
  split; [reflexivity|]. repeat split.
Qed.

Lemma the_form_writes_tidy_todos_witness :
  TodoForm.handleSubmit frozen_clock "test-uuid-1234" (Some mockTodo)
    (TodoForm.mkFields "  Updated Todo  " "" high "" "" "a, b ,,") 0
  = (TodoForm.submitted
       (TodoProvider.updateTodo "1"
          {| PartialTodo.id := None;
             PartialTodo.title := Some "Updated Todo";
             PartialTodo.description := Some None;
             PartialTodo.completed := None;
             PartialTodo.priority := Some high;
             PartialTodo.dueDate := Some None;
             PartialTodo.category := Some None;
             PartialTodo.tags := Some ["a"; "b"];
             PartialTodo.createdAt := None;
             PartialTodo.updatedAt := None |}), 0) /\
  forall todo,
    TodoForm.tidy
      (spread_todo todo
         {| PartialTodo.id := None;
            PartialTodo.title := Some "Updated Todo";
            PartialTodo.description := Some None;
            PartialTodo.completed := None;
            PartialTodo.priority := Some high;
            PartialTodo.dueDate := Some None;
            PartialTodo.category := Some None;
            PartialTodo.tags := Some ["a"; "b"];
            PartialTodo.createdAt := None;
            PartialTodo.updatedAt := None |}).
Proof.
  split; [reflexivity|].
  exact (the_form_writes_tidy_todos frozen_clock "test-uuid-1234"
           (Some mockTodo)
           (TodoForm.mkFields "  Updated Todo  " "" high "" "" "a, b ,,")
           0 0 _ eq_refl).
Defined.

Lemma mockTodo_tidy : TodoForm.tidy mockTodo.
Proof.
  unfold TodoForm.tidy. simpl.
  split; [discriminate|]. split; [reflexivity|]. split.
  { intros d H. injection H as <-. split; [discriminate | reflexivity]. }
  split; [discriminate|]. split; [discriminate|].
  repeat constructor; discriminate.
Qed.

Lemma editing_without_change_witness :
  TodoForm.tidy mockTodo /\
  exists updates,
    TodoForm.handleSubmit frozen_clock "test-uuid-1234" (Some mockTodo)
      (TodoForm.shown (Some mockTodo)) 0
      = (TodoForm.submitted
           (TodoProvider.updateTodo (Todo.id mockTodo) updates), 0) /\
    spread_todo mockTodo updates = mockTodo.
Proof.
  split.
  - exact mockTodo_tidy.
  - exact (editing_without_change frozen_clock "test-uuid-1234" mockTodo 0
             mockTodo_tidy).
Defined.

Lemma editing_keeps_identity_witness :
  (nth_error (TodoState.todos (with_todos [mockTodo])) 0 = Some mockTodo /\
   Todo.id mockTodo = Todo.id mockTodo /\
   trim " Updated Todo " <> EmptyString) /\
  exists call todo',
    TodoForm.handleSubmit frozen_clock "test-uuid-1234" (Some mockTodo)
      (TodoForm.mkFields " Updated Todo " "" low "" "" "") 0
      = (TodoForm.submitted call, 0) /\
    nth_error
      (TodoState.todos
         (fst (after_call frozen_clock (with_todos [mockTodo]) (Some call) 0)))
      0 = Some todo' /\
    Todo.id todo' = Todo.id mockTodo /\
    Todo.completed todo' = Todo.completed mockTodo /\
    Todo.createdAt todo' = Todo.createdAt mockTodo /\
    Todo.title todo' = trim " Updated Todo ".
Proof.
  assert (H : trim " Updated Todo " <> EmptyString) by discriminate.
  split.
  - split; [reflexivity|]. split; [reflexivity | exact H].
  - exact (editing_keeps_identity frozen_clock "test-uuid-1234"
             (with_todos [mockTodo]) mockTodo
             (TodoForm.mkFields " Updated Todo " "" low "" "" "")
             0 0 mockTodo eq_refl eq_refl H).
Defined.

(** ** The category manager *)

Section CategoryLaws.

Variable clock : Clock.
Variable toLowerCase : string -> string.

(** X22. The category manager keeps the names of the categories
    pairwise distinct up to case.  From a state where they are, a
    submission either is refused (a name that is blank once trimmed, or
    one that an existing category bears up to case) and leaves the state
    as it is, or appends one category whose name is the trimmed text;
    in both cases the names are distinct afterwards, and the todos and
    the filter are untouched. *)
Theorem category_names_stay_distinct (uuidv4 : string) (s : TodoState.t)
    (categoryName categoryColor : string) (k : nat) :
  NoDup (CategoryManager.names toLowerCase s) ->
  let outcome :=
    CategoryManager.handleSubmit toLowerCase uuidv4 s categoryName
      categoryColor in
  let s' :=
    fst (after_call clock s (CategoryManager.call_of outcome) k) in
  NoDup (CategoryManager.names toLowerCase s') /\
  TodoState.todos s' = TodoState.todos s /\
  TodoState.filter s' = TodoState.filter s /\
  (s' = s \/
   TodoState.categories s'
   = TodoState.categories s
       ++ [Category.mk uuidv4 (trim categoryName) categoryColor] /\
   trim categoryName <> EmptyString).
Proof.
  intros Hs. unfold CategoryManager.handleSubmit.
  destruct (truthy (trim categoryName)) eqn:Ht; simpl.
  - destruct (List.find _ (TodoState.categories s)) as [existing|] eqn:Ef;
      simpl.
    + repeat split; try assumption. left; reflexivity.
    + split; [|split; [reflexivity|split; [reflexivity|]]].
      * unfold CategoryManager.names. simpl. rewrite List.map_app. simpl.
        apply Permutation_NoDup
          with (toLowerCase (trim categoryName)
                  :: CategoryManager.names toLowerCase s).
        -- apply Permutation_cons_append.
        -- constructor; [|exact Hs].
           intros Hin. apply in_map_iff in Hin.
           destruct Hin as [cat [Hname Hcat]].
           pose proof (List.find_none _ _ Ef cat Hcat) as Hno.
           simpl in Hno. rewrite Hname, String.eqb_refl in Hno.
           discriminate.
      * right. split; [reflexivity|]. apply truthy_true. exact Ht.
  - repeat split; try assumption. left; reflexivity.
Qed.

End CategoryLaws.

Lemma category_names_stay_distinct_witness :
  NoDup
    (CategoryManager.names ascii_toLowerCase
       (with_categories [mockCategory; newCategory])) /\
  (fst (after_call frozen_clock (with_categories [mockCategory; newCategory])
          (CategoryManager.call_of
             (CategoryManager.handleSubmit ascii_toLowerCase
                "test-uuid-1234" (with_categories [mockCategory; newCategory])
                " WORK " "#3b82f6")) 0)
   = with_categories [mockCategory; newCategory]) /\
  (TodoState.categories
     (fst (after_call frozen_clock
             (with_categories [mockCategory; newCategory])
             (CategoryManager.call_of
                (CategoryManager.handleSubmit ascii_toLowerCase
                   "test-uuid-1234"
                   (with_categories [mockCategory; newCategory])
                   " Home " "#3b82f6")) 0))
   = [mockCategory; newCategory;
      Category.mk "test-uuid-1234" "Home" "#3b82f6"]) /\
  NoDup
    (CategoryManager.names ascii_toLowerCase
       (fst (after_call frozen_clock
               (with_categories [mockCategory; newCategory])
               (CategoryManager.call_of
                  (CategoryManager.handleSubmit ascii_toLowerCase
                     "test-uuid-1234"
                     (with_categories [mockCategory; newCategory])
                     " Home " "#3b82f6")) 0))).
Proof.
  assert (H : NoDup
                (CategoryManager.names ascii_toLowerCase
                   (with_categories [mockCategory; newCategory]))).
  { repeat constructor; simpl; intuition discriminate. }
  split; [exact H|]. split; [reflexivity|]. split; [reflexivity|].
  exact (proj1 (category_names_stay_distinct frozen_clock ascii_toLowerCase
                  "test-uuid-1234"
                  (with_categories [mockCategory; newCategory])
                  " Home " "#3b82f6" 0 H)).
Defined.

(** ** The due date of a listed todo *)

Lemma ceil_days_le (diffTime n : Z) :
  (TodoItem.ceil_days diffTime <= n <-> diffTime <= n * TodoItem.day)%Z.
Proof.
  unfold TodoItem.ceil_days.
  assert (Hday : (0 < TodoItem.day)%Z) by reflexivity.
  split; intros H.
  - assert (H1 : (- n <= - diffTime / TodoItem.day)%Z) by lia.
    pose proof (Z.mul_div_le (- diffTime) TodoItem.day Hday) as H2.
    nia.
  - assert (H1 : (- n <= - diffTime / TodoItem.day)%Z).
    { apply Z.div_le_lower_bound; [exact Hday | lia]. }
    lia.
Qed.

Section DueDateLaws.

Variable Date_getTime : string -> num.

(** X23. The status of a due date, by the time left.  For a todo whose
    due date has the time value [due], with [left = due - now]: overdue
    when a whole day or more has passed since ([left <= -day]); due
    today when less than a day has passed ([-day < left <= 0]), so a due
    date earlier in the last 24 hours is not yet overdue; soon, labelled
    tomorrow, when at most a day is left; soon, labelled with 2 or 3
    days, up to three days; normal, labelled with the date, beyond.  A
    todo without a due date has no status, and one whose due date has no
    time value is normal. *)
Theorem due_date_status_by_time_left (now : Z) (todo : Todo.t) :
  (has_dueDate todo = false ->
   TodoItem.getDueDateStatus Date_getTime now todo = None) /\
  (forall d,
      Todo.dueDate todo = Some d -> d <> EmptyString ->
      Date_getTime d = None ->
      TodoItem.getDueDateStatus Date_getTime now todo
        = Some (TodoItem.normal, TodoItem.label_date d)) /\
  (forall d due,
      Todo.dueDate todo = Some d -> d <> EmptyString ->
      Date_getTime d = Some due ->
      let left := (due - now)%Z in
      (left <= - TodoItem.day ->
       TodoItem.getDueDateStatus Date_getTime now todo
         = Some (TodoItem.overdue, TodoItem.label_overdue))%Z /\
      (- TodoItem.day < left <= 0 ->
       TodoItem.getDueDateStatus Date_getTime now todo
         = Some (TodoItem.today, TodoItem.label_today))%Z /\
      (0 < left <= TodoItem.day ->
       TodoItem.getDueDateStatus Date_getTime now todo
         = Some (TodoItem.soon, TodoItem.label_tomorrow))%Z /\
      (TodoItem.day < left <= 2 * TodoItem.day ->
       TodoItem.getDueDateStatus Date_getTime now todo
         = Some (TodoItem.soon, TodoItem.label_in_days 2))%Z /\
      (2 * TodoItem.day < left <= 3 * TodoItem.day ->
       TodoItem.getDueDateStatus Date_getTime now todo
         = Some (TodoItem.soon, TodoItem.label_in_days 3))%Z /\
      (3 * TodoItem.day < left ->
       TodoItem.getDueDateStatus Date_getTime now todo
         = Some (TodoItem.normal, TodoItem.label_date d))%Z).
Proof.
  unfold TodoItem.getDueDateStatus, has_dueDate. split; [|split].
  - destruct (Todo.dueDate todo) as [d|]; simpl; [|reflexivity].
    intros H. rewrite H. reflexivity.
  - intros d Hd Hne Hnan. rewrite Hd.
    apply truthy_true in Hne. rewrite Hne, Hnan. reflexivity.
  - intros d due Hd Hne Hdue. rewrite Hd.
    apply truthy_true in Hne. rewrite Hne, Hdue. simpl.
    set (left := (due - now)%Z).
    pose proof (ceil_days_le left (-1)) as Hm1.
    pose proof (ceil_days_le left 0) as H0.
    pose proof (ceil_days_le left 1) as H1.
    pose proof (ceil_days_le left 2) as H2.
    pose proof (ceil_days_le left 3) as H3.
    set (c := TodoItem.ceil_days left) in *.
    assert (Hday : TodoItem.day = 86400000%Z) by reflexivity.
    rewrite Hday in *.
    split; [|split; [|split; [|split; [|split]]]]; intros Hleft;
      repeat match goal with
             | |- context [(?a <? ?b)%Z] => destruct (Z.ltb_spec a b)
             | |- context [(?a =? ?b)%Z] => destruct (Z.eqb_spec a b)
             | |- context [(?a <=? ?b)%Z] => destruct (Z.leb_spec a b)
             end;
      try reflexivity; try lia; repeat f_equal; lia.
Qed.

End DueDateLaws.

(** ** The identity of the state object *)

Section Identity.

Variable clock : Clock.

Lemma grows_ret {A : Type} (a : A) : grows (Heap.ret a).
Proof. intros h k x h' k' H. injection H as _ <- _. apply le_n. Qed.

Lemma grows_bind {A B : Type} (m : Heap.M A) (f : A -> Heap.M B) :
  grows m -> (forall a, grows (f a)) -> grows (Heap.bind m f).
Proof.
  intros Hm Hf h k b h' k' H. unfold Heap.bind in H.
  destruct (m h k) as [[[a h1] k1]|] eqn:E; [|discriminate].
  apply Nat.le_trans with (List.length h1).
  - apply (Hm h k a h1 k1 E).
  - apply (Hf a h1 k1 b h' k' H).
Qed.

Lemma grows_alloc (o : Heap.object) : grows (Heap.alloc o).
Proof.
  intros h k r h' k' H. injection H as _ <- _.
  rewrite length_app. simpl. lia.
Qed.

Lemma grows_get (r : Heap.ref) : grows (Heap.get r).
Proof.
  intros h k o h' k' H. unfold Heap.get in H.
  destruct (nth_error h r); [|discriminate].
  injection H as _ <- _. apply le_n.
Qed.

Lemma grows_fail {A : Type} : grows (@Heap.fail A).
Proof. intros h k a h' k' H. discriminate. Qed.

Lemma grows_now : grows (Heap.Date_now_toISOString clock).
Proof. intros h k a h' k' H. injection H as _ <- _. apply le_n. Qed.

Lemma grows_get_todo (r : Heap.ref) : grows (Heap.get_todo r).
Proof.
  apply grows_bind; [apply grows_get|].
  intros []; try apply grows_fail. apply grows_ret.
Qed.

Lemma grows_get_category (r : Heap.ref) : grows (Heap.get_category r).
Proof.
  apply grows_bind; [apply grows_get|].
  intros []; try apply grows_fail. apply grows_ret.
Qed.

Lemma grows_get_filter (r : Heap.ref) : grows (Heap.get_filter r).
Proof.
  apply grows_bind; [apply grows_get|].
  intros []; try apply grows_fail. apply grows_ret.
Qed.

Lemma grows_get_array (r : Heap.ref) : grows (Heap.get_array r).
Proof.
  apply grows_bind; [apply grows_get|].
  intros []; try apply grows_fail. apply grows_ret.
Qed.

Lemma grows_get_state (r : Heap.ref) : grows (Heap.get_state r).
Proof.
  apply grows_bind; [apply grows_get|].
  intros []; try apply grows_fail. apply grows_ret.
Qed.

Lemma grows_Array_map (f : Heap.ref -> Heap.M Heap.ref) (l : list Heap.ref) :
  (forall r, grows (f r)) -> grows (Heap.Array_map f l).
Proof.
  intros Hf. induction l as [|x l IH]; simpl.
  - apply grows_ret.
  - apply grows_bind; [apply Hf|]. intros y.
    apply grows_bind; [exact IH|]. intros ys. apply grows_ret.
Qed.

Lemma grows_Array_filter (f : Heap.ref -> Heap.M bool) (l : list Heap.ref) :
  (forall r, grows (f r)) -> grows (Heap.Array_filter f l).
Proof.
  intros Hf. induction l as [|x l IH]; simpl.
  - apply grows_ret.
  - apply grows_bind; [apply Hf|]. intros keep.
    apply grows_bind; [exact IH|]. intros ys. apply grows_ret.
Qed.

Lemma grows_update_callback (i : string) (u : PartialTodo.t) (r : Heap.ref) :
  grows (Heap.update_callback clock i u r).
Proof.
  apply grows_bind; [apply grows_get_todo|]. intros todo.
  destruct (Todo.id todo =? i)%string; [|apply grows_ret].
  apply grows_bind; [apply grows_now|]. intros now. apply grows_alloc.
Qed.

Lemma grows_toggle_callback (i : string) (r : Heap.ref) :
  grows (Heap.toggle_callback clock i r).
Proof.
  apply grows_bind; [apply grows_get_todo|]. intros todo.
  destruct (Todo.id todo =? i)%string; [|apply grows_ret].
  apply grows_bind; [apply grows_now|]. intros now. apply grows_alloc.
Qed.

Lemma fresh_alloc (o : Heap.object) : returns_fresh (Heap.alloc o).
Proof. intros h k r h' k' H. injection H as <- _ _. apply le_n. Qed.

Lemma fresh_bind {A : Type} (m : Heap.M A) (f : A -> Heap.M Heap.ref) :
  grows m -> (forall a, returns_fresh (f a)) ->
  returns_fresh (Heap.bind m f).
Proof.
  intros Hm Hf h k r h' k' H. unfold Heap.bind in H.
  destruct (m h k) as [[[a h1] k1]|] eqn:E; [|discriminate].
  apply Nat.le_trans with (List.length h1).
  - apply (Hm h k a h1 k1 E).
  - apply (Hf a h1 k1 r h' k' H).
Qed.

Lemma todoReducer_returns_fresh (state : Heap.ref)
    (a : Action Heap.ref Heap.ref Heap.ref) :
  match a with
  | LOAD_STATE _ | UNKNOWN_ACTION _ => True
  | _ => returns_fresh (Heap.todoReducer clock state a)
  end.
Proof.
  destruct a; try exact I; cbn [Heap.todoReducer];
    (apply fresh_bind; [apply grows_get_state|]; intros [[t c] f]).
  - apply fresh_bind; [apply grows_get_array|]. intros el.
    apply fresh_bind; [apply grows_alloc|]. intros. apply fresh_alloc.
  - apply fresh_bind; [apply grows_get_array|]. intros el.
    apply fresh_bind;
      [apply grows_Array_map; apply grows_update_callback|]. intros.
    apply fresh_bind; [apply grows_alloc|]. intros. apply fresh_alloc.
  - apply fresh_bind; [apply grows_get_array|]. intros el.
    apply fresh_bind.
    { apply grows_Array_filter. intros r.
      apply grows_bind; [apply grows_get_todo|]. intros. apply grows_ret. }
    intros. apply fresh_bind; [apply grows_alloc|]. intros. apply fresh_alloc.
  - apply fresh_bind; [apply grows_get_array|]. intros el.
    apply fresh_bind;
      [apply grows_Array_map; apply grows_toggle_callback|]. intros.
    apply fresh_bind; [apply grows_alloc|]. intros. apply fresh_alloc.
  - apply fresh_bind; [apply grows_get_array|]. intros el.
    apply fresh_bind; [apply grows_alloc|]. intros. apply fresh_alloc.
  - apply fresh_bind; [apply grows_get_array|]. intros el.
    apply fresh_bind.
    { apply grows_Array_filter. intros r.
      apply grows_bind; [apply grows_get_category|]. intros.
      apply grows_ret. }
    intros. apply fresh_bind; [apply grows_alloc|]. intros. apply fresh_alloc.
  - apply fresh_bind; [apply grows_get_filter|]. intros fl.
    apply fresh_bind; [apply grows_alloc|]. intros. apply fresh_alloc.
Qed.

(** X24. The identity of the state object.  On a heap in which [state]
    stands for a state and [action] for an action, the reducer returns a
    state object that did not exist before, and so is not the object it
    was handed, for each of the seven actions the provider's functions
    dispatch, even when the two states are equal in every field (an
    update or a delete that matches nothing); it returns the payload
    object itself for Load State, and the object it was handed for an
    unknown action. *)
Theorem the_reducer_returns_a_new_state_object (h : Heap.heap)
    (state : Heap.ref) (action : Action Heap.ref Heap.ref Heap.ref)
    (k : nat) (S : TodoState.t) (A : TodoAction) :
  Heap.read_state h state = Some S ->
  Heap.read_action h action = Some A ->
  exists r fresh k',
    Heap.todoReducer clock state action h k = Some (r, h ++ fresh, k') /\
    match action with
    | LOAD_STATE payload => r = payload /\ fresh = []
    | UNKNOWN_ACTION _ => r = state /\ fresh = []
    | _ => nth_error h r = None /\ r <> state
    end.
Proof.
  intros HS HA.
  destruct (todoReducer_refines clock h state action k S A HS HA)
    as [r [fresh [Hrun _]]].
  pose proof (todoReducer_returns_fresh state action) as Hfresh.
  assert (Hstate : state < List.length h).
  { apply nth_error_Some. unfold Heap.read_state in HS.
    destruct (nth_error h state); [discriminate | discriminate]. }
  destruct action; simpl in Hfresh;
    try (exists r, fresh, (snd (todoReducer clock S A k));
         split; [exact Hrun|];
         specialize (Hfresh h k r _ _ Hrun);
         split; [apply nth_error_None; exact Hfresh | lia]).
  - exists payload, [], k. rewrite app_nil_r. repeat split.
  - exists state, [], k. rewrite app_nil_r. repeat split.
Qed.

End Identity.

Lemma the_reducer_returns_a_new_state_object_witness :
  (Heap.read_state mock_heap 4 = Some (with_todos [mockTodo]) /\
   Heap.read_action mock_heap (DELETE_TODO "non-existent")
     = Some (DELETE_TODO "non-existent")) /\
  exists r fresh k',
    Heap.todoReducer frozen_clock 4 (DELETE_TODO "non-existent") mock_heap 0
      = Some (r, mock_heap ++ fresh, k') /\
    nth_error mock_heap r = None /\ r <> 4.
Proof.
  split.
  - split; reflexivity.
  - exact (the_reducer_returns_a_new_state_object frozen_clock mock_heap 4
             (DELETE_TODO "non-existent") 0 (with_todos [mockTodo])
             (DELETE_TODO "non-existent") eq_refl eq_refl).
Defined.
